(** * A chess rules engine and its search engine: model and properties

    The development follows the Go sources of the [chess] package:
    [position.go] (coordinates and their algebraic text), [piece.go],
    the board (squares, raw relocation), [moves.go] (move legality),
    the game (turn and state machine) and the search engine.

    Go objects reached through pointers ([*Piece], [*Board], [*Game]) live
    in an explicit heap of three arenas; a pointer is an index into its
    arena and allocation appends a cell.  Go's [int] is modelled as [Z]
    with the 64-bit wrap-around written where the source subtracts or adds
    coordinates; [float64] is the kernel's binary64 [float]. *)

From Stdlib Require Import ZArith Bool Ascii String DecimalString Uint63.
From Stdlib Require Import Floats.PrimFloat.
From stdpp Require Import base list gmap.

Open Scope string_scope.
Open Scope Z_scope.

(** ** Machine integers *)

(** Go's [int] on the 64-bit targets the project builds for. *)
Definition wrap64 (z : Z) : Z := (z + 2^63) mod 2^64 - 2^63.
Definition in_int64 (z : Z) : Prop := - 2^63 <= z < 2^63.
Definition sub64 (a b : Z) : Z := wrap64 (a - b).
Definition add64 (a b : Z) : Z := wrap64 (a + b).
Definition mul64 (a b : Z) : Z := wrap64 (a * b).

(** [uint8] subtraction, as in [notation[0] - 'a']. *)
Definition sub8 (a b : Z) : Z := (a - b) mod 256.

(** [uint64] arithmetic of the position hash. *)
Definition u64 (z : Z) : Z := z mod 2^64.

(** ** position.go *)

Record Position : Type := NewPosition { Row : Z; Col : Z }.

(** [Position{}], the zero value. *)
Definition Position_zero : Position := NewPosition 0 0.

(** [Position.IsValid]. *)
Definition IsValid (p : Position) : bool :=
  (0 <=? Row p) && (Row p <? 8) && (0 <=? Col p) && (Col p <? 8).

(** [fmt.Sprintf("%d", n)]. *)
Definition fmt_d (n : Z) : string := NilZero.string_of_int (Z.to_int n).

(** [Position.String].  On the valid branch ['a' + p.Col] lies in
    97..104, so [string(rune(...))] is the single byte of that code. *)
Definition Position_String (p : Position) : string :=
  if negb (IsValid p) then "invalid"
  else
    let col := String (ascii_of_N (Z.to_N (97 + Col p))) EmptyString in
    let row := fmt_d (8 - Row p) in
    (col ++ row)%string.

(** [notation[i]] as a byte value; only read below [len(notation)]. *)
Definition byte_at (s : string) (i : nat) : Z :=
  match String.get i s with
  | Some c => Z.of_N (N_of_ascii c)
  | None => 0
  end.

(** [FromAlgebraic]: the Go pair [(Position, error)], the error being its
    message ([None] for [nil]). *)
Definition FromAlgebraic (notation : string) : Position * option string :=
  if negb (Nat.eqb (String.length notation) 2) then
    (Position_zero, Some ("invalid notation: " ++ notation)%string)
  else
    let col := sub8 (byte_at notation 0) 97 in
    let row := 8 - sub8 (byte_at notation 1) 48 in
    let pos := {| Row := row; Col := col |} in
    if negb (IsValid pos) then
      (Position_zero, Some ("invalid position: " ++ notation)%string)
    else (pos, None).

(** The column and row a two-character text denotes, read as plain
    integers: first character minus ['a'], and 8 minus the digit value of
    the second character. *)
Definition decoded_col (s : string) : Z := byte_at s 0 - 97.
Definition decoded_row (s : string) : Z := 8 - (byte_at s 1 - 48).
Definition in_board_range (z : Z) : Prop := 0 <= z <= 7.

(** ** piece.go *)

Inductive Color : Type := White | Black.

(** The six named values of [PieceType]; the other values of the Go
    [int] behind it, for which [IsValidMove] answers false, are left out. *)
Inductive PieceType : Type := King | Queen | Rook | Bishop | Knight | Pawn.

#[global] Instance Color_eq_dec : EqDecision Color.
Proof. solve_decision. Defined.

#[global] Instance PieceType_eq_dec : EqDecision PieceType.
Proof. solve_decision. Defined.

(** The iota values of the two enumerations. *)
Definition Color_int (c : Color) : Z :=
  match c with White => 0 | Black => 1 end.

Definition PieceType_int (t : PieceType) : Z :=
  match t with
  | King => 0 | Queen => 1 | Rook => 2 | Bishop => 3 | Knight => 4 | Pawn => 5
  end.

(** [Piece]: the struct behind a [*Piece]. *)
Record Piece : Type := mkPiece {
  Type_ : PieceType;
  Color_ : Color;
  HasMoved : bool
}.

(** ** The heap *)

(** A pointer is the index of a cell in the arena of its type; [nil] is
    [None] where the source allows it (squares of the board). *)
Abbreviation ptr := nat (only parsing).

Inductive GameState : Type := Playing | Check | Checkmate | Stalemate | Draw.

#[global] Instance GameState_eq_dec : EqDecision GameState.
Proof. solve_decision. Defined.

Record Move : Type := NewMove { From : Position; To : Position }.

#[global] Instance Position_eq_dec : EqDecision Position.
Proof. solve_decision. Defined.

#[global] Instance Move_eq_dec : EqDecision Move.
Proof. solve_decision. Defined.

(** [Move{}], the zero value. *)
Definition Move_zero : Move := NewMove Position_zero Position_zero.

(** [Game]: the struct behind a [*Game]. *)
Record Game : Type := mkGame {
  Board : ptr;
  CurrentPlayer : Color;
  State : GameState;
  MoveHistory : list Move
}.

(** [Board.squares], an [[8][8]*Piece], is kept row-major: the cell of
    row [r] and column [c] is number [8 * r + c] of 64. *)
Record heap : Type := mkHeap {
  pieces : list Piece;
  boards : list (list (option ptr));
  games : list Game
}.

Definition empty_heap : heap := mkHeap [] [] [].

(** Dereferences.  A Go pointer never dangles; the defaults below are
    read only on a heap that no Go execution builds. *)
Definition piece_at (h : heap) (p : ptr) : Piece :=
  default (mkPiece King White false) (pieces h !! p).

Definition board_at (h : heap) (b : ptr) : list (option ptr) :=
  default [] (boards h !! b).

Definition game_at (h : heap) (g : ptr) : Game :=
  default (mkGame 0%nat White Playing []) (games h !! g).

(** Allocation: [&Piece{...}], [&Board{}], [&Game{...}]. *)
Definition alloc_piece (h : heap) (x : Piece) : heap * ptr :=
  (mkHeap (pieces h ++ [x]) (boards h) (games h), length (pieces h)).

Definition alloc_board (h : heap) (sq : list (option ptr)) : heap * ptr :=
  (mkHeap (pieces h) (boards h ++ [sq]) (games h), length (boards h)).

Definition alloc_game (h : heap) (x : Game) : heap * ptr :=
  (mkHeap (pieces h) (boards h) (games h ++ [x]), length (games h)).

(** Stores through a pointer. *)
Definition store_piece (h : heap) (p : ptr) (x : Piece) : heap :=
  mkHeap (<[p := x]> (pieces h)) (boards h) (games h).

Definition store_board (h : heap) (b : ptr) (sq : list (option ptr)) : heap :=
  mkHeap (pieces h) (<[b := sq]> (boards h)) (games h).

Definition store_game (h : heap) (g : ptr) (x : Game) : heap :=
  mkHeap (pieces h) (boards h) (<[g := x]> (games h)).

(** [NewPiece]. *)
Definition NewPiece (h : heap) (pieceType : PieceType) (color : Color) : heap * ptr :=
  alloc_piece h (mkPiece pieceType color false).

(** ** The board *)

(** The cell number of a valid position. *)
Definition square_index (pos : Position) : nat := Z.to_nat (8 * Row pos + Col pos).

(** [Board.GetPiece]. *)
Definition GetPiece (h : heap) (b : ptr) (pos : Position) : option ptr :=
  if negb (IsValid pos) then None
  else mjoin (board_at h b !! square_index pos).

(** [Board.SetPiece]. *)
Definition SetPiece (h : heap) (b : ptr) (pos : Position) (piece : option ptr) : heap :=
  if IsValid pos then store_board h b (<[square_index pos := piece]> (board_at h b))
  else h.

(** [piece.HasMoved = true]. *)
Definition mark_moved (x : Piece) : Piece := mkPiece (Type_ x) (Color_ x) true.

(** [Board.MovePiece]: the raw relocation; it marks the piece as moved. *)
Definition MovePiece (h : heap) (b : ptr) (from to : Position) : heap * bool :=
  if negb (IsValid from) || negb (IsValid to) then (h, false)
  else
    match GetPiece h b from with
    | None => (h, false)
    | Some piece =>
        let h := SetPiece h b to (Some piece) in
        let h := SetPiece h b from None in
        let h := store_piece h piece (mark_moved (piece_at h piece)) in
        (h, true)
    end.

(** The squares in the order of the source's nested loops
    [for row := 0; row < 8; row++ { for col := 0; col < 8; col++ {...} }]. *)
Definition all_positions : list Position :=
  r ← seqZ 0 8; c ← seqZ 0 8; [NewPosition r c].

(** [Board.setupInitialPosition], on the squares of a fresh board. *)
Definition back_rank : list PieceType :=
  [Rook; Knight; Bishop; Queen; King; Bishop; Knight; Rook].

(** One assignment [b.squares[row][col] = NewPiece(t, color)]. *)
Definition place (row col : Z) (t : PieceType) (color : Color)
    (st : heap * list (option ptr)) : heap * list (option ptr) :=
  let '(h, sq) := st in
  let '(h, p) := NewPiece h t color in
  (h, <[Z.to_nat (8 * row + col) := Some p]> sq).

Fixpoint place_row (row col : Z) (ts : list PieceType) (color : Color)
    (st : heap * list (option ptr)) : heap * list (option ptr) :=
  match ts with
  | [] => st
  | t :: ts' => place_row row (col + 1) ts' color (place row col t color st)
  end.

Definition setupInitialPosition (h : heap) (b : ptr) : heap :=
  (* Clear the board *)
  let st := (h, replicate 64 None) in
  (* Place white pieces, then white pawns *)
  let st := place_row 7 0 back_rank White st in
  let st := place_row 6 0 (replicate 8 Pawn) White st in
  (* Place black pieces, then black pawns *)
  let st := place_row 0 0 back_rank Black st in
  let st := place_row 1 0 (replicate 8 Pawn) Black st in
  store_board (fst st) b (snd st).

(** [NewBoard]. *)
Definition NewBoard (h : heap) : heap * ptr :=
  let '(h, board) := alloc_board h (replicate 64 None) in
  (setupInitialPosition h board, board).

(** ** Printing *)





(** ** moves.go *)

(** [int(math.Abs(float64(x)))] and [math.Abs(float64(x)) == k]: the
    conversion is exact up to [2^53], far beyond any difference of board
    coordinates, and it maps no other integer to a small one.  Rounding
    of differences beyond [2^53] is not modelled. *)
Definition abs_int (x : Z) : Z := Z.abs x.

(** The loop of [Board.isPathClear].  [None] stands for a loop that has
    not reached [to] within [fuel] iterations. *)
Fixpoint isPathClear_loop (fuel : nat) (h : heap) (b : ptr)
    (rowStep colStep currentRow currentCol : Z) (to : Position) : option bool :=
  if negb (currentRow =? Row to) || negb (currentCol =? Col to) then
    match fuel with
    | O => None
    | S fuel' =>
        match GetPiece h b (NewPosition currentRow currentCol) with
        | Some _ => Some false
        | None =>
            isPathClear_loop fuel' h b rowStep colStep
              (currentRow + rowStep) (currentCol + colStep) to
        end
    end
  else Some true.

(** The number of iterations a straight or diagonal path needs at most. *)
Definition path_fuel (from to : Position) : nat :=
  Z.to_nat (Z.max (Z.abs (Row to - Row from)) (Z.abs (Col to - Col from))).

Definition path_step (a b : Z) : Z :=
  if b >? a then 1 else if b <? a then -1 else 0.

(** [Board.isPathClear].  Both callers pass squares on a common line or
    diagonal, where the loop ends within [path_fuel] iterations
    ([isPathClear_loop_aligned] below); on other inputs the source loop
    does not reach [to], and the model answers [false]. *)
Definition isPathClear (h : heap) (b : ptr) (from to : Position) : bool :=
  let rowStep := path_step (Row from) (Row to) in
  let colStep := path_step (Col from) (Col to) in
  let currentRow := Row from + rowStep in
  let currentCol := Col from + colStep in
  default false
    (isPathClear_loop (path_fuel from to) h b rowStep colStep currentRow currentCol to).

(** [Board.isValidPawnMove]. *)
Definition isValidPawnMove (h : heap) (b : ptr) (move : Move) (piece : ptr) : bool :=
  let rowDiff := sub64 (Row (To move)) (Row (From move)) in
  let colDiff := sub64 (Col (To move)) (Col (From move)) in
  let color := Color_ (piece_at h piece) in
  (* White moves up (decreasing row numbers) from row 6, Black down from row 1 *)
  let direction := if decide (color = Black) then 1 else -1 in
  let startRow := if decide (color = Black) then 1 else 6 in
  (* Forward move *)
  let forward :=
    if colDiff =? 0 then
      if rowDiff =? direction then
        (* One square forward *)
        Some (bool_decide (GetPiece h b (To move) = None))
      else if (rowDiff =? 2 * direction) && (Row (From move) =? startRow) then
        (* Two squares forward from starting position *)
        Some (bool_decide (GetPiece h b (To move) = None)
              && bool_decide (GetPiece h b
                   (NewPosition (Row (From move) + direction) (Col (From move))) = None))
      else None
    else None in
  match forward with
  | Some r => r
  | None =>
      (* Diagonal capture *)
      if (abs_int colDiff =? 1) && (rowDiff =? direction) then
        match GetPiece h b (To move) with
        | Some destPiece => negb (bool_decide (Color_ (piece_at h destPiece) = color))
        | None => false
        end
      else false
  end.

(** [Board.isValidRookMove]. *)
Definition isValidRookMove (h : heap) (b : ptr) (move : Move) : bool :=
  if negb (Row (From move) =? Row (To move)) && negb (Col (From move) =? Col (To move))
  then false
  else isPathClear h b (From move) (To move).

(** [Board.isValidKnightMove]. *)
Definition isValidKnightMove (move : Move) : bool :=
  let rowDiff := abs_int (sub64 (Row (To move)) (Row (From move))) in
  let colDiff := abs_int (sub64 (Col (To move)) (Col (From move))) in
  ((rowDiff =? 2) && (colDiff =? 1)) || ((rowDiff =? 1) && (colDiff =? 2)).

(** [Board.isValidBishopMove]. *)
Definition isValidBishopMove (h : heap) (b : ptr) (move : Move) : bool :=
  let rowDiff := abs_int (sub64 (Row (To move)) (Row (From move))) in
  let colDiff := abs_int (sub64 (Col (To move)) (Col (From move))) in
  if negb (rowDiff =? colDiff) then false
  else isPathClear h b (From move) (To move).

(** [Board.isValidQueenMove]. *)
Definition isValidQueenMove (h : heap) (b : ptr) (move : Move) : bool :=
  isValidRookMove h b move || isValidBishopMove h b move.

(** [Board.isValidKingMove]. *)
Definition isValidKingMove (move : Move) : bool :=
  let rowDiff := abs_int (sub64 (Row (To move)) (Row (From move))) in
  let colDiff := abs_int (sub64 (Col (To move)) (Col (From move))) in
  (rowDiff <=? 1) && (colDiff <=? 1).

(** [Board.IsValidMove]. *)
Definition IsValidMove (h : heap) (b : ptr) (move : Move) (currentPlayer : Color) : bool :=
  match GetPiece h b (From move) with
  | None => false
  | Some piece =>
      let x := piece_at h piece in
      (* Check if it's the current player's piece *)
      if negb (bool_decide (Color_ x = currentPlayer)) then false
      else
        (* Check if destination has own piece *)
        let own_dest :=
          match GetPiece h b (To move) with
          | Some destPiece => bool_decide (Color_ (piece_at h destPiece) = Color_ x)
          | None => false
          end in
        if own_dest then false
        else
          match Type_ x with
          | Pawn => isValidPawnMove h b move piece
          | Rook => isValidRookMove h b move
          | Knight => isValidKnightMove move
          | Bishop => isValidBishopMove h b move
          | Queen => isValidQueenMove h b move
          | King => isValidKingMove move
          end
  end.

(** [Board.GetValidMoves]. *)
Definition GetValidMoves (h : heap) (b : ptr) (pos : Position) : list Move :=
  match GetPiece h b pos with
  | None => []
  | Some piece =>
      filter (fun move => IsValidMove h b move (Color_ (piece_at h piece)) = true)
             (NewMove pos <$> all_positions)
  end.

(** ** The game *)

(** [NewGame]. *)
Definition NewGame (h : heap) : heap * ptr :=
  let '(h, board) := NewBoard h in
  alloc_game h (mkGame board White Playing []).

(** [Game.isInCheck]. *)
Definition isInCheck (h : heap) (g : ptr) (player : Color) : bool :=
  let board := Board (game_at h g) in
  (* Find the king: the first square, in loop order, that holds it *)
  let is_king pos :=
    match GetPiece h board pos with
    | Some piece =>
        bool_decide (Type_ (piece_at h piece) = King)
        && bool_decide (Color_ (piece_at h piece) = player)
    | None => false
    end in
  match List.find is_king all_positions with
  | None => false
  | Some kingPos =>
      (* Check if any opponent piece can attack the king *)
      let opponent := if decide (player = Black) then White else Black in
      existsb
        (fun pos =>
           match GetPiece h board pos with
           | Some piece =>
               bool_decide (Color_ (piece_at h piece) = opponent)
               && IsValidMove h board (NewMove pos kingPos) opponent
           | None => false
           end)
        all_positions
  end.

(** The body of [for _, move := range moves] in [Game.hasValidMoves]:
    try each move on the live board, undo it, stop at the first one that
    does not leave the king in check. *)
Fixpoint tryMoves (h : heap) (g : ptr) (player : Color) (moves : list Move) : heap * bool :=
  match moves with
  | [] => (h, false)
  | move :: rest =>
      let board := Board (game_at h g) in
      let originalPiece := GetPiece h board (To move) in
      let h := fst (MovePiece h board (From move) (To move)) in
      let inCheck := isInCheck h g player in
      (* Undo the move *)
      let h := fst (MovePiece h board (To move) (From move)) in
      let h := SetPiece h board (To move) originalPiece in
      if negb inCheck then (h, true) else tryMoves h g player rest
  end.

(** The two outer loops of [Game.hasValidMoves] over the squares. *)
Fixpoint hasValidMoves_from (h : heap) (g : ptr) (player : Color)
    (squares : list Position) : heap * bool :=
  match squares with
  | [] => (h, false)
  | pos :: rest =>
      let board := Board (game_at h g) in
      match GetPiece h board pos with
      | Some piece =>
          if bool_decide (Color_ (piece_at h piece) = player) then
            let moves := GetValidMoves h board pos in
            let '(h, found) := tryMoves h g player moves in
            if found then (h, true) else hasValidMoves_from h g player rest
          else hasValidMoves_from h g player rest
      | None => hasValidMoves_from h g player rest
      end
  end.

(** [Game.hasValidMoves]. *)
Definition hasValidMoves (h : heap) (g : ptr) (player : Color) : heap * bool :=
  hasValidMoves_from h g player all_positions.

Definition set_State (x : Game) (s : GameState) : Game :=
  mkGame (Board x) (CurrentPlayer x) s (MoveHistory x).

(** [Game.updateGameState]. *)
Definition updateGameState (h : heap) (g : ptr) : heap :=
  let player := CurrentPlayer (game_at h g) in
  if isInCheck h g player then
    let '(h, has) := hasValidMoves h g player in
    if has then store_game h g (set_State (game_at h g) Check)
    else store_game h g (set_State (game_at h g) Checkmate)
  else
    let '(h, has) := hasValidMoves h g player in
    if negb has then store_game h g (set_State (game_at h g) Stalemate)
    else store_game h g (set_State (game_at h g) Playing).

(** [Game.MakeMove]; the result is the heap after the call and the error
    ([None] for [nil]). *)
Definition MakeMove (h : heap) (g : ptr) (from to : string) : heap * option string :=
  let '(fromPos, err) := FromAlgebraic from in
  match err with
  | Some e => (h, Some ("invalid from position: " ++ e)%string)
  | None =>
      let '(toPos, err) := FromAlgebraic to in
      match err with
      | Some e => (h, Some ("invalid to position: " ++ e)%string)
      | None =>
          let move := NewMove fromPos toPos in
          if negb (IsValidMove h (Board (game_at h g)) move (CurrentPlayer (game_at h g)))
          then (h, Some "invalid move")
          else
            (* Make the move *)
            let h := fst (MovePiece h (Board (game_at h g)) (From move) (To move)) in
            let x := game_at h g in
            let h := store_game h g
                       (mkGame (Board x) (CurrentPlayer x) (State x) (MoveHistory x ++ [move])) in
            (* Switch players *)
            let x := game_at h g in
            let next := if decide (CurrentPlayer x = White) then Black else White in
            let h := store_game h g (mkGame (Board x) next (State x) (MoveHistory x)) in
            (* Update game state *)
            (updateGameState h g, None)
      end
  end.

(** [Game.IsGameOver]. *)
Definition IsGameOver (h : heap) (g : ptr) : bool :=
  let s := State (game_at h g) in
  bool_decide (s = Checkmate) || bool_decide (s = Stalemate) || bool_decide (s = Draw).

(** ** The search engine: data *)

#[global] Instance Position_countable : Countable Position.
Proof.
  refine (inj_countable' (fun p => (Row p, Col p)) (fun rc => NewPosition rc.1 rc.2) _).
  intros []; reflexivity.
Defined.

#[global] Instance Move_countable : Countable Move.
Proof.
  refine (inj_countable' (fun m => (From m, To m)) (fun ft => NewMove ft.1 ft.2) _).
  intros []; reflexivity.
Defined.

(** [TranspositionEntry]; flag 0 = exact, 1 = lower bound, 2 = upper bound. *)
Record TranspositionEntry : Type := mkEntry {
  e_depth : Z;
  e_score : float;
  e_flag : Z
}.

(** [AI]: the engine instance, threaded through the search as a value.
    [killerMoves] is the [[10][2]Move] table, one pair per ply. *)
Record AI : Type := mkAI {
  ai_color : Color;
  ai_depth : Z;
  transpositionTable : gmap Z TranspositionEntry;
  killerMoves : list (Move * Move);
  historyTable : gmap Move Z
}.

(** [[10][2]Move{}]. *)
Definition killerMoves_zero : list (Move * Move) := replicate 10 (Move_zero, Move_zero).

(** [NewAI]; the killer table starts as the zero value of its type. *)
Definition NewAI (color : Color) (depth : Z) : AI :=
  mkAI color depth ∅ killerMoves_zero ∅.

Definition set_table (ai : AI) (t : gmap Z TranspositionEntry) : AI :=
  mkAI (ai_color ai) (ai_depth ai) t (killerMoves ai) (historyTable ai).

Definition set_killers (ai : AI) (k : list (Move * Move)) : AI :=
  mkAI (ai_color ai) (ai_depth ai) (transpositionTable ai) k (historyTable ai).

Definition set_history (ai : AI) (t : gmap Move Z) : AI :=
  mkAI (ai_color ai) (ai_depth ai) (transpositionTable ai) (killerMoves ai) t.

(** ** float64 *)

(** [float64(n)] for an [int] [n]: round to nearest, ties to even. *)
Definition float64_of_int (n : Z) : float :=
  if n =? - 2^63 then (- 0x1p+63)%float
  else if 0 <=? n then PrimFloat.of_uint63 (Uint63.of_Z n)
  else (- PrimFloat.of_uint63 (Uint63.of_Z (- n)))%float.

Definition is_pos_inf (x : float) : bool := PrimFloat.eqb x infinity.
Definition is_neg_inf (x : float) : bool := PrimFloat.eqb x neg_infinity.

(** [math.Max] and [math.Min], with their special cases. *)
Definition math_Max (x y : float) : float :=
  if is_pos_inf x || is_pos_inf y then infinity
  else if PrimFloat.is_nan x || PrimFloat.is_nan y then nan
  else if PrimFloat.is_zero x && PrimFloat.eqb x y then
    if PrimFloat.get_sign x then y else x
  else if PrimFloat.ltb y x then x else y.

Definition math_Min (x y : float) : float :=
  if is_neg_inf x || is_neg_inf y then neg_infinity
  else if PrimFloat.is_nan x || PrimFloat.is_nan y then nan
  else if PrimFloat.is_zero x && PrimFloat.eqb x y then
    if PrimFloat.get_sign x then x else y
  else if PrimFloat.ltb x y then x else y.

(** ** The search engine: helpers *)

(** [AI.isCapture]. *)
Definition isCapture (h : heap) (move : Move) (game : ptr) : bool :=
  negb (bool_decide (GetPiece h (Board (game_at h game)) (To move) = None)).

(** [AI.isCenterMove]. *)
Definition isCenterMove (pos : Position) : bool :=
  ((2 <=? Row pos) && (Row pos <=? 5)) && ((2 <=? Col pos) && (Col pos <=? 5)).

(** [AI.getPieceValue]. *)
Definition getPieceValue (pieceType : PieceType) : Z :=
  match pieceType with
  | Pawn => 1 | Knight => 3 | Bishop => 3 | Rook => 5 | Queen => 9 | King => 0
  end.

(** [AI.getOpponentColor]. *)
Definition getOpponentColor (ai : AI) : Color :=
  if decide (ai_color ai = White) then Black else White.

(** [AI.getAllPossibleMovesForColor]. *)
Definition getAllPossibleMovesForColor (h : heap) (game : ptr) (color : Color) : list Move :=
  let board := Board (game_at h game) in
  from ← all_positions;
  match GetPiece h board from with
  | Some piece =>
      if bool_decide (Color_ (piece_at h piece) = color)
      then GetValidMoves h board from else []
  | None => []
  end.

(** [AI.getAllPossibleMoves]. *)
Definition getAllPossibleMoves (h : heap) (game : ptr) : list Move :=
  getAllPossibleMovesForColor h game (CurrentPlayer (game_at h game)).

(** [AI.findKing]; [None] for the nil result. *)
Definition findKing (h : heap) (game : ptr) (color : Color) : option Position :=
  List.find
    (fun pos =>
       match GetPiece h (Board (game_at h game)) pos with
       | Some piece =>
           bool_decide (Type_ (piece_at h piece) = King)
           && bool_decide (Color_ (piece_at h piece) = color)
       | None => false
       end)
    all_positions.

(** [AI.hashPosition]. *)
Definition hashPosition (h : heap) (game : ptr) : Z :=
  let x := game_at h game in
  let hash :=
    foldl
      (fun hash pos =>
         match GetPiece h (Board x) pos with
         | Some piece =>
             let pieceValue :=
               u64 (PieceType_int (Type_ (piece_at h piece))
                    + u64 (Color_int (Color_ (piece_at h piece)) * 10)) in
             Z.lxor hash (u64 (pieceValue * (Row pos * 8 + Col pos + 1)))
         | None => hash
         end)
      0 all_positions in
  Z.lxor hash (u64 (Color_int (CurrentPlayer x) * 1000000)).

(** One iteration of the board copy in [AI.copyGame]. *)
Definition copy_square (game newBoard : ptr) (h : heap) (pos : Position) : heap :=
  match GetPiece h (Board (game_at h game)) pos with
  | Some piece =>
      let x := piece_at h piece in
      let '(h, newPiece) := alloc_piece h (mkPiece (Type_ x) (Color_ x) false) in
      SetPiece h newBoard pos (Some newPiece)
  | None => h
  end.

(** [AI.copyGame]: a new game on a board made by [NewBoard], onto which
    the occupied squares of the source are copied. *)
Definition copyGame (h : heap) (game : ptr) : heap * ptr :=
  let x := game_at h game in
  let '(h, board) := NewBoard h in
  let '(h, newGame) :=
    alloc_game h
      (mkGame board (CurrentPlayer x) (State x)
              (replicate (length (MoveHistory x)) Move_zero)) in
  (* Copy the board *)
  let h := foldl (copy_square game board) h all_positions in
  (* Copy move history *)
  let y := game_at h newGame in
  let h := store_game h newGame
             (mkGame (Board y) (CurrentPlayer y) (State y)
                     (take (length (MoveHistory y)) (MoveHistory (game_at h game)))) in
  (h, newGame).

(** ** The search engine: static evaluation *)

Set Warnings "-inexact-float".

Definition pieceValues (t : PieceType) : float :=
  match t with
  | Pawn => 1.0 | Knight => 3.2 | Bishop => 3.3 | Rook => 5.0 | Queen => 9.0 | King => 0.0
  end%float.

Definition pawnTable : list (list float) :=
  [ [0.0; 0.0; 0.0; 0.0; 0.0; 0.0; 0.0; 0.0];
    [0.8; 0.8; 0.8; 0.8; 0.8; 0.8; 0.8; 0.8];
    [0.3; 0.3; 0.4; 0.5; 0.5; 0.4; 0.3; 0.3];
    [0.1; 0.1; 0.2; 0.4; 0.4; 0.2; 0.1; 0.1];
    [0.05; 0.05; 0.1; 0.3; 0.3; 0.1; 0.05; 0.05];
    [0.05; -0.05; -0.1; 0.0; 0.0; -0.1; -0.05; 0.05];
    [0.05; 0.1; 0.1; -0.2; -0.2; 0.1; 0.1; 0.05];
    [0.0; 0.0; 0.0; 0.0; 0.0; 0.0; 0.0; 0.0] ]%float.

Definition knightTable : list (list float) :=
  [ [-0.5; -0.4; -0.3; -0.3; -0.3; -0.3; -0.4; -0.5];
    [-0.4; -0.2; 0.0; 0.0; 0.0; 0.0; -0.2; -0.4];
    [-0.3; 0.0; 0.1; 0.15; 0.15; 0.1; 0.0; -0.3];
    [-0.3; 0.05; 0.15; 0.2; 0.2; 0.15; 0.05; -0.3];
    [-0.3; 0.0; 0.15; 0.2; 0.2; 0.15; 0.0; -0.3];
    [-0.3; 0.05; 0.1; 0.15; 0.15; 0.1; 0.05; -0.3];
    [-0.4; -0.2; 0.0; 0.05; 0.05; 0.0; -0.2; -0.4];
    [-0.5; -0.4; -0.3; -0.3; -0.3; -0.3; -0.4; -0.5] ]%float.

Definition bishopTable : list (list float) :=
  [ [-0.2; -0.1; -0.1; -0.1; -0.1; -0.1; -0.1; -0.2];
    [-0.1; 0.0; 0.0; 0.0; 0.0; 0.0; 0.0; -0.1];
    [-0.1; 0.0; 0.05; 0.1; 0.1; 0.05; 0.0; -0.1];
    [-0.1; 0.05; 0.05; 0.1; 0.1; 0.05; 0.05; -0.1];
    [-0.1; 0.0; 0.1; 0.1; 0.1; 0.1; 0.0; -0.1];
    [-0.1; 0.1; 0.1; 0.1; 0.1; 0.1; 0.1; -0.1];
    [-0.1; 0.05; 0.0; 0.0; 0.0; 0.0; 0.05; -0.1];
    [-0.2; -0.1; -0.1; -0.1; -0.1; -0.1; -0.1; -0.2] ]%float.

Definition rookTable : list (list float) :=
  [ [0.0; 0.0; 0.0; 0.0; 0.0; 0.0; 0.0; 0.0];
    [0.05; 0.1; 0.1; 0.1; 0.1; 0.1; 0.1; 0.05];
    [-0.05; 0.0; 0.0; 0.0; 0.0; 0.0; 0.0; -0.05];
    [-0.05; 0.0; 0.0; 0.0; 0.0; 0.0; 0.0; -0.05];
    [-0.05; 0.0; 0.0; 0.0; 0.0; 0.0; 0.0; -0.05];
    [-0.05; 0.0; 0.0; 0.0; 0.0; 0.0; 0.0; -0.05];
    [-0.05; 0.0; 0.0; 0.0; 0.0; 0.0; 0.0; -0.05];
    [0.0; 0.0; 0.0; 0.05; 0.05; 0.0; 0.0; 0.0] ]%float.

(** [table[row][col]]; the evaluator indexes within 0..7 only. *)
Definition table_at (t : list (list float)) (row col : Z) : float :=
  default 0%float (t !! Z.to_nat row ≫= (fun r => r !! Z.to_nat col)).

Definition centerSquares : list Position :=
  [NewPosition 3 3; NewPosition 3 4; NewPosition 4 3; NewPosition 4 4].

Definition extendedCenter : list Position :=
  [NewPosition 2 2; NewPosition 2 3; NewPosition 2 4; NewPosition 2 5;
   NewPosition 3 2; NewPosition 3 5;
   NewPosition 4 2; NewPosition 4 5;
   NewPosition 5 2; NewPosition 5 3; NewPosition 5 4; NewPosition 5 5].

(** The material and positional term of one square. *)
Definition square_value (ai : AI) (h : heap) (board : ptr) (score : float)
    (pos : Position) : float :=
  match GetPiece h board pos with
  | None => score
  | Some piece =>
      let x := piece_at h piece in
      let row := Row pos in
      let col := Col pos in
      let value := pieceValues (Type_ x) in
      (* Add positional bonuses *)
      let value :=
        match Type_ x with
        | Pawn =>
            if decide (Color_ x = White) then (value + table_at pawnTable (7 - row) col)%float
            else (value + table_at pawnTable row col)%float
        | Knight => (value + table_at knightTable row col)%float
        | Bishop => (value + table_at bishopTable row col)%float
        | Rook => (value + table_at rookTable row col)%float
        | _ => value
        end in
      (* Piece development bonus *)
      let value :=
        if (bool_decide (Type_ x = Knight) || bool_decide (Type_ x = Bishop))
           && ((bool_decide (Color_ x = White) && negb (row =? 0))
               || (bool_decide (Color_ x = Black) && negb (row =? 7)))
        then (value + 0.15)%float else value in
      (* Apply score based on color *)
      if decide (Color_ x = ai_color ai) then (score + value)%float
      else (score - value)%float
  end.

(** The bonus of one centre square. *)
Definition center_bonus (ai : AI) (h : heap) (board : ptr) (w : float)
    (score : float) (pos : Position) : float :=
  match GetPiece h board pos with
  | Some piece =>
      if decide (Color_ (piece_at h piece) = ai_color ai) then (score + w)%float
      else (score - w)%float
  | None => score
  end.

(** [AI.evaluatePosition]. *)
Definition evaluatePosition (ai : AI) (h : heap) (game : ptr) : float :=
  let x := game_at h game in
  if decide (State x = Checkmate) then
    if decide (CurrentPlayer x = ai_color ai) then (-1000.0)%float else 1000.0%float
  else if decide (State x = Stalemate) then 0.0%float
  else
    let score := 0.0%float in
    (* Material and positional evaluation *)
    let score := foldl (square_value ai h (Board x)) score all_positions in
    (* Enhanced center control *)
    let score := foldl (center_bonus ai h (Board x) 0.3) score centerSquares in
    let score := foldl (center_bonus ai h (Board x) 0.1) score extendedCenter in
    (* King safety evaluation *)
    let score :=
      match findKing h game (ai_color ai) with
      | Some aiKingPos =>
          let score :=
            if (2 <=? Row aiKingPos) && (Row aiKingPos <=? 5)
               && (2 <=? Col aiKingPos) && (Col aiKingPos <=? 5)
            then (score - 0.8)%float else score in
          if bool_decide (ai_color ai = White) && (Row aiKingPos <=? 1)
          then (score + 0.2)%float
          else if bool_decide (ai_color ai = Black) && (Row aiKingPos >=? 6)
          then (score + 0.2)%float
          else score
      | None => score
      end in
    (* Mobility bonus *)
    let aiMoves := Z.of_nat (length (getAllPossibleMovesForColor h game (ai_color ai))) in
    let opponentMoves :=
      Z.of_nat (length (getAllPossibleMovesForColor h game (getOpponentColor ai))) in
    (score + float64_of_int (aiMoves - opponentMoves) * 0.05)%float.

(** ** The search engine: move ordering *)

(** The development term of the ordering score, as the source tests it. *)
Definition development_bonus (h : heap) (game : ptr) (move : Move) : Z :=
  match GetPiece h (Board (game_at h game)) (From move) with
  | Some piece =>
      let x := piece_at h piece in
      if bool_decide (Type_ x = Knight) || bool_decide (Type_ x = Bishop) then
        if (bool_decide (Color_ x = White) && (Row (From move) =? 0))
           || (bool_decide (Color_ x = Black) && (Row (From move) =? 7))
        then 30 else 0
      else 0
  | None => 0
  end.

(** The score [AI.orderMoves] gives one move; [0 <= ply] (see
    [orderMoves]). *)
Definition order_score (ai : AI) (h : heap) (game : ptr) (ply : Z) (move : Move) : Z :=
  let board := Board (game_at h game) in
  let score := 0 in
  (* Prioritize captures (MVV-LVA) *)
  let score :=
    if isCapture h move game then
      match GetPiece h board (From move), GetPiece h board (To move) with
      | Some attacker, Some victim =>
          score + (getPieceValue (Type_ (piece_at h victim)) * 10
                   - getPieceValue (Type_ (piece_at h attacker)))
      | _, _ => score
      end
    else score in
  (* Prioritize killer moves *)
  let score :=
    if ply <? 10 then
      let k := default (Move_zero, Move_zero) (killerMoves ai !! Z.to_nat ply) in
      if decide (move = k.1) then score + 900
      else if decide (move = k.2) then score + 800
      else score
    else score in
  (* History heuristic *)
  let score :=
    match historyTable ai !! move with
    | Some historyScore => score + Z.quot historyScore 100
    | None => score
    end in
  (* Prioritize center moves *)
  let score := if isCenterMove (To move) then score + 50 else score in
  (* Prioritize piece development *)
  score + development_bonus h game move.

(** ** The search engine: search *)

(** The lookup at the head of [AI.minimax]: the score to return at once,
    or the window to go on with. *)
Definition probe_table (ai : AI) (hash depth : Z) (alpha beta : float) : float + float * float :=
  match transpositionTable ai !! hash with
  | Some entry =>
      if e_depth entry >=? depth then
        if e_flag entry =? 0 then inl (e_score entry)
        else
          let alpha := if e_flag entry =? 1 then math_Max alpha (e_score entry) else alpha in
          let beta := if e_flag entry =? 2 then math_Min beta (e_score entry) else beta in
          if PrimFloat.leb beta alpha then inl (e_score entry) else inr (alpha, beta)
      else inr (alpha, beta)
  | None => inr (alpha, beta)
  end.

(** The cutoff bookkeeping of [AI.minimax]: killer slots and history.
    [0 <= ply] here, [orderMoves] having indexed the same table. *)
Definition record_cutoff (ai : AI) (h : heap) (game : ptr) (depth ply : Z) (move : Move) : AI :=
  let ai :=
    if (ply <? 10) && negb (isCapture h move game) then
      let k := default (Move_zero, Move_zero) (killerMoves ai !! Z.to_nat ply) in
      set_killers ai (<[Z.to_nat ply := (move, k.1)]> (killerMoves ai))
    else ai in
  set_history ai
    (<[move := add64 (default 0 (historyTable ai !! move)) (mul64 depth depth)]>
       (historyTable ai)).

Section Search.

(** [sort.Slice] of the Go library, which is not part of the repository:
    the order it leaves equal elements in is its own. *)
Variable sort_Slice : forall A : Type, (A -> A -> bool) -> list A -> list A.

(** A call that returns gives its value with the engine and the heap
    after it; [None] is a call that does not return (a run-time panic, or
    a search the fuel does not cover). *)
Definition outcome (A : Type) : Type := option (A * AI * heap).

(** [AI.orderMoves].  A negative [ply] indexes [killerMoves] out of range
    on the first move scored. *)
Definition orderMoves (ai : AI) (h : heap) (moves : list Move) (game : ptr) (ply : Z)
    : option (list Move) :=
  match moves with
  | _ :: _ => if ply <? 0 then None else
      let scoredMoves := (fun move => (move, order_score ai h game ply move)) <$> moves in
      Some ((sort_Slice _ (fun a b => a.2 >? b.2) scoredMoves).*1)
  | [] => Some []
  end.

(** The loop over the ordered moves in [AI.minimax]; [search] is the
    recursive call.  The result carries the window and the best score. *)
Fixpoint minimax_moves
    (search : AI -> heap -> ptr -> Z -> bool -> float -> float -> Z -> outcome float)
    (game : ptr) (depth : Z) (isMaximizing : bool) (ply : Z) (moves : list Move)
    (ai : AI) (h : heap) (alpha beta bestScore : float)
    : outcome (float * float * float) :=
  match moves with
  | [] => Some ((alpha, beta, bestScore), ai, h)
  | move :: rest =>
      let '(h, gameCopy) := copyGame h game in
      let '(h, err) :=
        MakeMove h gameCopy (Position_String (From move)) (Position_String (To move)) in
      match err with
      | Some _ =>
          minimax_moves search game depth isMaximizing ply rest ai h alpha beta bestScore
      | None =>
          let r :=
            if isMaximizing
            then search ai h gameCopy (depth - 1) false alpha beta (ply + 1)
            else search ai h gameCopy (depth - 1) true alpha beta (ply + 1) in
          match r with
          | None => None
          | Some (score, ai, h) =>
              let bestScore :=
                if isMaximizing
                then (if PrimFloat.ltb bestScore score then score else bestScore)
                else (if PrimFloat.ltb score bestScore then score else bestScore) in
              let alpha := if isMaximizing then math_Max alpha score else alpha in
              let beta := if isMaximizing then beta else math_Min beta score in
              if PrimFloat.leb beta alpha then
                (* Alpha-beta cutoff *)
                Some ((alpha, beta, bestScore), record_cutoff ai h game depth ply move, h)
              else
                minimax_moves search game depth isMaximizing ply rest ai h alpha beta bestScore
          end
      end
  end.

(** [AI.minimax], by recursion on the fuel. *)
Fixpoint minimax (fuel : nat) (ai : AI) (h : heap) (game : ptr) (depth : Z)
    (isMaximizing : bool) (alpha beta : float) (ply : Z) {struct fuel} : outcome float :=
  match fuel with
  | O => None
  | S fuel' =>
      (* Check transposition table *)
      let hash := hashPosition h game in
      match probe_table ai hash depth alpha beta with
      | inl score => Some (score, ai, h)
      | inr (alpha, beta) =>
          if (depth =? 0) || negb (bool_decide (State (game_at h game) = Playing)) then
            let score := evaluatePosition ai h game in
            Some (score,
                  set_table ai (<[hash := mkEntry depth score 0]> (transpositionTable ai)),
                  h)
          else
            let moves := getAllPossibleMoves h game in
            match moves with
            | [] =>
                if isInCheck h game (CurrentPlayer (game_at h game)) then
                  (* Checkmate - prefer shorter mates *)
                  if isMaximizing then Some ((-1000.0 + float64_of_int ply)%float, ai, h)
                  else Some ((1000.0 - float64_of_int ply)%float, ai, h)
                else Some (0.0%float, ai, h) (* Stalemate *)
            | _ :: _ =>
                match orderMoves ai h moves game ply with
                | None => None
                | Some orderedMoves =>
                    let originalAlpha := alpha in
                    let bestScore := if isMaximizing then neg_infinity else infinity in
                    match minimax_moves (minimax fuel') game depth isMaximizing ply
                            orderedMoves ai h alpha beta bestScore with
                    | None => None
                    | Some ((alpha, beta, bestScore), ai, h) =>
                        let flag :=
                          if PrimFloat.leb bestScore originalAlpha then 2
                          else if PrimFloat.leb beta bestScore then 1
                          else 0 in
                        Some (bestScore,
                              set_table ai
                                (<[hash := mkEntry depth bestScore flag]>
                                   (transpositionTable ai)),
                              h)
                    end
                end
            end
      end
  end.

(** The loop over the ordered moves at the root, for one depth.  The call
    [minimax(gameCopy, currentDepth-1, ...)] descends [currentDepth - 1]
    levels, which [currentDepth] units of fuel cover. *)
Fixpoint GetBestMove_moves (currentDepth : Z) (game : ptr) (moves : list Move)
    (ai : AI) (h : heap) (tempBestMove : Move) (tempBestScore : float)
    : outcome (Move * float) :=
  match moves with
  | [] => Some ((tempBestMove, tempBestScore), ai, h)
  | move :: rest =>
      let '(h, gameCopy) := copyGame h game in
      let '(h, err) :=
        MakeMove h gameCopy (Position_String (From move)) (Position_String (To move)) in
      match err with
      | Some _ => GetBestMove_moves currentDepth game rest ai h tempBestMove tempBestScore
      | None =>
          match minimax (Z.to_nat currentDepth) ai h gameCopy (currentDepth - 1) false
                  neg_infinity infinity 1 with
          | None => None
          | Some (score, ai, h) =>
              if PrimFloat.ltb tempBestScore score
              then GetBestMove_moves currentDepth game rest ai h move score
              else GetBestMove_moves currentDepth game rest ai h tempBestMove tempBestScore
          end
      end
  end.

(** The iterative-deepening loop of [AI.GetBestMove]. *)
Fixpoint GetBestMove_depths (allMoves : list Move) (game : ptr) (depths : list Z)
    (ai : AI) (h : heap) (bestMove : Move) (bestScore : float) : outcome (Move * float) :=
  match depths with
  | [] => Some ((bestMove, bestScore), ai, h)
  | currentDepth :: rest =>
      (* Order moves for better alpha-beta pruning *)
      match orderMoves ai h allMoves game 0 with
      | None => None
      | Some orderedMoves =>
          match GetBestMove_moves currentDepth game orderedMoves ai h Move_zero neg_infinity with
          | None => None
          | Some ((tempBestMove, tempBestScore), ai, h) =>
              (* Update best move if we found a better one *)
              if PrimFloat.ltb bestScore tempBestScore
              then GetBestMove_depths allMoves game rest ai h tempBestMove tempBestScore
              else GetBestMove_depths allMoves game rest ai h bestMove bestScore
          end
      end
  end.

(** [AI.GetBestMove]; [currentDepth] runs over [1 .. ai.depth]. *)
Definition GetBestMove (ai : AI) (h : heap) (game : ptr)
    : outcome (Position * Position * bool) :=
  if negb (bool_decide (CurrentPlayer (game_at h game) = ai_color ai)) then
    Some ((Position_zero, Position_zero, false), ai, h)
  else
    let allMoves := getAllPossibleMoves h game in
    match allMoves with
    | [] => Some ((Position_zero, Position_zero, false), ai, h)
    | _ :: _ =>
        (* Clear killer moves for new search *)
        let ai := set_killers ai killerMoves_zero in
        match GetBestMove_depths allMoves game (seqZ 1 (ai_depth ai)) ai h
                Move_zero neg_infinity with
        | None => None
        | Some ((bestMove, _), ai, h) => Some ((From bestMove, To bestMove, true), ai, h)
        end
    end.

End Search.

(** ** Notions of the specification *)

(** *** Well-formed heaps *)

(** A board cell that an execution can hold: allocated, with 64 squares. *)
Definition wf_board (h : heap) (b : ptr) : Prop :=
  (b < length (boards h))%nat /\ length (board_at h b) = 64%nat.

(** A game that an execution can hold: the game, its board of 64 squares
    and the pieces on it are all allocated. *)
Definition wf_game (h : heap) (g : ptr) : Prop :=
  (g < length (games h))%nat
  /\ (Board (game_at h g) < length (boards h))%nat
  /\ length (board_at h (Board (game_at h g))) = 64%nat
  /\ forall pos p, GetPiece h (Board (game_at h g)) pos = Some p -> (p < length (pieces h))%nat.

(** [wf_game], as a test that computes. *)
Definition wf_gameb (h : heap) (g : ptr) : bool :=
  (g <? length (games h))%nat
  && (Board (game_at h g) <? length (boards h))%nat
  && (length (board_at h (Board (game_at h g))) =? 64)%nat
  && forallb (fun cell => match cell with
                          | Some p => (p <? length (pieces h))%nat
                          | None => true
                          end)
       (board_at h (Board (game_at h g))).

(** What a square shows of its piece: kind, colour and the has-moved
    flag; [None] for an empty square. *)
Definition square_contents (h : heap) (b : ptr) (pos : Position) : option Piece :=
  piece_at h <$> GetPiece h b pos.

(** *** Moves *)

(** Two squares on a common row, column or diagonal. *)
Definition aligned (from to : Position) : Prop :=
  Row from = Row to \/ Col from = Col to
  \/ Z.abs (Row to - Row from) = Z.abs (Col to - Col from).

(** The pawn rule in the words of the specification.  A position reads
    as empty when [GetPiece] finds no piece there. *)
Definition pawn_direction (c : Color) : Z :=
  match c with White => -1 | Black => 1 end.

Definition pawn_start_row (c : Color) : Z :=
  match c with White => 6 | Black => 1 end.

Definition empty_square (h : heap) (b : ptr) (pos : Position) : Prop :=
  GetPiece h b pos = None.

Definition holds_opponent_of (h : heap) (b : ptr) (pos : Position) (c : Color) : Prop :=
  exists q, GetPiece h b pos = Some q /\ Color_ (piece_at h q) <> c.

Definition pawn_rule (h : heap) (b : ptr) (move : Move) (c : Color) : Prop :=
  let from := From move in
  let to := To move in
  let d := pawn_direction c in
  (* one square forward onto an empty square *)
  (Col to = Col from /\ Row to = Row from + d /\ empty_square h b to)
  (* two squares forward from the starting rank, both squares empty *)
  \/ (Col to = Col from /\ Row to = Row from + 2 * d /\ Row from = pawn_start_row c
      /\ empty_square h b (NewPosition (Row from + d) (Col from))
      /\ empty_square h b to)
  (* one square diagonally forward onto an opposing piece *)
  \/ ((Col to = Col from + 1 \/ Col to = Col from - 1) /\ Row to = Row from + d
      /\ holds_opponent_of h b to c).

(** *** The position and its classification *)

(** The position a heap shows to the legality engine: the squares of
    every board, the kind and colour of every piece, and the board of
    every game.  The has-moved flags, the side to move, the state label
    and the history are not part of it. *)
Definition piece_shape (x : Piece) : PieceType * Color := (Type_ x, Color_ x).

Definition same_position (h h' : heap) : Prop :=
  boards h = boards h'
  /\ piece_shape <$> pieces h = piece_shape <$> pieces h'
  /\ Board <$> games h = Board <$> games h'.

(** [h'] differs from [h] at most in has-moved flags: same cells of
    every board, same games, same kind and colour of every piece. *)
Definition only_marks (h h' : heap) : Prop :=
  boards h' = boards h /\ games h' = games h
  /\ piece_shape <$> pieces h' = piece_shape <$> pieces h.

(** The other side. *)
Definition other_color (c : Color) : Color :=
  match c with White => Black | Black => White end.

(** Pseudo-legal and legal moves of a side, and the classification of
    the position of the side to move, in the words of the specification. *)
Definition pseudo_legal (h : heap) (g : ptr) (player : Color) (move : Move) : Prop :=
  IsValid (From move) = true /\ IsValid (To move) = true
  /\ IsValidMove h (Board (game_at h g)) move player = true.

Definition legal_move (h : heap) (g : ptr) (player : Color) (move : Move) : Prop :=
  pseudo_legal h g player move
  /\ isInCheck (fst (MovePiece h (Board (game_at h g)) (From move) (To move))) g player
     = false.

Definition has_legal_move (h : heap) (g : ptr) (player : Color) : Prop :=
  exists move, legal_move h g player move.

Definition classified (h : heap) (g : ptr) : Prop :=
  let player := CurrentPlayer (game_at h g) in
  match State (game_at h g) with
  | Check => isInCheck h g player = true /\ has_legal_move h g player
  | Checkmate => isInCheck h g player = true /\ ~ has_legal_move h g player
  | Stalemate => isInCheck h g player = false /\ ~ has_legal_move h g player
  | Playing => isInCheck h g player = false /\ has_legal_move h g player
  | Draw => False
  end.

(** The test a trial move passes in [hasValidMoves]: relocated on the
    board of [g], it does not leave [player] in check. *)
Definition leaves_king_safe (h : heap) (g : ptr) (player : Color) (move : Move) : bool :=
  negb (isInCheck (fst (MovePiece h (Board (game_at h g)) (From move) (To move))) g player).

(** The moves [hasValidMoves] tries are between two distinct squares of
    the board, the first of them occupied. *)
Definition triable (h : heap) (b : ptr) (move : Move) : Prop :=
  IsValid (From move) = true /\ IsValid (To move) = true
  /\ From move <> To move /\ is_Some (GetPiece h b (From move)).

(** The squares of [player]'s pieces from which some pseudo-legal move
    keeps the king safe: what the loops of [hasValidMoves] look for. *)
Definition has_safe_move_from (h : heap) (g : ptr) (player : Color) (pos : Position) : bool :=
  match GetPiece h (Board (game_at h g)) pos with
  | Some piece =>
      bool_decide (Color_ (piece_at h piece) = player)
      && existsb (leaves_king_safe h g player) (GetValidMoves h (Board (game_at h g)) pos)
  | None => false
  end.

(** *** Frames *)

(** [h'] keeps every cell of [h] as it is: whatever was allocated in [h]
    reads the same in [h'], which may hold more cells. *)
Definition heap_extends (h h' : heap) : Prop :=
  pieces h `prefix_of` pieces h'
  /\ boards h `prefix_of` boards h'
  /\ games h `prefix_of` games h'.

(** The board [b] of [h] lies outside [h0]: the board and the pieces on
    it were allocated after [h0]. *)
Definition fresh_board (h0 h : heap) (b : ptr) : Prop :=
  (length (boards h0) <= b)%nat
  /\ forall i p, board_at h b !! i = Some (Some p) -> (length (pieces h0) <= p)%nat.

(** The game [g] of [h] lies outside [h0], with its board and pieces. *)
Definition fresh_game (h0 h : heap) (g : ptr) : Prop :=
  (length (games h0) <= g)%nat /\ fresh_board h0 h (Board (game_at h g)).

(** *** Scores *)

(** The mate score in the words of the specification: magnitude
    [1000 - ply], negative at a maximizing node, positive at a minimizing
    one. *)
Definition mate_score (isMaximizing : bool) (ply : Z) : float :=
  if isMaximizing then (- float64_of_int (1000 - ply))%float
  else float64_of_int (1000 - ply).

(** The two float expressions of the source agree with it. *)
Definition mate_exact (ply : Z) : Prop :=
  (-1000.0 + float64_of_int ply)%float = mate_score true ply
  /\ (1000.0 - float64_of_int ply)%float = mate_score false ply.

(** *** Concrete inputs *)

(** The starting position, on an empty heap. *)
Definition start_heap : heap := fst (NewGame empty_heap).
Definition start_game : ptr := snd (NewGame empty_heap).

(** A sort that [sort.Slice] may be: insertion sort, which keeps equal
    elements in their order. *)
Fixpoint insert_sorted {A : Type} (less : A -> A -> bool) (x : A) (l : list A) : list A :=
  match l with
  | [] => [x]
  | y :: l' => if less x y then x :: l else y :: insert_sorted less x l'
  end.

Definition insertion_sort (A : Type) (less : A -> A -> bool) (l : list A) : list A :=
  foldr (insert_sorted less) [] l.

(** A position set up by hand, as the tests of the repository do with
    [SetPiece] and [NewPiece]: White to move, the king on h1 walled in by
    its own rooks and pawns, none of which can move, and attacked by a
    knight on g3. *)
Definition put_piece (b : ptr) (h : heap) (x : Position * PieceType * Color) : heap :=
  let '(pos, t, color) := x in
  let '(h, p) := NewPiece h t color in
  SetPiece h b pos (Some p).

Definition smothered : heap * ptr :=
  let '(h, b) := alloc_board empty_heap (replicate 64 None) in
  let h :=
    foldl (put_piece b) h
      [ (NewPosition 7 7, King, White); (NewPosition 7 6, Rook, White);
        (NewPosition 7 5, Pawn, White); (NewPosition 6 6, Pawn, White);
        (NewPosition 6 7, Rook, White); (NewPosition 5 7, Pawn, White);
        (NewPosition 5 6, Knight, Black); (NewPosition 6 5, Pawn, Black);
        (NewPosition 4 7, Pawn, Black) ] in
  alloc_game h (mkGame b White Playing []).

(** *** Lines, jumps and paths *)

(** The squares strictly between [from] and [to], for two squares on a
    common row, column or diagonal: [k] steps from [from] towards [to],
    for [k] from 1 up to one less than their distance. *)
Definition distance (from to : Position) : Z :=
  Z.max (Z.abs (Row to - Row from)) (Z.abs (Col to - Col from)).

Definition on_path (from to pos : Position) : Prop :=
  exists k, 0 < k < distance from to
    /\ Row pos = Row from + k * Z.sgn (Row to - Row from)
    /\ Col pos = Col from + k * Z.sgn (Col to - Col from).

Definition path_empty (h : heap) (b : ptr) (from to : Position) : Prop :=
  forall pos, on_path from to pos -> GetPiece h b pos = None.

(** The shapes of the moves of the pieces. *)
Definition rook_line (from to : Position) : Prop :=
  Row from = Row to \/ Col from = Col to.

Definition bishop_line (from to : Position) : Prop :=
  Z.abs (Row to - Row from) = Z.abs (Col to - Col from).

Definition knight_jump (from to : Position) : Prop :=
  (Z.abs (Row to - Row from) = 2 /\ Z.abs (Col to - Col from) = 1)
  \/ (Z.abs (Row to - Row from) = 1 /\ Z.abs (Col to - Col from) = 2).

Definition king_step (from to : Position) : Prop :=
  Z.abs (Row to - Row from) <= 1 /\ Z.abs (Col to - Col from) <= 1.

(** The rule of each kind of piece, for a piece of colour [c]. *)
Definition piece_rule (h : heap) (b : ptr) (t : PieceType) (c : Color) (move : Move) : Prop :=
  let from := From move in
  let to := To move in
  match t with
  | Pawn => pawn_rule h b move c
  | Rook => rook_line from to /\ path_empty h b from to
  | Knight => knight_jump from to
  | Bishop => bishop_line from to /\ path_empty h b from to
  | Queen => (rook_line from to \/ bishop_line from to) /\ path_empty h b from to
  | King => king_step from to
  end.

(** The to-square holds a piece of colour [c]. *)
Definition holds_own (h : heap) (b : ptr) (pos : Position) (c : Color) : Prop :=
  exists q, GetPiece h b pos = Some q /\ Color_ (piece_at h q) = c.

(** *** The starting position *)

(** What [setupInitialPosition] puts on a square: Black's pieces on row
    0 and pawns on row 1, White's pawns on row 6 and pieces on row 7. *)
Definition starting_piece (pos : Position) : option Piece :=
  match Row pos with
  | 0 => (fun t => mkPiece t Black false) <$> back_rank !! Z.to_nat (Col pos)
  | 1 => Some (mkPiece Pawn Black false)
  | 6 => Some (mkPiece Pawn White false)
  | 7 => (fun t => mkPiece t White false) <$> back_rank !! Z.to_nat (Col pos)
  | _ => None
  end.

(** The 32 pieces in the order [setupInitialPosition] allocates them,
    and the squares of the board it fills, the first of the pieces being
    cell [n] of the heap. *)
Definition initial_pieces : list Piece :=
  ((fun t => mkPiece t White false) <$> back_rank)
  ++ replicate 8 (mkPiece Pawn White false)
  ++ ((fun t => mkPiece t Black false) <$> back_rank)
  ++ replicate 8 (mkPiece Pawn Black false).

Definition initial_squares (n : nat) : list (option ptr) :=
  ((fun k => Some (n + k)%nat) <$> seq 16 16)
  ++ replicate 32 None
  ++ ((fun k => Some (n + k)%nat) <$> seq 8 8)
  ++ ((fun k => Some (n + k)%nat) <$> seq 0 8).

(** *** Clones and sorts *)

(** The copy [copyGame] makes of a piece: its kind and colour, the
    has-moved flag left at its zero value. *)
Definition copied_piece (x : Piece) : Piece := mkPiece (Type_ x) (Color_ x) false.

(** Every piece on the board [b] is a cell of the heap. *)
Definition pieces_allocated (h : heap) (b : ptr) : Prop :=
  forall pos p, GetPiece h b pos = Some p -> (p < length (pieces h))%nat.

(** A sort, as far as the search depends on it: the result holds the
    elements of the input, each as often. *)
Definition permutes (sort : forall A : Type, (A -> A -> bool) -> list A -> list A) : Prop :=
  forall (A : Type) (less : A -> A -> bool) (l : list A), sort A less l ≡ₚ l.

(** *** Printed squares *)




(** ** Properties of the coordinate codec *)

Lemma IsValid_spec (p : Position) :
  IsValid p = true <-> in_board_range (Row p) /\ in_board_range (Col p).
Proof. unfold IsValid, in_board_range. lia. Qed.

Lemma byte_at_range (s : string) (i : nat) : 0 <= byte_at s i < 256.
Proof.
  unfold byte_at. destruct (String.get i s) as [c|]; [|lia].
  pose proof (N_ascii_bounded c). lia.
Qed.

(** C5: for every coordinate with row and column in 0..7, parsing the
    algebraic text produced for it succeeds and gives the coordinate back. *)
Theorem FromAlgebraic_String_roundtrip (r c : Z) :
  in_board_range r -> in_board_range c ->
  FromAlgebraic (Position_String (NewPosition r c)) = (NewPosition r c, None).
Proof.
  unfold in_board_range. intros Hr Hc.
  assert (Er : r = 0 \/ r = 1 \/ r = 2 \/ r = 3 \/ r = 4 \/ r = 5 \/ r = 6 \/ r = 7) by lia.
  assert (Ec : c = 0 \/ c = 1 \/ c = 2 \/ c = 3 \/ c = 4 \/ c = 5 \/ c = 6 \/ c = 7) by lia.
  clear Hr Hc.
  repeat (destruct Er as [-> | Er]); try subst r;
    repeat (destruct Ec as [-> | Ec]); try subst c; reflexivity.
Qed.


Lemma sub8_cases (x k : Z) :
  0 <= x < 256 -> 0 <= k < 256 ->
  (k <= x /\ sub8 x k = x - k) \/ (x < k /\ sub8 x k = x - k + 256).
Proof.
  unfold sub8. intros Hx Hk.
  destruct (Z_le_gt_dec k x) as [Hle|Hgt]; [left | right]; split; try lia.
  - apply Z.mod_small. lia.
  - rewrite <- (Z.mod_small (x - k + 256) 256) by lia.
    rewrite <- (Z_mod_plus_full (x - k) 1 256). f_equal; lia.
Qed.

(** C6: [FromAlgebraic] fails exactly when the text is not two characters
    long or its decoded column or row is outside 0..7; on every other
    text it succeeds, with the decoded coordinate. *)
Theorem FromAlgebraic_error_iff (s : string) :
  (is_Some (snd (FromAlgebraic s)) <->
     String.length s <> 2%nat
     \/ ~ in_board_range (decoded_col s)
     \/ ~ in_board_range (decoded_row s))
  /\ (snd (FromAlgebraic s) = None <->
        FromAlgebraic s = (NewPosition (decoded_row s) (decoded_col s), None)).
Proof.
  unfold FromAlgebraic, decoded_col, decoded_row, in_board_range.
  pose proof (byte_at_range s 0) as H0. pose proof (byte_at_range s 1) as H1.
  pose proof (sub8_cases (byte_at s 0) 97 H0 ltac:(lia)) as Hc.
  pose proof (sub8_cases (byte_at s 1) 48 H1 ltac:(lia)) as Hr.
  destruct (Nat.eqb_spec (String.length s) 2) as [Hlen|Hlen]; simpl.
  - destruct (IsValid _) eqn:Hv; simpl.
    + apply IsValid_spec in Hv. unfold in_board_range in Hv. simpl in Hv.
      replace (sub8 (byte_at s 0) 97) with (byte_at s 0 - 97) by lia.
      replace (sub8 (byte_at s 1) 48) with (byte_at s 1 - 48) by lia.
      split; [split | split; done].
      * intros [x Hx]. discriminate.
      * intros [Hn | [Hn | Hn]]; [done | |]; exfalso; apply Hn; lia.
    + assert (Hnv : ~ (in_board_range (8 - sub8 (byte_at s 1) 48)
                       /\ in_board_range (sub8 (byte_at s 0) 97))).
      { intros Hv'. apply (IsValid_spec (NewPosition _ _)) in Hv'. congruence. }
      unfold in_board_range in Hnv.
      split; [split | split; [discriminate | intros [=]]].
      * intros _. right.
        destruct (decide (0 <= byte_at s 0 - 97 <= 7)) as [Hin|Hout]; [right | left; done].
        intros Hrow. apply Hnv. lia.
      * intros _. eexists; reflexivity.
  - split; [split | split; [discriminate | intros [=]]].
    + intros _. left. done.
    + intros _. eexists; reflexivity.
Qed.

(** ** Properties of machine subtraction on board coordinates *)

Lemma wrap64_small (z : Z) : in_int64 z -> wrap64 z = z.
Proof.
  unfold in_int64, wrap64. intros Hz.
  rewrite Z.mod_small; lia.
Qed.

(** Subtracting an on-board coordinate from any [int]: the wrapped
    difference is the true one, or both are far from any pawn step. *)
Lemma sub64_board (a b : Z) :
  in_int64 a -> in_board_range b ->
  sub64 a b = a - b \/ (a - b < -8 /\ 8 < sub64 a b).
Proof.
  unfold in_int64, in_board_range, sub64, wrap64. intros Ha Hb.
  destruct (Z_le_gt_dec (- 2^63) (a - b)) as [Hge|Hlt].
  - left. rewrite Z.mod_small by lia. lia.
  - right. replace ((a - b + 2^63) mod 2^64) with (a - b + 2^63 + 2^64).
    + lia.
    + rewrite <- (Z.mod_small (a - b + 2^63 + 2^64) (2^64)) by lia.
      rewrite <- (Z_mod_plus_full (a - b + 2^63) 1 (2^64)). f_equal; lia.
Qed.

(** ** Properties of move legality *)

Lemma IsValidMove_same_square (h : heap) (b : ptr) (p : Position) (player : Color) :
  IsValidMove h b (NewMove p p) player = false.
Proof.
  unfold IsValidMove. simpl.
  destruct (GetPiece h b p) as [piece|]; [|reflexivity].
  destruct (bool_decide (Color_ (piece_at h piece) = player)); [|reflexivity].
  simpl. rewrite bool_decide_eq_true_2 by reflexivity. reflexivity.
Qed.

(** C10: the null move from a square to itself is never valid, whatever
    the board, the player and the square. *)
Theorem IsValidMove_null_move (h : heap) (b : ptr) (p : Position) (player : Color) :
  IsValidMove h b (NewMove p p) player = false.
Proof. apply IsValidMove_same_square. Qed.

(** The pawn rule of the source against the rule of the specification. *)
Lemma isValidPawnMove_rule (h : heap) (b : ptr) (move : Move) (piece : ptr) :
  IsValid (From move) = true ->
  in_int64 (Row (To move)) -> in_int64 (Col (To move)) ->
  (isValidPawnMove h b move piece = true
   <-> pawn_rule h b move (Color_ (piece_at h piece))).
Proof.
  intros Hfrom Hr Hc. apply IsValid_spec in Hfrom as [Hfr Hfc].
  pose proof (sub64_board _ _ Hr Hfr) as Hrd.
  pose proof (sub64_board _ _ Hc Hfc) as Hcd.
  unfold isValidPawnMove, pawn_rule, empty_square, holds_opponent_of, abs_int.
  generalize dependent (Color_ (piece_at h piece)). intros c.
  replace (if decide (c = Black) then 1 else -1) with (pawn_direction c)
    by (destruct c; reflexivity).
  replace (if decide (c = Black) then 1 else 6) with (pawn_start_row c)
    by (destruct c; reflexivity).
  assert (Hd : pawn_direction c = 1 \/ pawn_direction c = -1) by (destruct c; simpl; lia).
  generalize dependent (pawn_direction c). intros d Hd.
  generalize dependent (pawn_start_row c). intros s0.
  generalize dependent (sub64 (Row (To move)) (Row (From move))). intros rd Hrd.
  generalize dependent (sub64 (Col (To move)) (Col (From move))). intros cd Hcd.
  clear Hr Hc. unfold in_board_range in *.
  destruct (GetPiece h b (To move)) as [q|] eqn:Hq.
  all: destruct (Z.eqb_spec cd 0) as [-> | Hc0];
    [ destruct (Z.eqb_spec rd d) as [-> | Hr1];
      [| destruct (Z.eqb_spec rd (2 * d)) as [-> | Hr2];
         [destruct (Z.eqb_spec (Row (From move)) s0) |] ]
    | destruct (Z.eqb_spec (Z.abs cd) 1); [destruct (Z.eqb_spec rd d) as [-> | Hr1] |] ];
    simpl; rewrite ?andb_true_iff, ?negb_true_iff, ?bool_decide_eq_true, ?bool_decide_eq_false.
  all: (split;
    [ intros He
    | intros [(? & ? & ?) | [(? & ? & ? & ? & ?) | (? & ? & (q' & ? & ?))]] ];
    try discriminate; try lia; try congruence).
  all: try (left; split; [lia | split; [lia | done]]).
  all: try (right; left; destruct He; repeat (split; [first [lia | done] |]); done).
  all: try (right; right; split; [lia | split; [lia | eexists; split; [reflexivity | done]]]).
Qed.

(** C7: a pawn move is valid exactly when it is one square forward onto
    an empty square, two squares forward from the starting rank over two
    empty squares, or one square diagonally forward onto an opposing
    piece.  The pawn stands on the board; the target is any [int] pair,
    a position off the board reading as empty, as [GetPiece] has it. *)
Theorem isValidPawnMove_iff (h : heap) (b : ptr) (move : Move) (piece : ptr) :
  IsValid (From move) = true ->
  in_int64 (Row (To move)) -> in_int64 (Col (To move)) ->
  (isValidPawnMove h b move piece = true
   <-> pawn_rule h b move (Color_ (piece_at h piece))).
Proof. apply isValidPawnMove_rule. Qed.

(** ** Squares and cells *)

Lemma square_index_lt (pos : Position) :
  IsValid pos = true -> (square_index pos < 64)%nat.
Proof. intros H. apply IsValid_spec in H. unfold in_board_range, square_index in *. lia. Qed.

Lemma square_index_inj (p q : Position) :
  IsValid p = true -> IsValid q = true -> square_index p = square_index q -> p = q.
Proof.
  intros Hp Hq. apply IsValid_spec in Hp, Hq. unfold in_board_range, square_index in *.
  destruct p as [pr pc], q as [qr qc]; simpl in *. intros E.
  assert (pr = qr /\ pc = qc) as [-> ->] by lia. reflexivity.
Qed.

Lemma elem_of_all_positions (p : Position) :
  p ∈ all_positions <-> IsValid p = true.
Proof.
  unfold all_positions. rewrite IsValid_spec. unfold in_board_range.
  rewrite list_elem_of_bind. split.
  - intros (r & Hp & Hr). apply list_elem_of_bind in Hp as (c & Hp & Hc).
    apply list_elem_of_singleton in Hp as ->. simpl.
    apply elem_of_seqZ in Hr, Hc. lia.
  - intros [Hr Hc]. exists (Row p). split; [|apply elem_of_seqZ; lia].
    apply list_elem_of_bind. exists (Col p). split; [|apply elem_of_seqZ; lia].
    destruct p; simpl. apply list_elem_of_singleton. reflexivity.
Qed.

Lemma board_at_store_board (h : heap) (b : ptr) (i : nat) (v : option ptr) :
  board_at (store_board h b (<[i := v]> (board_at h b))) b = <[i := v]> (board_at h b).
Proof.
  unfold board_at, store_board. simpl.
  destruct (decide (b < length (boards h))%nat) as [Hlt|Hge].
  - rewrite list_lookup_insert_eq by exact Hlt. reflexivity.
  - rewrite list_insert_ge by lia.
    rewrite (lookup_ge_None_2 (boards h) b) by lia. reflexivity.
Qed.

Lemma board_at_store_board_ne (h : heap) (b b' : ptr) (sq : list (option ptr)) :
  b <> b' -> board_at (store_board h b sq) b' = board_at h b'.
Proof.
  intros Hne. unfold board_at, store_board. simpl.
  rewrite list_lookup_insert_ne by exact Hne. reflexivity.
Qed.

Lemma board_at_SetPiece (h : heap) (b : ptr) (pos : Position) (v : option ptr) :
  board_at (SetPiece h b pos v) b
  = if IsValid pos then <[square_index pos := v]> (board_at h b) else board_at h b.
Proof.
  unfold SetPiece. destruct (IsValid pos); [apply board_at_store_board | reflexivity].
Qed.

Lemma board_at_SetPiece_ne (h : heap) (b b' : ptr) (pos : Position) (v : option ptr) :
  b <> b' -> board_at (SetPiece h b pos v) b' = board_at h b'.
Proof.
  intros Hne. unfold SetPiece. destruct (IsValid pos); [|reflexivity].
  apply board_at_store_board_ne, Hne.
Qed.

Lemma pieces_SetPiece (h : heap) (b : ptr) (pos : Position) (v : option ptr) :
  pieces (SetPiece h b pos v) = pieces h.
Proof. unfold SetPiece. destruct (IsValid pos); reflexivity. Qed.

Lemma games_SetPiece (h : heap) (b : ptr) (pos : Position) (v : option ptr) :
  games (SetPiece h b pos v) = games h.
Proof. unfold SetPiece. destruct (IsValid pos); reflexivity. Qed.

Lemma length_boards_SetPiece (h : heap) (b : ptr) (pos : Position) (v : option ptr) :
  length (boards (SetPiece h b pos v)) = length (boards h).
Proof.
  unfold SetPiece. destruct (IsValid pos); [|reflexivity].
  simpl. apply length_insert.
Qed.

Lemma piece_at_SetPiece (h : heap) (b : ptr) (pos : Position) (v : option ptr) (p : ptr) :
  piece_at (SetPiece h b pos v) p = piece_at h p.
Proof. unfold piece_at. rewrite pieces_SetPiece. reflexivity. Qed.

Lemma game_at_SetPiece (h : heap) (b : ptr) (pos : Position) (v : option ptr) (g : ptr) :
  game_at (SetPiece h b pos v) g = game_at h g.
Proof. unfold game_at. rewrite games_SetPiece. reflexivity. Qed.

Lemma GetPiece_lookup (h : heap) (b : ptr) (pos : Position) (p : ptr) :
  GetPiece h b pos = Some p ->
  IsValid pos = true /\ board_at h b !! square_index pos = Some (Some p).
Proof.
  unfold GetPiece. destruct (IsValid pos); simpl; [|discriminate].
  destruct (board_at h b !! square_index pos) as [[q|]|]; simpl; try discriminate.
  intros [= ->]. split; reflexivity.
Qed.

(** What a successful [MovePiece] does, cell by cell. *)
Lemma MovePiece_success (h : heap) (b : ptr) (from to : Position) (p : ptr) :
  IsValid from = true -> IsValid to = true -> GetPiece h b from = Some p ->
  let h' := fst (MovePiece h b from to) in
  board_at h' b
    = <[square_index from := None]> (<[square_index to := Some p]> (board_at h b))
  /\ (forall b', b <> b' -> board_at h' b' = board_at h b')
  /\ pieces h' = <[p := mark_moved (piece_at h p)]> (pieces h)
  /\ games h' = games h
  /\ length (boards h') = length (boards h).
Proof.
  intros Hf Ht Hp. unfold MovePiece. rewrite Hf, Ht, Hp. simpl.
  repeat split.
  - unfold board_at at 1. simpl. fold (board_at (SetPiece (SetPiece h b to (Some p)) b from None) b).
    rewrite !board_at_SetPiece, Hf, Ht. reflexivity.
  - intros b' Hne. unfold board_at at 1. simpl.
    fold (board_at (SetPiece (SetPiece h b to (Some p)) b from None) b').
    rewrite !board_at_SetPiece_ne by exact Hne. reflexivity.
  - rewrite !pieces_SetPiece. rewrite !piece_at_SetPiece. reflexivity.
  - rewrite !games_SetPiece. reflexivity.
  - rewrite !length_boards_SetPiece. reflexivity.
Qed.

(** A refused [MovePiece] leaves the heap as it is. *)
Lemma MovePiece_refused (h : heap) (b : ptr) (from to : Position) :
  snd (MovePiece h b from to) = false -> fst (MovePiece h b from to) = h.
Proof.
  unfold MovePiece.
  destruct (negb (IsValid from) || negb (IsValid to)); [reflexivity|].
  destruct (GetPiece h b from); [discriminate | reflexivity].
Qed.

(** ** Lists *)

Lemma find_pointwise {A : Type} (f f' : A -> bool) (l : list A) :
  (forall x, f x = f' x) -> List.find f l = List.find f' l.
Proof. intros E. induction l as [|x l IH]; simpl; [|rewrite E, IH]; reflexivity. Qed.

Lemma existsb_pointwise {A : Type} (f f' : A -> bool) (l : list A) :
  (forall x, f x = f' x) -> existsb f l = existsb f' l.
Proof. intros E. induction l as [|x l IH]; simpl; [|rewrite E, IH]; reflexivity. Qed.

(** ** What the legality engine reads *)

Lemma same_position_refl (h : heap) : same_position h h.
Proof. repeat split. Qed.

Lemma same_position_sym (h h' : heap) : same_position h h' -> same_position h' h.
Proof. intros (? & ? & ?). repeat split; done. Qed.

Lemma same_position_trans (h1 h2 h3 : heap) :
  same_position h1 h2 -> same_position h2 h3 -> same_position h1 h3.
Proof. intros (? & ? & ?) (? & ? & ?). repeat split; congruence. Qed.

Lemma same_position_board_at (h h' : heap) (b : ptr) :
  same_position h h' -> board_at h b = board_at h' b.
Proof. intros (Hb & _). unfold board_at. rewrite Hb. reflexivity. Qed.

Lemma same_position_GetPiece (h h' : heap) (b : ptr) (pos : Position) :
  same_position h h' -> GetPiece h b pos = GetPiece h' b pos.
Proof. intros H. unfold GetPiece. rewrite (same_position_board_at h h' b H). reflexivity. Qed.

Lemma same_position_shape (h h' : heap) (p : ptr) :
  same_position h h' -> piece_shape (piece_at h p) = piece_shape (piece_at h' p).
Proof.
  intros (_ & Hp & _). unfold piece_at.
  assert (E : (piece_shape <$> pieces h) !! p = (piece_shape <$> pieces h') !! p)
    by (rewrite Hp; reflexivity).
  rewrite !list_lookup_fmap in E.
  destruct (pieces h !! p), (pieces h' !! p); simpl in *; congruence.
Qed.

Lemma same_position_Type (h h' : heap) (p : ptr) :
  same_position h h' -> Type_ (piece_at h p) = Type_ (piece_at h' p).
Proof. intros H. apply (f_equal fst (same_position_shape h h' p H)). Qed.

Lemma same_position_Color (h h' : heap) (p : ptr) :
  same_position h h' -> Color_ (piece_at h p) = Color_ (piece_at h' p).
Proof. intros H. apply (f_equal snd (same_position_shape h h' p H)). Qed.

Lemma same_position_Board (h h' : heap) (g : ptr) :
  same_position h h' -> Board (game_at h g) = Board (game_at h' g).
Proof.
  intros (_ & _ & Hg). unfold game_at.
  assert (E : (Board <$> games h) !! g = (Board <$> games h') !! g)
    by (rewrite Hg; reflexivity).
  rewrite !list_lookup_fmap in E.
  destruct (games h !! g), (games h' !! g); simpl in *; congruence.
Qed.

Lemma same_position_isPathClear_loop (h h' : heap) (b : ptr) (fuel : nat)
    (rs cs r c : Z) (to : Position) :
  same_position h h' ->
  isPathClear_loop fuel h b rs cs r c to = isPathClear_loop fuel h' b rs cs r c to.
Proof.
  intros H. revert r c. induction fuel as [|fuel IH]; intros r c; simpl; [reflexivity|].
  rewrite (same_position_GetPiece h h' b _ H), IH. reflexivity.
Qed.

Lemma same_position_isPathClear (h h' : heap) (b : ptr) (from to : Position) :
  same_position h h' -> isPathClear h b from to = isPathClear h' b from to.
Proof.
  intros H. unfold isPathClear.
  rewrite (same_position_isPathClear_loop h h'); [reflexivity | exact H].
Qed.

Lemma same_position_isValidPawnMove (h h' : heap) (b : ptr) (move : Move) (piece : ptr) :
  same_position h h' -> isValidPawnMove h b move piece = isValidPawnMove h' b move piece.
Proof.
  intros H. unfold isValidPawnMove.
  rewrite (same_position_Color h h' piece H).
  rewrite !(same_position_GetPiece h h' b _ H).
  destruct (GetPiece h' b (To move)) as [q|]; [|reflexivity].
  rewrite (same_position_Color h h' q H). reflexivity.
Qed.

Lemma same_position_IsValidMove (h h' : heap) (b : ptr) (move : Move) (player : Color) :
  same_position h h' -> IsValidMove h b move player = IsValidMove h' b move player.
Proof.
  intros H. unfold IsValidMove, isValidQueenMove, isValidRookMove, isValidBishopMove.
  rewrite !(same_position_GetPiece h h' b _ H).
  destruct (GetPiece h' b (From move)) as [p|]; [|reflexivity].
  rewrite (same_position_Color h h' p H), (same_position_Type h h' p H).
  rewrite (same_position_isValidPawnMove h h' b move p H).
  rewrite !(same_position_isPathClear h h' b _ _ H).
  destruct (GetPiece h' b (To move)) as [q|]; [|reflexivity].
  rewrite (same_position_Color h h' q H). reflexivity.
Qed.

Lemma same_position_GetValidMoves (h h' : heap) (b : ptr) (pos : Position) :
  same_position h h' -> GetValidMoves h b pos = GetValidMoves h' b pos.
Proof.
  intros H. unfold GetValidMoves.
  rewrite (same_position_GetPiece h h' b _ H).
  destruct (GetPiece h' b pos) as [p|]; [|reflexivity].
  rewrite (same_position_Color h h' p H).
  apply list_filter_iff. intros m. rewrite (same_position_IsValidMove h h' b m _ H). tauto.
Qed.

Lemma same_position_isInCheck (h h' : heap) (g : ptr) (player : Color) :
  same_position h h' -> isInCheck h g player = isInCheck h' g player.
Proof.
  intros H. unfold isInCheck.
  rewrite (same_position_Board h h' g H).
  set (b := Board (game_at h' g)).
  assert (Ek : forall pos,
    match GetPiece h b pos with
    | Some piece => bool_decide (Type_ (piece_at h piece) = King)
                    && bool_decide (Color_ (piece_at h piece) = player)
    | None => false
    end =
    match GetPiece h' b pos with
    | Some piece => bool_decide (Type_ (piece_at h' piece) = King)
                    && bool_decide (Color_ (piece_at h' piece) = player)
    | None => false
    end).
  { intros pos. rewrite (same_position_GetPiece h h' b _ H).
    destruct (GetPiece h' b pos) as [p|]; [|reflexivity].
    rewrite (same_position_Color h h' p H), (same_position_Type h h' p H). reflexivity. }
  rewrite (find_pointwise _ _ all_positions Ek).
  destruct (find _ all_positions) as [kingPos|]; [|reflexivity].
  apply existsb_pointwise. intros pos. rewrite (same_position_GetPiece h h' b _ H).
  destruct (GetPiece h' b pos) as [p|]; [|reflexivity].
  rewrite (same_position_Color h h' p H), (same_position_IsValidMove h h' b _ _ H).
  reflexivity.
Qed.

(** ** Trying a move and undoing it *)

Lemma boards_eq_of_board_at (h h' : heap) :
  length (boards h') = length (boards h) ->
  (forall b, board_at h' b = board_at h b) ->
  boards h' = boards h.
Proof.
  intros Hlen Hb. apply list_eq. intros i.
  specialize (Hb i). unfold board_at in Hb.
  destruct (boards h' !! i) as [x|] eqn:E', (boards h !! i) as [y|] eqn:E;
    simpl in Hb; try congruence.
  - apply lookup_lt_Some in E'. apply lookup_ge_None in E. lia.
  - apply lookup_ge_None in E'. apply lookup_lt_Some in E. lia.
Qed.

Lemma shape_mark_insert (l : list Piece) (p : ptr) (x : Piece) :
  piece_shape x = piece_shape (default (mkPiece King White false) (l !! p)) ->
  piece_shape <$> <[p := x]> l = piece_shape <$> l.
Proof.
  intros Hx. rewrite list_fmap_insert. apply list_insert_id'. intros Hlt.
  rewrite list_lookup_fmap.
  rewrite length_fmap in Hlt. destruct (lookup_lt_is_Some_2 l p Hlt) as [y Hy].
  rewrite Hy in *. simpl in *. congruence.
Qed.

Lemma MovePiece_shape (h : heap) (b : ptr) (from to : Position) :
  piece_shape <$> pieces (fst (MovePiece h b from to)) = piece_shape <$> pieces h
  /\ games (fst (MovePiece h b from to)) = games h
  /\ length (pieces (fst (MovePiece h b from to))) = length (pieces h)
  /\ length (boards (fst (MovePiece h b from to))) = length (boards h).
Proof.
  unfold MovePiece.
  destruct (negb (IsValid from) || negb (IsValid to)); [done|].
  destruct (GetPiece h b from) as [p|]; [|done]. simpl.
  rewrite !pieces_SetPiece, !games_SetPiece, !length_boards_SetPiece, !piece_at_SetPiece.
  repeat split.
  - apply shape_mark_insert. reflexivity.
  - apply length_insert.
Qed.

Lemma GetPiece_of_lookup (h : heap) (b : ptr) (pos : Position) (v : option ptr) :
  IsValid pos = true -> board_at h b !! square_index pos = Some v -> GetPiece h b pos = v.
Proof. intros Hv E. unfold GetPiece. rewrite Hv, E. reflexivity. Qed.

(** The heart of [hasValidMoves]: after a trial move and its undo the
    squares of every board are what they were, and so are the kind and
    colour of every piece and every game. *)
Lemma try_undo (h : heap) (b : ptr) (from to : Position) (p : ptr) :
  wf_board h b -> IsValid from = true -> IsValid to = true -> from <> to ->
  GetPiece h b from = Some p ->
  let h1 := fst (MovePiece h b from to) in
  let h2 := fst (MovePiece h1 b to from) in
  let h3 := SetPiece h2 b to (GetPiece h b to) in
  boards h3 = boards h /\ games h3 = games h
  /\ piece_shape <$> pieces h3 = piece_shape <$> pieces h
  /\ length (pieces h3) = length (pieces h).
Proof.
  intros [Hb Hlen] Hf Ht Hne Hp h1 h2 h3.
  assert (Hi : square_index from <> square_index to).
  { intros E. apply Hne. apply square_index_inj; assumption. }
  pose proof (square_index_lt from Hf) as Hfi.
  pose proof (square_index_lt to Ht) as Hti.
  destruct (MovePiece_success h b from to p Hf Ht Hp) as (S1 & O1 & P1 & G1 & L1).
  fold h1 in S1, O1, P1, G1, L1.
  assert (Hp1 : GetPiece h1 b to = Some p).
  { apply GetPiece_of_lookup; [exact Ht|]. rewrite S1.
    rewrite list_lookup_insert_ne by exact Hi.
    apply list_lookup_insert_eq. lia. }
  destruct (MovePiece_success h1 b to from p Ht Hf Hp1) as (S2 & O2 & P2 & G2 & L2).
  fold h2 in S2, O2, P2, G2, L2.
  destruct (lookup_lt_is_Some_2 (board_at h b) (square_index to) ltac:(lia)) as [orig Ho].
  pose proof (GetPiece_of_lookup h b to orig Ht Ho) as Eorig.
  apply GetPiece_lookup in Hp as [_ Hpf].
  repeat split.
  - apply boards_eq_of_board_at.
    + unfold h3. rewrite length_boards_SetPiece. congruence.
    + intros b'. destruct (decide (b = b')) as [<-|Hbb].
      * unfold h3. rewrite Eorig, board_at_SetPiece, Ht, S2, S1.
        apply list_eq. intros i.
        rewrite !list_lookup_insert, !length_insert.
        repeat case_decide; try reflexivity; destruct_and?; subst; try lia; congruence.
      * unfold h3. rewrite board_at_SetPiece_ne by exact Hbb.
        rewrite O2, O1 by exact Hbb. reflexivity.
  - unfold h3. rewrite games_SetPiece. congruence.
  - unfold h3. rewrite pieces_SetPiece.
    destruct (MovePiece_shape h1 b to from) as (E2 & _).
    destruct (MovePiece_shape h b from to) as (E1 & _).
    fold h1 in E1, E2. fold h2 in E2. congruence.
  - unfold h3. rewrite pieces_SetPiece.
    destruct (MovePiece_shape h1 b to from) as (_ & _ & E2 & _).
    destruct (MovePiece_shape h b from to) as (_ & _ & E1 & _).
    fold h1 in E1, E2. fold h2 in E2. congruence.
Qed.

Lemma only_marks_refl (h : heap) : only_marks h h.
Proof. repeat split. Qed.

Lemma only_marks_trans (h1 h2 h3 : heap) :
  only_marks h1 h2 -> only_marks h2 h3 -> only_marks h1 h3.
Proof. intros (? & ? & ?) (? & ? & ?). repeat split; congruence. Qed.

Lemma only_marks_same_position (h h' : heap) : only_marks h h' -> same_position h h'.
Proof. intros (Hb & Hg & Hp). repeat split; congruence. Qed.

Lemma boards_SetPiece_ext (h h' : heap) (b : ptr) (pos : Position) (v : option ptr) :
  boards h = boards h' -> boards (SetPiece h b pos v) = boards (SetPiece h' b pos v).
Proof.
  intros E. unfold SetPiece, store_board, board_at.
  destruct (IsValid pos); simpl; rewrite E; reflexivity.
Qed.

Lemma same_position_MovePiece (h h' : heap) (b : ptr) (from to : Position) :
  same_position h h' ->
  same_position (fst (MovePiece h b from to)) (fst (MovePiece h' b from to)).
Proof.
  intros H.
  destruct (MovePiece_shape h b from to) as (P1 & G1 & _).
  destruct (MovePiece_shape h' b from to) as (P2 & G2 & _).
  destruct H as (Hb & Hp & Hg).
  repeat split; [| congruence | congruence].
  unfold MovePiece.
  rewrite (same_position_GetPiece h h' b from) by (repeat split; assumption).
  destruct (negb (IsValid from) || negb (IsValid to)); [exact Hb|].
  destruct (GetPiece h' b from) as [p|]; [|exact Hb]. simpl.
  apply boards_SetPiece_ext, boards_SetPiece_ext, Hb.
Qed.

Lemma IsValidMove_triable (h : heap) (b : ptr) (move : Move) (player : Color) :
  IsValid (To move) = true -> IsValidMove h b move player = true -> triable h b move.
Proof.
  intros Ht Hv. unfold triable.
  assert (Hp : is_Some (GetPiece h b (From move))).
  { unfold IsValidMove in Hv. destruct (GetPiece h b (From move)); [eauto | discriminate]. }
  repeat split; try assumption.
  - destruct Hp as [p Hp]. apply GetPiece_lookup in Hp. tauto.
  - intros E. destruct move as [f t]. simpl in E. subst t.
    rewrite IsValidMove_same_square in Hv. discriminate.
Qed.

Lemma elem_of_GetValidMoves (h : heap) (b : ptr) (pos : Position) (move : Move) :
  move ∈ GetValidMoves h b pos <->
  exists p, GetPiece h b pos = Some p /\ From move = pos /\ IsValid (To move) = true
            /\ IsValidMove h b move (Color_ (piece_at h p)) = true.
Proof.
  unfold GetValidMoves. destruct (GetPiece h b pos) as [p|].
  - rewrite list_elem_of_filter, list_elem_of_fmap. split.
    + intros (Hv & to & -> & Hto). apply elem_of_all_positions in Hto.
      exists p. simpl. auto.
    + intros (p' & [= <-] & Hf & Ht & Hv). split; [exact Hv|].
      exists (To move). split; [destruct move; simpl in *; congruence|].
      apply elem_of_all_positions, Ht.
  - split; [intros H; inversion H | intros (p & [=] & _)].
Qed.

Lemma tryMoves_spec (h0 : heap) (g : ptr) (player : Color) (moves : list Move) :
  wf_board h0 (Board (game_at h0 g)) ->
  Forall (triable h0 (Board (game_at h0 g))) moves ->
  forall h, only_marks h0 h ->
  only_marks h0 (fst (tryMoves h g player moves))
  /\ snd (tryMoves h g player moves) = existsb (leaves_king_safe h0 g player) moves.
Proof.
  intros Hwf Hall. induction Hall as [|move rest Hm Hrest IH]; intros h Hh.
  - simpl. split; [exact Hh | reflexivity].
  - pose proof (only_marks_same_position h0 h Hh) as Hsp.
    cbn [tryMoves existsb].
    rewrite <- (same_position_Board h0 h g Hsp).
    set (b := Board (game_at h0 g)) in *.
    destruct Hm as (Hf & Ht & Hne & [p Hp]).
    assert (Hwf' : wf_board h b).
    { destruct Hh as (Hb & _). unfold wf_board, board_at in *. rewrite Hb. exact Hwf. }
    rewrite (same_position_GetPiece h0 h b _ Hsp) in Hp.
    pose proof (try_undo h b (From move) (To move) p Hwf' Hf Ht Hne Hp) as Hundo.
    cbv zeta in Hundo.
    set (h3 := SetPiece _ b (To move) (GetPiece h b (To move))) in *.
    assert (Hh3 : only_marks h0 h3).
    { apply (only_marks_trans h0 h h3 Hh). destruct Hundo as (? & ? & ? & _).
      repeat split; assumption. }
    assert (Esafe : negb (isInCheck (fst (MovePiece h b (From move) (To move))) g player)
                    = leaves_king_safe h0 g player move).
    { unfold leaves_king_safe. fold b.
      rewrite (same_position_isInCheck _ _ g player
                 (same_position_MovePiece h0 h b (From move) (To move) Hsp)).
      reflexivity. }
    rewrite Esafe.
    destruct (leaves_king_safe h0 g player move); simpl.
    + split; [exact Hh3 | reflexivity].
    + apply IH, Hh3.
Qed.

Lemma GetValidMoves_triable (h : heap) (b : ptr) (pos : Position) :
  Forall (triable h b) (GetValidMoves h b pos).
Proof.
  apply Forall_forall. intros move Hm.
  apply elem_of_GetValidMoves in Hm as (p & _ & _ & Ht & Hv).
  apply (IsValidMove_triable h b move _ Ht Hv).
Qed.

Lemma hasValidMoves_from_spec (h0 : heap) (g : ptr) (player : Color)
    (squares : list Position) :
  wf_board h0 (Board (game_at h0 g)) ->
  forall h, only_marks h0 h ->
  only_marks h0 (fst (hasValidMoves_from h g player squares))
  /\ snd (hasValidMoves_from h g player squares)
     = existsb (has_safe_move_from h0 g player) squares.
Proof.
  intros Hwf. induction squares as [|pos rest IH]; intros h Hh.
  - simpl. split; [exact Hh | reflexivity].
  - pose proof (only_marks_same_position h0 h Hh) as Hsp.
    cbn [hasValidMoves_from existsb]. unfold has_safe_move_from at 1.
    rewrite <- (same_position_Board h0 h g Hsp).
    set (b := Board (game_at h0 g)) in *.
    rewrite <- (same_position_GetPiece h0 h b pos Hsp).
    destruct (GetPiece h0 b pos) as [p|]; [|apply IH, Hh].
    rewrite <- (same_position_Color h0 h p Hsp).
    destruct (bool_decide (Color_ (piece_at h0 p) = player)); [|apply IH, Hh].
    rewrite <- (same_position_GetValidMoves h0 h b pos Hsp).
    destruct (tryMoves_spec h0 g player (GetValidMoves h0 b pos) Hwf
                (GetValidMoves_triable h0 b pos) h Hh) as [Hm Hr].
    destruct (tryMoves h g player (GetValidMoves h0 b pos)) as [h1 found].
    simpl in Hm, Hr. rewrite <- Hr. simpl.
    destruct found; simpl; [split; [exact Hm | reflexivity] | apply IH, Hm].
Qed.

(** [hasValidMoves] answers whether the side has a legal move, and
    leaves every board, every game and the kind and colour of every piece
    as they were. *)
Lemma hasValidMoves_spec (h : heap) (g : ptr) (player : Color) :
  wf_board h (Board (game_at h g)) ->
  only_marks h (fst (hasValidMoves h g player))
  /\ (snd (hasValidMoves h g player) = true <-> has_legal_move h g player).
Proof.
  intros Hwf. unfold hasValidMoves.
  destruct (hasValidMoves_from_spec h g player all_positions Hwf h (only_marks_refl h))
    as [Hm Hr].
  split; [exact Hm|]. rewrite Hr, existsb_exists. unfold has_legal_move.
  set (b := Board (game_at h g)).
  split.
  - intros (pos & Hpos & Hsafe). unfold has_safe_move_from in Hsafe. fold b in Hsafe.
    destruct (GetPiece h b pos) as [p|] eqn:Hp; [|discriminate].
    apply andb_true_iff in Hsafe as [Hc Hex]. apply bool_decide_eq_true in Hc.
    apply existsb_exists in Hex as (move & Hin & Hs).
    apply list_elem_of_In, elem_of_GetValidMoves in Hin as (p' & Hp' & Hf & Ht & Hv).
    rewrite Hp in Hp'. injection Hp' as <-. rewrite Hc in Hv.
    exists move. unfold legal_move, pseudo_legal. fold b.
    apply list_elem_of_In, elem_of_all_positions in Hpos. rewrite Hf.
    repeat split; try assumption.
    unfold leaves_king_safe in Hs. fold b in Hs. apply negb_true_iff in Hs.
    rewrite Hf in Hs. exact Hs.
  - intros (move & (Hf & Ht & Hv) & Hs). fold b in Hv, Hs.
    exists (From move). split; [apply list_elem_of_In, elem_of_all_positions, Hf|].
    unfold has_safe_move_from. fold b.
    assert (Hown : exists p, GetPiece h b (From move) = Some p
                             /\ Color_ (piece_at h p) = player).
    { unfold IsValidMove in Hv. destruct (GetPiece h b (From move)) as [p|]; [|discriminate].
      exists p. split; [reflexivity|].
      destruct (bool_decide (Color_ (piece_at h p) = player)) eqn:E; [|discriminate].
      apply bool_decide_eq_true in E. exact E. }
    destruct Hown as (p & Hp & Hc). rewrite Hp.
    apply andb_true_iff. split; [apply bool_decide_eq_true, Hc|].
    apply existsb_exists. exists move. split.
    + apply list_elem_of_In, elem_of_GetValidMoves. exists p. rewrite Hc. auto.
    + unfold leaves_king_safe. fold b. rewrite Hs. reflexivity.
Qed.

(** ** The state machine *)

Lemma same_position_legal_move (h h' : heap) (g : ptr) (player : Color) (move : Move) :
  same_position h h' -> legal_move h g player move -> legal_move h' g player move.
Proof.
  intros H ((Hf & Ht & Hv) & Hs). unfold legal_move, pseudo_legal.
  rewrite <- (same_position_Board h h' g H).
  rewrite <- (same_position_IsValidMove h h' _ _ _ H).
  repeat split; try assumption.
  rewrite <- Hs. symmetry.
  apply same_position_isInCheck, same_position_MovePiece, H.
Qed.

Lemma same_position_has_legal_move (h h' : heap) (g : ptr) (player : Color) :
  same_position h h' -> (has_legal_move h g player <-> has_legal_move h' g player).
Proof.
  intros H. split; intros [move Hm]; exists move.
  - apply (same_position_legal_move h h'); assumption.
  - apply (same_position_legal_move h' h); [apply same_position_sym|]; assumption.
Qed.

Lemma game_at_store_game (h : heap) (g : ptr) (x : Game) :
  (g < length (games h))%nat -> game_at (store_game h g x) g = x.
Proof.
  intros Hlt. unfold game_at, store_game. simpl.
  rewrite list_lookup_insert_eq by exact Hlt. reflexivity.
Qed.

Lemma same_position_store_game (h : heap) (g : ptr) (x : Game) :
  Board x = Board (game_at h g) -> same_position h (store_game h g x).
Proof.
  intros Hb. repeat split. simpl. rewrite list_fmap_insert.
  symmetry. apply list_insert_id'. intros Hlt. rewrite list_lookup_fmap.
  rewrite length_fmap in Hlt. unfold game_at in Hb.
  destruct (lookup_lt_is_Some_2 (games h) g Hlt) as [y Hy].
  rewrite Hy in *. simpl in *. congruence.
Qed.

(** [updateGameState] labels the position of the side to move. *)
Lemma updateGameState_classified (h : heap) (g : ptr) :
  (g < length (games h))%nat -> wf_board h (Board (game_at h g)) ->
  classified (updateGameState h g) g
  /\ CurrentPlayer (game_at (updateGameState h g) g) = CurrentPlayer (game_at h g)
  /\ MoveHistory (game_at (updateGameState h g) g) = MoveHistory (game_at h g)
  /\ Board (game_at (updateGameState h g) g) = Board (game_at h g).
Proof.
  intros Hg Hwf. unfold updateGameState.
  set (player := CurrentPlayer (game_at h g)).
  destruct (hasValidMoves_spec h g player Hwf) as [Hm Hhas].
  destruct (hasValidMoves h g player) as [h4 has]. simpl in Hm, Hhas.
  assert (Hg4 : game_at h4 g = game_at h g).
  { destruct Hm as (_ & Eg & _). unfold game_at. rewrite Eg. reflexivity. }
  assert (Hlen : (g < length (games h4))%nat).
  { destruct Hm as (_ & Eg & _). rewrite Eg. exact Hg. }
  assert (Hfinal : forall s,
    let h' := store_game h4 g (set_State (game_at h4 g) s) in
    game_at h' g = set_State (game_at h g) s /\ same_position h h').
  { intros s h'. split.
    - unfold h'. rewrite game_at_store_game by exact Hlen. rewrite Hg4. reflexivity.
    - apply (same_position_trans h h4 h'); [apply only_marks_same_position, Hm|].
      apply same_position_store_game. reflexivity. }
  assert (Hcases : forall s,
    match s with
    | Check => isInCheck h g player = true /\ has = true
    | Checkmate => isInCheck h g player = true /\ has = false
    | Stalemate => isInCheck h g player = false /\ has = false
    | Playing => isInCheck h g player = false /\ has = true
    | Draw => False
    end ->
    let h' := store_game h4 g (set_State (game_at h4 g) s) in
    classified h' g
    /\ CurrentPlayer (game_at h' g) = player
    /\ MoveHistory (game_at h' g) = MoveHistory (game_at h g)
    /\ Board (game_at h' g) = Board (game_at h g)).
  { intros s Hs h'. destruct (Hfinal s) as [Eg Hsp]. fold h' in Eg, Hsp.
    unfold classified. rewrite Eg. cbn [State CurrentPlayer MoveHistory Board set_State].
    fold player.
    rewrite <- (same_position_isInCheck h h' g player Hsp).
    pose proof (same_position_has_legal_move h h' g player Hsp) as Hl.
    destruct s; try contradiction; destruct Hs as [-> Hh];
      (split; [split; [reflexivity|] | repeat split]).
    - apply (proj1 Hl), (proj1 Hhas), Hh.
    - apply (proj1 Hl), (proj1 Hhas), Hh.
    - intros Hx. apply (proj2 Hl), (proj2 Hhas) in Hx. congruence.
    - intros Hx. apply (proj2 Hl), (proj2 Hhas) in Hx. congruence. }
  destruct (isInCheck h g player) eqn:Hic; destruct has; simpl.
  - apply (Hcases Check). auto.
  - apply (Hcases Checkmate). auto.
  - apply (Hcases Playing). auto.
  - apply (Hcases Stalemate). auto.
Qed.

Lemma MovePiece_cases (h : heap) (b : ptr) (from to : Position) :
  (exists p, IsValid from = true /\ IsValid to = true /\ GetPiece h b from = Some p)
  \/ fst (MovePiece h b from to) = h.
Proof.
  unfold MovePiece. destruct (IsValid from), (IsValid to); simpl; auto.
  destruct (GetPiece h b from) eqn:Hp; eauto.
Qed.

Lemma wf_board_MovePiece (h : heap) (b b' : ptr) (from to : Position) :
  wf_board h b' -> wf_board (fst (MovePiece h b from to)) b'.
Proof.
  intros [Hb Hlen].
  destruct (MovePiece_cases h b from to) as [(p & Hf & Ht & Hp) | ->]; [|split; assumption].
  destruct (MovePiece_success h b from to p Hf Ht Hp) as (S1 & O1 & _ & _ & L1).
  split; [rewrite L1; exact Hb|].
  destruct (decide (b = b')) as [<-|Hne].
  - rewrite S1, !length_insert. exact Hlen.
  - rewrite (O1 b' Hne). exact Hlen.
Qed.

(** What a successful [MakeMove] is made of. *)
Lemma MakeMove_success (h : heap) (g : ptr) (from to : string) :
  snd (MakeMove h g from to) = None ->
  exists move h3,
    FromAlgebraic from = (From move, None) /\ FromAlgebraic to = (To move, None)
    /\ IsValidMove h (Board (game_at h g)) move (CurrentPlayer (game_at h g)) = true
    /\ fst (MakeMove h g from to) = updateGameState h3 g
    /\ (let h1 := fst (MovePiece h (Board (game_at h g)) (From move) (To move)) in
        let x := game_at h1 g in
        let next := if decide (CurrentPlayer x = White) then Black else White in
        h3 = store_game
               (store_game h1 g
                  (mkGame (Board x) (CurrentPlayer x) (State x) (MoveHistory x ++ [move])))
               g (mkGame (Board x) next (State x) (MoveHistory x ++ [move]))
           \/ ~ (g < length (games h))%nat).
Proof.
  unfold MakeMove.
  destruct (FromAlgebraic from) as [fromPos [e|]]; [discriminate|].
  destruct (FromAlgebraic to) as [toPos [e|]]; [discriminate|].
  destruct (IsValidMove h (Board (game_at h g)) (NewMove fromPos toPos)
              (CurrentPlayer (game_at h g))) eqn:Hv; simpl; [|discriminate].
  intros _. eexists (NewMove fromPos toPos), _. simpl.
  repeat split; try reflexivity; try exact Hv.
  destruct (decide (g < length (games h))%nat) as [Hg|Hg]; [left | right; exact Hg].
  destruct (MovePiece_shape h (Board (game_at h g)) fromPos toPos) as (_ & Eg & _).
  rewrite game_at_store_game by (rewrite Eg; exact Hg). reflexivity.
Qed.

Lemma wf_board_store_game (h : heap) (g b : ptr) (x : Game) :
  wf_board h b -> wf_board (store_game h g x) b.
Proof. intros H. exact H. Qed.

Lemma wf_game_wf_board (h : heap) (g : ptr) :
  wf_game h g -> (g < length (games h))%nat /\ wf_board h (Board (game_at h g)).
Proof. intros (Hg & Hb & Hlen & _). repeat split; assumption. Qed.

(** C1: a call of [MakeMove] that returns an error, for a notation that
    does not parse or a move [IsValidMove] rejects, leaves the whole heap
    as it was; so the game keeps its board contents at every square, its
    side to move, its state label and its move history. *)
Theorem MakeMove_error_unchanged (h : heap) (g : ptr) (from to : string) :
  is_Some (snd (MakeMove h g from to)) ->
  let h' := fst (MakeMove h g from to) in
  h' = h
  /\ CurrentPlayer (game_at h' g) = CurrentPlayer (game_at h g)
  /\ State (game_at h' g) = State (game_at h g)
  /\ MoveHistory (game_at h' g) = MoveHistory (game_at h g)
  /\ forall pos,
       square_contents h' (Board (game_at h' g)) pos
       = square_contents h (Board (game_at h g)) pos.
Proof.
  intros Herr h'.
  assert (E : h' = h).
  { unfold h'. revert Herr. unfold MakeMove.
    destruct (FromAlgebraic from) as [fromPos [e|]]; [reflexivity|].
    destruct (FromAlgebraic to) as [toPos [e|]]; [reflexivity|].
    destruct (IsValidMove _ _ _ _); simpl; [|reflexivity].
    intros [e He]. discriminate. }
  rewrite E. repeat split.
Qed.

Lemma MakeMove_error_unchanged_e7e5 :
  is_Some (snd (MakeMove start_heap start_game "e7" "e5"))
  /\ fst (MakeMove start_heap start_game "e7" "e5") = start_heap.
Proof.
  assert (H : is_Some (snd (MakeMove start_heap start_game "e7" "e5")))
    by (vm_compute; eexists; reflexivity).
  split; [exact H|].
  exact (proj1 (MakeMove_error_unchanged start_heap start_game "e7" "e5" H)).
Defined.

(** C2: after a move that [MakeMove] applies, the side to move is the
    other side and the state label is its classification: Check when it
    is in check and has a legal move, Checkmate when in check without
    one, Stalemate when not in check without one, Playing otherwise. *)
Theorem MakeMove_classifies (h : heap) (g : ptr) (from to : string) :
  wf_game h g ->
  snd (MakeMove h g from to) = None ->
  let h' := fst (MakeMove h g from to) in
  CurrentPlayer (game_at h' g) = other_color (CurrentPlayer (game_at h g))
  /\ classified h' g.
Proof.
  intros Hwf Hok h'. apply wf_game_wf_board in Hwf as [Hg Hb].
  destruct (MakeMove_success h g from to Hok)
    as (move & h3 & _ & _ & _ & Efinal & [Eh3 | Hng]); [|contradiction].
  unfold h'. rewrite Efinal. clear h' Efinal Hok.
  cbv zeta in Eh3.
  set (b := Board (game_at h g)) in *.
  set (h1 := fst (MovePiece h b (From move) (To move))) in *.
  destruct (MovePiece_shape h b (From move) (To move)) as (_ & Eg & _).
  fold h1 in Eg.
  assert (Ex : game_at h1 g = game_at h g) by (unfold game_at; rewrite Eg; reflexivity).
  rewrite Ex in Eh3.
  assert (Hg3 : (g < length (games h3))%nat).
  { rewrite Eh3. simpl. rewrite !length_insert, Eg. exact Hg. }
  assert (Egame : game_at h3 g
                  = mkGame b (if decide (CurrentPlayer (game_at h g) = White)
                              then Black else White)
                      (State (game_at h g)) (MoveHistory (game_at h g) ++ [move])).
  { rewrite Eh3. apply game_at_store_game. simpl. rewrite length_insert, Eg. exact Hg. }
  assert (Hb3 : wf_board h3 (Board (game_at h3 g))).
  { rewrite Egame. simpl. rewrite Eh3.
    apply wf_board_store_game, wf_board_store_game, wf_board_MovePiece, Hb. }
  destruct (updateGameState_classified h3 g Hg3 Hb3) as (Hc & Ep & _).
  split; [|exact Hc].
  rewrite Ep, Egame. simpl. destruct (CurrentPlayer (game_at h g)); reflexivity.
Qed.

(** ** Has-moved flags *)

(** What [hasValidMoves] does restore: it leaves every board cell by cell as it
    was (each square holds the same piece as before), keeps every game,
    and keeps the kind and colour of every piece. *)
Lemma hasValidMoves_keeps_squares (h : heap) (g : ptr) (player : Color) :
  wf_board h (Board (game_at h g)) ->
  let h' := fst (hasValidMoves h g player) in
  boards h' = boards h /\ games h' = games h
  /\ (forall b pos, GetPiece h' b pos = GetPiece h b pos)
  /\ (forall p, Type_ (piece_at h' p) = Type_ (piece_at h p)
                /\ Color_ (piece_at h' p) = Color_ (piece_at h p)).
Proof.
  intros Hwf h'. destruct (hasValidMoves_spec h g player Hwf) as [Hm _].
  fold h' in Hm. pose proof (only_marks_same_position h h' Hm) as Hsp.
  destruct Hm as (Hb & Hg & _). repeat split; try assumption.
  - intros b pos. symmetry. apply same_position_GetPiece, Hsp.
  - symmetry. apply same_position_Type, Hsp.
  - symmetry. apply same_position_Color, Hsp.
Qed.

(** C3, what fails: on the starting position, [hasValidMoves(White)]
    leaves the pawn of a2, which it only tried, marked as moved; the
    square holds the same piece, with a changed flag. *)
Lemma hasValidMoves_marks_tried_piece :
  let b := Board (game_at start_heap start_game) in
  let a2 := NewPosition 6 0 in
  let h' := fst (hasValidMoves start_heap start_game White) in
  square_contents start_heap b a2 = Some (mkPiece Pawn White false)
  /\ square_contents h' b a2 = Some (mkPiece Pawn White true)
  /\ GetPiece h' b a2 = GetPiece start_heap b a2.
Proof. vm_compute. repeat split. Qed.

(** ** Move ordering *)

(** What the source tests for the development bonus: a knight or bishop
    of White on row 0, or of Black on row 7. *)
Lemma development_bonus_spec (h : heap) (game : ptr) (move : Move) :
  development_bonus h game move = 30 <->
  exists piece, GetPiece h (Board (game_at h game)) (From move) = Some piece
    /\ (Type_ (piece_at h piece) = Knight \/ Type_ (piece_at h piece) = Bishop)
    /\ ((Color_ (piece_at h piece) = White /\ Row (From move) = 0)
        \/ (Color_ (piece_at h piece) = Black /\ Row (From move) = 7)).
Proof.
  unfold development_bonus.
  destruct (GetPiece h (Board (game_at h game)) (From move)) as [p|].
  - destruct (Type_ (piece_at h p)) eqn:Et, (Color_ (piece_at h p)) eqn:Ec,
      (Z.eqb_spec (Row (From move)) 0), (Z.eqb_spec (Row (From move)) 7);
      (split;
       [ intros E; vm_compute in E;
         first [discriminate E
               | exists p; rewrite Et, Ec; split; [reflexivity|]; split; auto]
       | intros (q & Hq & Hty & Hcr); injection Hq as <-;
         rewrite Et in Hty; rewrite Ec in Hcr; vm_compute;
         first [reflexivity
               | exfalso; destruct Hty as [Hty|Hty], Hcr as [[Hc Hr]|[Hc Hr]];
                 congruence] ]).
  - split; [discriminate | intros (q & [=] & _)].
Qed.

(** C9, what fails: on the starting position the knight of b1 stands on
    White's back rank (row 7), and its move to c3 gets no development
    bonus: its ordering score is the 50 of the centre alone. *)
Lemma development_bonus_back_rank_knight :
  let b1c3 := NewMove (NewPosition 7 1) (NewPosition 5 2) in
  square_contents start_heap (Board (game_at start_heap start_game)) (From b1c3)
    = Some (mkPiece Knight White false)
  /\ development_bonus start_heap start_game b1c3 = 0
  /\ order_score (NewAI White 3) start_heap start_game 0 b1c3 = 50.
Proof. vm_compute. repeat split. Qed.

(** ** Terminal nodes of the search *)

Lemma mate_exact_table : Forall mate_exact (seqZ 0 1000).
Proof.
  vm_compute seqZ.
  repeat (constructor; [split; vm_compute; reflexivity|]).
  constructor.
Qed.

(** For every ply a search can reach, the sums the source computes are
    exactly [-(1000 - ply)] and [1000 - ply]. *)
Lemma mate_score_exact (ply : Z) : 0 <= ply < 1000 -> mate_exact ply.
Proof.
  intros H. apply (proj1 (Forall_forall _ _) mate_exact_table).
  apply elem_of_seqZ. lia.
Qed.

(** C8: at a node that is evaluated (the table lookup does not answer the
    call, the depth is positive, the state is Playing) where the side to
    move has no pseudo-legal move, [minimax] returns at once, leaving the
    engine and the heap as they are: the mate score, of magnitude
    [1000 - ply] and negative exactly at a maximizing node, when that side
    is in check, and exactly 0 when it is not. *)
Theorem minimax_no_moves (sort_Slice : forall A : Type, (A -> A -> bool) -> list A -> list A)
    (fuel : nat) (ai : AI) (h : heap) (game : ptr) (depth : Z) (isMaximizing : bool)
    (alpha beta : float) (ply : Z) (window : float * float) :
  probe_table ai (hashPosition h game) depth alpha beta = inr window ->
  0 < depth ->
  State (game_at h game) = Playing ->
  getAllPossibleMoves h game = [] ->
  let inCheck := isInCheck h game (CurrentPlayer (game_at h game)) in
  let score :=
    if inCheck
    then (if isMaximizing then (-1000.0 + float64_of_int ply)%float
          else (1000.0 - float64_of_int ply)%float)
    else 0%float in
  minimax sort_Slice (S fuel) ai h game depth isMaximizing alpha beta ply
    = Some (score, ai, h)
  /\ (0 <= ply < 1000 -> inCheck = true -> score = mate_score isMaximizing ply).
Proof.
  intros Hprobe Hdepth Hstate Hmoves inCheck score. split.
  - cbn [minimax]. rewrite Hprobe. destruct window as [alpha' beta'].
    destruct (Z.eqb_spec depth 0) as [E|_]; [lia|].
    rewrite Hstate, bool_decide_eq_true_2 by reflexivity.
    cbn [negb orb]. rewrite Hmoves.
    unfold score, inCheck.
    destruct (isInCheck h game (CurrentPlayer (game_at h game))); [|reflexivity].
    destruct isMaximizing; reflexivity.
  - intros Hply Hic. unfold score. rewrite Hic.
    destruct (mate_score_exact ply Hply) as [Emax Emin].
    destruct isMaximizing; assumption.
Qed.

(** ** Frames: what a call leaves alone *)

Lemma heap_extends_refl (h : heap) : heap_extends h h.
Proof. repeat split; reflexivity. Qed.

Lemma heap_extends_trans (h1 h2 h3 : heap) :
  heap_extends h1 h2 -> heap_extends h2 h3 -> heap_extends h1 h3.
Proof. intros (? & ? & ?) (? & ? & ?). repeat split; etrans; eassumption. Qed.

Lemma prefix_insert_ge {A : Type} (l0 l : list A) (i : nat) (x : A) :
  l0 `prefix_of` l -> (length l0 <= i)%nat -> l0 `prefix_of` <[i := x]> l.
Proof.
  intros [k ->] Hi. rewrite insert_app_r_alt by exact Hi. apply prefix_app_r. reflexivity.
Qed.

Lemma heap_extends_length (h0 h : heap) :
  heap_extends h0 h ->
  (length (pieces h0) <= length (pieces h))%nat
  /\ (length (boards h0) <= length (boards h))%nat
  /\ (length (games h0) <= length (games h))%nat.
Proof. intros (Hp & Hb & Hg). repeat split; apply prefix_length; assumption. Qed.

Lemma heap_extends_alloc_piece (h0 h : heap) (x : Piece) :
  heap_extends h0 h -> heap_extends h0 (fst (alloc_piece h x)).
Proof. intros (Hp & Hb & Hg). repeat split; simpl; try assumption. apply prefix_app_r, Hp. Qed.

Lemma heap_extends_alloc_board (h0 h : heap) (sq : list (option ptr)) :
  heap_extends h0 h -> heap_extends h0 (fst (alloc_board h sq)).
Proof. intros (Hp & Hb & Hg). repeat split; simpl; try assumption. apply prefix_app_r, Hb. Qed.

Lemma heap_extends_alloc_game (h0 h : heap) (x : Game) :
  heap_extends h0 h -> heap_extends h0 (fst (alloc_game h x)).
Proof. intros (Hp & Hb & Hg). repeat split; simpl; try assumption. apply prefix_app_r, Hg. Qed.

Lemma heap_extends_store_piece (h0 h : heap) (p : ptr) (x : Piece) :
  heap_extends h0 h -> (length (pieces h0) <= p)%nat -> heap_extends h0 (store_piece h p x).
Proof.
  intros (Hp & Hb & Hg) Hfresh. repeat split; simpl; try assumption.
  apply prefix_insert_ge; assumption.
Qed.

Lemma heap_extends_store_board (h0 h : heap) (b : ptr) (sq : list (option ptr)) :
  heap_extends h0 h -> (length (boards h0) <= b)%nat -> heap_extends h0 (store_board h b sq).
Proof.
  intros (Hp & Hb & Hg) Hfresh. repeat split; simpl; try assumption.
  apply prefix_insert_ge; assumption.
Qed.

Lemma heap_extends_store_game (h0 h : heap) (g : ptr) (x : Game) :
  heap_extends h0 h -> (length (games h0) <= g)%nat -> heap_extends h0 (store_game h g x).
Proof.
  intros (Hp & Hb & Hg) Hfresh. repeat split; simpl; try assumption.
  apply prefix_insert_ge; assumption.
Qed.

Lemma fresh_board_GetPiece (h0 h : heap) (b : ptr) (pos : Position) (p : ptr) :
  fresh_board h0 h b -> GetPiece h b pos = Some p -> (length (pieces h0) <= p)%nat.
Proof.
  intros [_ Hf] Hp. apply GetPiece_lookup in Hp as [_ Hp]. exact (Hf _ _ Hp).
Qed.

Lemma SetPiece_fresh (h0 h : heap) (b : ptr) (pos : Position) (v : option ptr) :
  heap_extends h0 h -> fresh_board h0 h b ->
  (forall p, v = Some p -> (length (pieces h0) <= p)%nat) ->
  heap_extends h0 (SetPiece h b pos v) /\ fresh_board h0 (SetPiece h b pos v) b.
Proof.
  intros He [Hb Hf] Hv. split.
  - unfold SetPiece. destruct (IsValid pos); [|exact He].
    apply heap_extends_store_board; assumption.
  - split; [exact Hb|]. intros i p. rewrite board_at_SetPiece.
    destruct (IsValid pos); [|apply Hf].
    rewrite list_lookup_insert. case_decide as Hc; [|apply Hf].
    intros [= ->]. apply Hv. reflexivity.
Qed.

Lemma MovePiece_fresh (h0 h : heap) (b : ptr) (from to : Position) :
  heap_extends h0 h -> fresh_board h0 h b ->
  heap_extends h0 (fst (MovePiece h b from to))
  /\ fresh_board h0 (fst (MovePiece h b from to)) b.
Proof.
  intros He Hf. unfold MovePiece.
  destruct (negb (IsValid from) || negb (IsValid to)); [split; assumption|].
  destruct (GetPiece h b from) as [p|] eqn:Hp; [|split; assumption]. simpl.
  pose proof (fresh_board_GetPiece h0 h b from p Hf Hp) as Hfresh.
  destruct (SetPiece_fresh h0 h b to (Some p) He Hf) as [He1 Hf1].
  { intros q [= <-]. exact Hfresh. }
  destruct (SetPiece_fresh h0 _ b from None He1 Hf1) as [He2 Hf2].
  { intros q [=]. }
  split.
  - apply heap_extends_store_piece; assumption.
  - exact Hf2.
Qed.

Lemma fresh_game_same_games (h0 h h' : heap) (g : ptr) :
  games h' = games h ->
  fresh_board h0 h' (Board (game_at h g)) ->
  (length (games h0) <= g)%nat ->
  fresh_game h0 h' g.
Proof.
  intros Eg Hf Hg. split; [exact Hg|].
  unfold game_at in *. rewrite Eg. exact Hf.
Qed.

Lemma games_MovePiece (h : heap) (b : ptr) (from to : Position) :
  games (fst (MovePiece h b from to)) = games h.
Proof. destruct (MovePiece_shape h b from to) as (_ & E & _). exact E. Qed.

Lemma game_at_MovePiece (h : heap) (b : ptr) (from to : Position) (g : ptr) :
  game_at (fst (MovePiece h b from to)) g = game_at h g.
Proof. unfold game_at. rewrite games_MovePiece. reflexivity. Qed.

Lemma tryMoves_fresh (h0 : heap) (g : ptr) (player : Color) (moves : list Move) :
  forall h, heap_extends h0 h -> fresh_game h0 h g ->
  heap_extends h0 (fst (tryMoves h g player moves))
  /\ fresh_game h0 (fst (tryMoves h g player moves)) g.
Proof.
  induction moves as [|move rest IH]; intros h He Hf; [split; assumption|].
  cbn [tryMoves]. destruct Hf as [Hg Hf].
  set (b := Board (game_at h g)) in *.
  set (orig := GetPiece h b (To move)).
  assert (Ho : forall p, orig = Some p -> (length (pieces h0) <= p)%nat).
  { intros p Hp. apply (fresh_board_GetPiece h0 h b (To move) p Hf Hp). }
  destruct (MovePiece_fresh h0 h b (From move) (To move) He Hf) as [He1 Hf1].
  set (h1 := fst (MovePiece h b (From move) (To move))) in *.
  destruct (MovePiece_fresh h0 h1 b (To move) (From move) He1 Hf1) as [He2 Hf2].
  set (h2 := fst (MovePiece h1 b (To move) (From move))) in *.
  destruct (SetPiece_fresh h0 h2 b (To move) orig He2 Hf2 Ho) as [He3 Hf3].
  set (h3 := SetPiece h2 b (To move) orig) in *.
  assert (Eg : game_at h3 g = game_at h g).
  { unfold h3, h2, h1. rewrite game_at_SetPiece, !game_at_MovePiece. reflexivity. }
  assert (Hf3' : fresh_game h0 h3 g).
  { split; [exact Hg|]. rewrite Eg. exact Hf3. }
  destruct (negb (isInCheck h1 g player)); [split; assumption|].
  apply IH; assumption.
Qed.

Lemma hasValidMoves_from_fresh (h0 : heap) (g : ptr) (player : Color)
    (squares : list Position) :
  forall h, heap_extends h0 h -> fresh_game h0 h g ->
  heap_extends h0 (fst (hasValidMoves_from h g player squares))
  /\ fresh_game h0 (fst (hasValidMoves_from h g player squares)) g.
Proof.
  induction squares as [|pos rest IH]; intros h He Hf; [split; assumption|].
  cbn [hasValidMoves_from].
  destruct (GetPiece h (Board (game_at h g)) pos) as [p|]; [|apply IH; assumption].
  destruct (bool_decide (Color_ (piece_at h p) = player)); [|apply IH; assumption].
  destruct (tryMoves_fresh h0 g player (GetValidMoves h (Board (game_at h g)) pos) h He Hf)
    as [He1 Hf1].
  destruct (tryMoves h g player (GetValidMoves h (Board (game_at h g)) pos)) as [h1 found].
  simpl in He1, Hf1. destruct found; [split; assumption|].
  apply IH; assumption.
Qed.

Lemma store_game_fresh (h0 h : heap) (g : ptr) (x : Game) :
  heap_extends h0 h -> fresh_game h0 h g -> Board x = Board (game_at h g) ->
  heap_extends h0 (store_game h g x) /\ fresh_game h0 (store_game h g x) g.
Proof.
  intros He [Hg Hf] Hb. split; [apply heap_extends_store_game; assumption|].
  split; [exact Hg|].
  assert (E : Board (game_at (store_game h g x) g) = Board (game_at h g)).
  { destruct (decide (g < length (games h))%nat) as [Hlt|Hge].
    - rewrite game_at_store_game by exact Hlt. exact Hb.
    - unfold game_at, store_game. simpl. rewrite list_insert_ge by lia. reflexivity. }
  rewrite E. exact Hf.
Qed.

Lemma updateGameState_fresh (h0 h : heap) (g : ptr) :
  heap_extends h0 h -> fresh_game h0 h g ->
  heap_extends h0 (updateGameState h g) /\ fresh_game h0 (updateGameState h g) g.
Proof.
  intros He Hf. unfold updateGameState, hasValidMoves.
  destruct (hasValidMoves_from_fresh h0 g (CurrentPlayer (game_at h g)) all_positions h He Hf)
    as [He1 Hf1].
  destruct (hasValidMoves_from h g (CurrentPlayer (game_at h g)) all_positions) as [h1 has].
  simpl in He1, Hf1.
  destruct (isInCheck h g (CurrentPlayer (game_at h g))), has; simpl;
    apply store_game_fresh; try assumption; reflexivity.
Qed.

(** [MakeMove] on a game allocated after [h0] writes no cell of [h0]. *)
Lemma MakeMove_fresh (h0 h : heap) (g : ptr) (from to : string) :
  heap_extends h0 h -> fresh_game h0 h g ->
  heap_extends h0 (fst (MakeMove h g from to)).
Proof.
  intros He Hf. unfold MakeMove.
  destruct (FromAlgebraic from) as [fromPos [e|]]; [exact He|].
  destruct (FromAlgebraic to) as [toPos [e|]]; [exact He|].
  destruct (IsValidMove _ _ _ _); simpl; [|exact He].
  destruct Hf as [Hg Hf].
  destruct (MovePiece_fresh h0 h (Board (game_at h g)) fromPos toPos He Hf) as [He1 Hf1].
  set (h1 := fst (MovePiece h (Board (game_at h g)) fromPos toPos)) in *.
  assert (Hf1' : fresh_game h0 h1 g).
  { split; [exact Hg|]. unfold h1. rewrite game_at_MovePiece. exact Hf1. }
  cbv zeta.
  match goal with
  | |- heap_extends h0 (updateGameState (store_game (store_game h1 g ?x1) g ?x2) g) =>
      destruct (store_game_fresh h0 h1 g x1 He1 Hf1' eq_refl) as [He2 Hf2];
      destruct (store_game_fresh h0 (store_game h1 g x1) g x2 He2 Hf2 eq_refl) as [He3 Hf3];
      exact (proj1 (updateGameState_fresh h0 _ g He3 Hf3))
  end.
Qed.

(** ** Clones *)

Lemma place_row_fresh (h0 : heap) (ts : list PieceType) (color : Color) :
  forall (row col : Z) (st : heap * list (option ptr)),
  heap_extends h0 (fst st) ->
  (forall i p, snd st !! i = Some (Some p) -> (length (pieces h0) <= p)%nat) ->
  let st' := place_row row col ts color st in
  heap_extends h0 (fst st')
  /\ (forall i p, snd st' !! i = Some (Some p) -> (length (pieces h0) <= p)%nat)
  /\ boards (fst st') = boards (fst st) /\ games (fst st') = games (fst st).
Proof.
  induction ts as [|t ts IH]; intros row col [h sq] He Hsq; simpl in *.
  - split; [exact He | split; [exact Hsq | split; reflexivity]].
  - specialize (IH row (col + 1)
      (mkHeap (pieces h ++ [mkPiece t color false]) (boards h) (games h),
       <[Z.to_nat (8 * row + col) := Some (length (pieces h))]> sq)).
    simpl in IH. apply IH.
    + apply (heap_extends_alloc_piece h0 h (mkPiece t color false) He).
    + intros i p. rewrite list_lookup_insert. case_decide; [|apply Hsq].
      intros [= <-]. apply heap_extends_length in He. lia.
Qed.

Lemma setupInitialPosition_fresh (h0 h : heap) (b : ptr) :
  heap_extends h0 h -> (length (boards h0) <= b)%nat -> (b < length (boards h))%nat ->
  heap_extends h0 (setupInitialPosition h b)
  /\ fresh_board h0 (setupInitialPosition h b) b
  /\ games (setupInitialPosition h b) = games h.
Proof.
  intros He Hb Hlt. unfold setupInitialPosition. cbv zeta.
  set (st0 := (h, replicate 64 (@None nat))).
  assert (H0 : forall i p, snd st0 !! i = Some (Some p) -> (length (pieces h0) <= p)%nat).
  { intros i p Hi. unfold st0 in Hi. cbn [snd] in Hi.
    apply lookup_replicate in Hi as [Hi _]. discriminate. }
  destruct (place_row_fresh h0 back_rank White 7 0 st0 He H0) as (Ha & Ha' & Ba & Ga).
  set (sta := place_row 7 0 back_rank White st0) in *.
  destruct (place_row_fresh h0 (replicate 8 Pawn) White 6 0 sta Ha Ha') as (Hb1 & Hb' & Bb & Gb).
  set (stb := place_row 6 0 (replicate 8 Pawn) White sta) in *.
  destruct (place_row_fresh h0 back_rank Black 0 0 stb Hb1 Hb') as (Hc & Hc' & Bc & Gc).
  set (stc := place_row 0 0 back_rank Black stb) in *.
  destruct (place_row_fresh h0 (replicate 8 Pawn) Black 1 0 stc Hc Hc') as (Hd & Hd' & Bd & Gd).
  set (std := place_row 1 0 (replicate 8 Pawn) Black stc) in *.
  clearbody sta stb stc std.
  assert (Eb : boards (fst std) = boards h) by (rewrite Bd, Bc, Bb, Ba; reflexivity).
  assert (Eg : games (fst std) = games h) by (rewrite Gd, Gc, Gb, Ga; reflexivity).
  split; [apply heap_extends_store_board; assumption|].
  split; [|exact Eg].
  split; [exact Hb|].
  intros i p. unfold board_at, store_board. cbn [boards].
  rewrite list_lookup_insert_eq by (rewrite Eb; exact Hlt).
  cbn [default]. apply Hd'.
Qed.

Lemma NewBoard_fresh (h0 h : heap) :
  heap_extends h0 h ->
  heap_extends h0 (fst (NewBoard h))
  /\ fresh_board h0 (fst (NewBoard h)) (snd (NewBoard h))
  /\ games (fst (NewBoard h)) = games h.
Proof.
  intros He.
  assert (E : NewBoard h
              = (setupInitialPosition (fst (alloc_board h (replicate 64 None)))
                   (length (boards h)), length (boards h))) by reflexivity.
  rewrite E. cbn [fst snd].
  apply (setupInitialPosition_fresh h0 (fst (alloc_board h (replicate 64 None)))
           (length (boards h))).
  - apply heap_extends_alloc_board, He.
  - apply heap_extends_length in He. tauto.
  - cbn [alloc_board fst boards]. rewrite length_app. cbn [length]. lia.
Qed.

Lemma fresh_board_alloc_piece (h0 h : heap) (b : ptr) (x : Piece) :
  fresh_board h0 h b -> fresh_board h0 (fst (alloc_piece h x)) b.
Proof. intros H. exact H. Qed.

Lemma copy_square_fresh (h0 : heap) (game newBoard : ptr) (h : heap) (pos : Position) :
  heap_extends h0 h -> fresh_board h0 h newBoard ->
  heap_extends h0 (copy_square game newBoard h pos)
  /\ fresh_board h0 (copy_square game newBoard h pos) newBoard
  /\ games (copy_square game newBoard h pos) = games h.
Proof.
  intros He Hf. unfold copy_square.
  destruct (GetPiece h (Board (game_at h game)) pos) as [piece|];
    [|split; [exact He | split; [exact Hf | reflexivity]]].
  set (x := mkPiece _ _ false).
  change (let '(h1, newPiece) := alloc_piece h x in SetPiece h1 newBoard pos (Some newPiece))
    with (SetPiece (fst (alloc_piece h x)) newBoard pos (Some (length (pieces h)))).
  pose proof (heap_extends_alloc_piece h0 h x He) as He1.
  pose proof (fresh_board_alloc_piece h0 h newBoard x Hf) as Hf1.
  destruct (SetPiece_fresh h0 (fst (alloc_piece h x)) newBoard pos (Some (length (pieces h)))
              He1 Hf1) as [He2 Hf2].
  { intros p [= <-]. apply heap_extends_length in He. lia. }
  split; [exact He2 | split; [exact Hf2|]].
  rewrite games_SetPiece. reflexivity.
Qed.

Lemma copy_squares_fresh (h0 : heap) (game newBoard : ptr) (squares : list Position) :
  forall h, heap_extends h0 h -> fresh_board h0 h newBoard ->
  heap_extends h0 (foldl (copy_square game newBoard) h squares)
  /\ fresh_board h0 (foldl (copy_square game newBoard) h squares) newBoard
  /\ games (foldl (copy_square game newBoard) h squares) = games h.
Proof.
  induction squares as [|pos rest IH]; intros h He Hf; cbn [foldl];
    [split; [exact He | split; [exact Hf | reflexivity]]|].
  destruct (copy_square_fresh h0 game newBoard h pos He Hf) as (He1 & Hf1 & Eg1).
  destruct (IH _ He1 Hf1) as (He2 & Hf2 & Eg2).
  split; [exact He2 | split; [exact Hf2 | congruence]].
Qed.

(** [copyGame] writes no cell of the heap it is called on, and the game
    it returns, with its board and pieces, is made of new cells. *)
Lemma copyGame_fresh (h : heap) (game : ptr) (h' : heap) (g' : ptr) :
  copyGame h game = (h', g') -> heap_extends h h' /\ fresh_game h h' g'.
Proof.
  unfold copyGame. generalize all_positions. intros squares.
  destruct (NewBoard_fresh h h (heap_extends_refl h)) as (He1 & Hf1 & Eg1).
  destruct (NewBoard h) as [h1 board]. cbn [fst snd] in He1, Hf1, Eg1.
  set (x := mkGame board _ _ _).
  pose proof (heap_extends_alloc_game h h1 x He1) as He2.
  assert (Hf2 : fresh_board h (fst (alloc_game h1 x)) board) by exact Hf1.
  assert (Eg2 : games (fst (alloc_game h1 x)) = (games h1 ++ [x])%list) by reflexivity.
  assert (En : snd (alloc_game h1 x) = length (games h1)) by reflexivity.
  destruct (alloc_game h1 x) as [h2 newGame]. cbn [fst snd] in He2, Hf2, Eg2, En.
  subst newGame.
  destruct (copy_squares_fresh h game board squares h2 He2 Hf2) as (He3 & Hf3 & Eg3).
  set (h3 := foldl (copy_square game board) h2 squares) in *.
  assert (Hbx : Board x = board) by reflexivity.
  clearbody h3. clearbody x.
  assert (Ex : game_at h3 (length (games h1)) = x).
  { unfold game_at. rewrite Eg3, Eg2.
    rewrite lookup_app_r by lia. rewrite Nat.sub_diag. reflexivity. }
  assert (Hg : (length (games h) <= length (games h1))%nat) by (rewrite Eg1; lia).
  assert (Hf3' : fresh_game h h3 (length (games h1))).
  { split; [exact Hg|]. rewrite Ex, Hbx. exact Hf3. }
  intros [= <- <-].
  apply store_game_fresh; try assumption. reflexivity.
Qed.

(** ** The search writes only cells of its own *)

Lemma returned_heap {A : Type} (x r : A * heap) : Some x = Some r -> snd r = snd x.
Proof. intros [= <-]. reflexivity. Qed.

Lemma explore_fresh (h : heap) (game : ptr) (move : Move) :
  heap_extends h
    (fst (MakeMove (fst (copyGame h game)) (snd (copyGame h game))
            (Position_String (From move)) (Position_String (To move)))).
Proof.
  destruct (copyGame h game) as [h1 gameCopy] eqn:Ecopy. cbn [fst snd].
  destruct (copyGame_fresh h game h1 gameCopy Ecopy) as [He Hf].
  apply MakeMove_fresh; assumption.
Qed.

Lemma minimax_moves_frame
    (search : AI -> heap -> ptr -> Z -> bool -> float -> float -> Z -> outcome float)
    (game : ptr) (depth : Z) (isMaximizing : bool) (ply : Z) :
  (forall ai h g d m a b p r, search ai h g d m a b p = Some r -> heap_extends h (snd r)) ->
  forall moves ai h alpha beta bestScore r,
  minimax_moves search game depth isMaximizing ply moves ai h alpha beta bestScore = Some r ->
  heap_extends h (snd r).
Proof.
  intros Hsearch. induction moves as [|move rest IH]; intros ai h alpha beta bestScore r.
  - cbn [minimax_moves]. intros Hr; rewrite (returned_heap _ _ Hr); apply heap_extends_refl.
  - cbn [minimax_moves].
    pose proof (explore_fresh h game move) as He.
    destruct (copyGame h game) as [h1 gameCopy]. cbn [fst snd] in He.
    destruct (MakeMove h1 gameCopy _ _) as [h2 err]. cbn [fst] in He.
    destruct err as [e|].
    + intros Hr. apply (heap_extends_trans h h2 _ He). apply (IH _ _ _ _ _ _ Hr).
    + set (call := if isMaximizing then _ else _).
      assert (Hcall : forall r', call = Some r' -> heap_extends h2 (snd r')).
      { intros r'. unfold call. destruct isMaximizing; apply Hsearch. }
      destruct call as [[[score ai'] h3]|]; [|discriminate].
      specialize (Hcall _ eq_refl). cbn [snd] in Hcall.
      pose proof (heap_extends_trans h h2 h3 He Hcall) as He3.
      destruct (PrimFloat.leb _ _).
      * intros Hr. rewrite (returned_heap _ _ Hr). exact He3.
      * intros Hr. apply (heap_extends_trans h h3 _ He3). apply (IH _ _ _ _ _ _ Hr).
Qed.

Lemma minimax_frame (sort_Slice : forall A : Type, (A -> A -> bool) -> list A -> list A)
    (fuel : nat) :
  forall ai h game depth isMaximizing alpha beta ply r,
  minimax sort_Slice fuel ai h game depth isMaximizing alpha beta ply = Some r ->
  heap_extends h (snd r).
Proof.
  induction fuel as [|fuel IH]; intros ai h game depth isMaximizing alpha beta ply r.
  - discriminate.
  - cbn [minimax].
    destruct (probe_table _ _ _ _ _) as [score|[alpha' beta']].
    { intros Hr; rewrite (returned_heap _ _ Hr); apply heap_extends_refl. }
    destruct (_ || _).
    { intros Hr; rewrite (returned_heap _ _ Hr); apply heap_extends_refl. }
    destruct (getAllPossibleMoves h game) as [|m ms].
    { destruct (isInCheck _ _ _); [destruct isMaximizing|];
        intros Hr; rewrite (returned_heap _ _ Hr); apply heap_extends_refl. }
    destruct (orderMoves _ _ _ _ _ _) as [orderedMoves|]; [|discriminate].
    destruct (minimax_moves _ _ _ _ _ _ _ _ _ _ _) as [[[[[a b] best] ai'] h']|] eqn:Hloop;
      [|discriminate].
    intros Hr. rewrite (returned_heap _ _ Hr). cbn [snd].
    apply (minimax_moves_frame _ _ _ _ _ IH _ _ _ _ _ _ _ Hloop).
Qed.

Lemma GetBestMove_moves_frame
    (sort_Slice : forall A : Type, (A -> A -> bool) -> list A -> list A)
    (currentDepth : Z) (game : ptr) :
  forall moves ai h tempBestMove tempBestScore r,
  GetBestMove_moves sort_Slice currentDepth game moves ai h tempBestMove tempBestScore
    = Some r ->
  heap_extends h (snd r).
Proof.
  induction moves as [|move rest IH]; intros ai h tempBestMove tempBestScore r.
  - cbn [GetBestMove_moves]. intros Hr; rewrite (returned_heap _ _ Hr); apply heap_extends_refl.
  - cbn [GetBestMove_moves].
    pose proof (explore_fresh h game move) as He.
    destruct (copyGame h game) as [h1 gameCopy]. cbn [fst snd] in He.
    destruct (MakeMove h1 gameCopy _ _) as [h2 err]. cbn [fst] in He.
    destruct err as [e|].
    + intros Hr. apply (heap_extends_trans h h2 _ He). apply (IH _ _ _ _ _ Hr).
    + destruct (minimax _ _ _ _ _ _ _ _ _ _) as [[[score ai'] h3]|] eqn:Hcall; [|discriminate].
      apply minimax_frame in Hcall. cbn [snd] in Hcall.
      pose proof (heap_extends_trans h h2 h3 He Hcall) as He3.
      destruct (PrimFloat.ltb _ _);
        intros Hr; apply (heap_extends_trans h h3 _ He3); apply (IH _ _ _ _ _ Hr).
Qed.

Lemma GetBestMove_depths_frame
    (sort_Slice : forall A : Type, (A -> A -> bool) -> list A -> list A)
    (allMoves : list Move) (game : ptr) :
  forall depths ai h bestMove bestScore r,
  GetBestMove_depths sort_Slice allMoves game depths ai h bestMove bestScore = Some r ->
  heap_extends h (snd r).
Proof.
  induction depths as [|currentDepth rest IH]; intros ai h bestMove bestScore r.
  - cbn [GetBestMove_depths]. intros Hr; rewrite (returned_heap _ _ Hr); apply heap_extends_refl.
  - cbn [GetBestMove_depths].
    destruct (orderMoves _ _ _ _ _ _) as [orderedMoves|]; [|discriminate].
    destruct (GetBestMove_moves _ _ _ _ _ _ _ _) as [[[[tm ts] ai'] h1]|] eqn:Hm;
      [|discriminate].
    apply GetBestMove_moves_frame in Hm. cbn [snd] in Hm.
    destruct (PrimFloat.ltb _ _);
      intros Hr; apply (heap_extends_trans h h1 _ Hm); apply (IH _ _ _ _ _ Hr).
Qed.

(** Every cell of the heap [GetBestMove] is called on reads the same
    after the call. *)
Lemma GetBestMove_frame (sort_Slice : forall A : Type, (A -> A -> bool) -> list A -> list A)
    (ai : AI) (h : heap) (game : ptr) r :
  GetBestMove sort_Slice ai h game = Some r -> heap_extends h (snd r).
Proof.
  unfold GetBestMove.
  destruct (negb _).
  { intros Hr; rewrite (returned_heap _ _ Hr); apply heap_extends_refl. }
  destruct (getAllPossibleMoves h game) as [|m ms].
  { intros Hr; rewrite (returned_heap _ _ Hr); apply heap_extends_refl. }
  destruct (GetBestMove_depths _ _ _ _ _ _ _ _) as [[[[bm bs] ai'] h']|] eqn:Hd;
    [|discriminate].
  intros Hr. rewrite (returned_heap _ _ Hr).
  apply GetBestMove_depths_frame in Hd. exact Hd.
Qed.

(** ** The search returns *)

Lemma orderMoves_total (sort_Slice : forall A : Type, (A -> A -> bool) -> list A -> list A)
    (ai : AI) (h : heap) (moves : list Move) (game : ptr) (ply : Z) :
  0 <= ply -> is_Some (orderMoves sort_Slice ai h moves game ply).
Proof.
  intros Hply. unfold orderMoves. destruct moves as [|m ms]; [eexists; reflexivity|].
  destruct (Z.ltb_spec ply 0); [lia | eexists; reflexivity].
Qed.

Lemma minimax_moves_total
    (search : AI -> heap -> ptr -> Z -> bool -> float -> float -> Z -> outcome float)
    (game : ptr) (depth : Z) (isMaximizing : bool) (ply : Z) :
  (forall ai h g m a b, is_Some (search ai h g (depth - 1) m a b (ply + 1))) ->
  forall moves ai h alpha beta bestScore,
  is_Some (minimax_moves search game depth isMaximizing ply moves ai h alpha beta bestScore).
Proof.
  intros Hsearch. induction moves as [|move rest IH]; intros ai h alpha beta bestScore.
  - cbn [minimax_moves]. eexists; reflexivity.
  - cbn [minimax_moves].
    destruct (copyGame h game) as [h1 gameCopy].
    destruct (MakeMove h1 gameCopy _ _) as [h2 [e|]]; [apply IH|].
    set (call := if isMaximizing then _ else _).
    assert (Hcall : is_Some call) by (unfold call; destruct isMaximizing; apply Hsearch).
    destruct Hcall as [[[score ai'] h3] ->].
    destruct (PrimFloat.leb _ _); [eexists; reflexivity | apply IH].
Qed.

Lemma minimax_total (sort_Slice : forall A : Type, (A -> A -> bool) -> list A -> list A)
    (fuel : nat) :
  forall ai h game depth isMaximizing alpha beta ply,
  0 <= depth -> (Z.to_nat depth < fuel)%nat -> 0 <= ply ->
  is_Some (minimax sort_Slice fuel ai h game depth isMaximizing alpha beta ply).
Proof.
  induction fuel as [|fuel IH]; intros ai h game depth isMaximizing alpha beta ply Hd Hfuel Hply;
    [lia|].
  cbn [minimax].
  destruct (probe_table _ _ _ _ _) as [score|[alpha' beta']]; [eexists; reflexivity|].
  destruct (Z.eqb_spec depth 0) as [E0|Hne]; [eexists; reflexivity|].
  cbn [orb]. destruct (negb _); [eexists; reflexivity|].
  destruct (getAllPossibleMoves h game) as [|m ms].
  { destruct (isInCheck _ _ _); [destruct isMaximizing|]; eexists; reflexivity. }
  destruct (orderMoves_total sort_Slice ai h (m :: ms) game ply Hply) as [orderedMoves ->].
  set (bestScore := if isMaximizing then neg_infinity else infinity).
  destruct (minimax_moves_total (minimax sort_Slice fuel) game depth isMaximizing ply)
    with (moves := orderedMoves) (ai := ai) (h := h) (alpha := alpha') (beta := beta')
         (bestScore := bestScore) as [[[[[a b] best] ai'] h'] ->].
  { intros ai0 h0 g0 m0 a0 b0. apply IH; lia. }
  eexists; reflexivity.
Qed.

Lemma GetBestMove_moves_total
    (sort_Slice : forall A : Type, (A -> A -> bool) -> list A -> list A)
    (currentDepth : Z) (game : ptr) :
  0 < currentDepth ->
  forall moves ai h tempBestMove tempBestScore,
  is_Some (GetBestMove_moves sort_Slice currentDepth game moves ai h
             tempBestMove tempBestScore).
Proof.
  intros Hd. induction moves as [|move rest IH]; intros ai h tempBestMove tempBestScore.
  - cbn [GetBestMove_moves]. eexists; reflexivity.
  - cbn [GetBestMove_moves].
    destruct (copyGame h game) as [h1 gameCopy].
    destruct (MakeMove h1 gameCopy _ _) as [h2 [e|]]; [apply IH|].
    destruct (minimax_total sort_Slice (Z.to_nat currentDepth) ai h2 gameCopy
                (currentDepth - 1) false neg_infinity infinity 1)
      as [[[score ai'] h3] ->]; [lia | lia | lia |].
    destruct (PrimFloat.ltb _ _); apply IH.
Qed.

Lemma GetBestMove_depths_total
    (sort_Slice : forall A : Type, (A -> A -> bool) -> list A -> list A)
    (allMoves : list Move) (game : ptr) :
  forall depths, Forall (fun d => 0 < d) depths ->
  forall ai h bestMove bestScore,
  is_Some (GetBestMove_depths sort_Slice allMoves game depths ai h bestMove bestScore).
Proof.
  intros depths Hall. induction Hall as [|currentDepth rest Hd Hrest IH];
    intros ai h bestMove bestScore.
  - cbn [GetBestMove_depths]. eexists; reflexivity.
  - cbn [GetBestMove_depths].
    destruct (orderMoves_total sort_Slice ai h allMoves game 0 ltac:(lia)) as [ordered ->].
    destruct (GetBestMove_moves_total sort_Slice currentDepth game Hd ordered ai h
                Move_zero neg_infinity) as [[[[tm ts] ai'] h1] ->].
    destruct (PrimFloat.ltb _ _); apply IH.
Qed.

(** [GetBestMove] returns, whatever the engine, the heap and the game. *)
Lemma GetBestMove_total (sort_Slice : forall A : Type, (A -> A -> bool) -> list A -> list A)
    (ai : AI) (h : heap) (game : ptr) :
  is_Some (GetBestMove sort_Slice ai h game).
Proof.
  unfold GetBestMove.
  destruct (negb _); [eexists; reflexivity|].
  destruct (getAllPossibleMoves h game) as [|m ms]; [eexists; reflexivity|].
  set (ai1 := set_killers ai killerMoves_zero).
  destruct (GetBestMove_depths_total sort_Slice (m :: ms) game (seqZ 1 (ai_depth ai1)))
    with (ai := ai1) (h := h) (bestMove := Move_zero) (bestScore := neg_infinity)
    as [[[[bm bs] ai'] h'] ->].
  { apply Forall_forall. intros d Hd. apply elem_of_seqZ in Hd. lia. }
  eexists; reflexivity.
Qed.

(** C4: [GetBestMove] returns, and every cell of the caller's heap reads
    the same afterwards: the caller's game keeps its board contents at
    every square, its side to move, its state label and its move history.
    Whatever the search writes, it writes to cells allocated during the
    call (the clones). *)
Theorem GetBestMove_keeps_game
    (sort_Slice : forall A : Type, (A -> A -> bool) -> list A -> list A)
    (ai : AI) (h : heap) (game : ptr) :
  wf_game h game ->
  exists result ai' h',
    GetBestMove sort_Slice ai h game = Some (result, ai', h')
    /\ heap_extends h h'
    /\ game_at h' game = game_at h game
    /\ forall pos,
         square_contents h' (Board (game_at h' game)) pos
         = square_contents h (Board (game_at h game)) pos.
Proof.
  intros (Hg & Hb & Hlen & Hp).
  destruct (GetBestMove_total sort_Slice ai h game) as [[[result ai'] h'] Hr].
  exists result, ai', h'. split; [exact Hr|].
  pose proof (GetBestMove_frame sort_Slice ai h game _ Hr) as He. cbn [snd] in He.
  split; [exact He|].
  destruct He as (Hpp & Hpb & Hpg).
  assert (Egame : game_at h' game = game_at h game).
  { unfold game_at. destruct (lookup_lt_is_Some_2 (games h) game Hg) as [x Hx].
    rewrite Hx, (prefix_lookup_Some _ _ _ _ Hx Hpg). reflexivity. }
  split; [exact Egame|].
  intros pos. rewrite Egame. set (b := Board (game_at h game)) in *.
  assert (Eboard : board_at h' b = board_at h b).
  { unfold board_at. destruct (lookup_lt_is_Some_2 (boards h) b Hb) as [x Hx].
    rewrite Hx, (prefix_lookup_Some _ _ _ _ Hx Hpb). reflexivity. }
  assert (Eget : GetPiece h' b pos = GetPiece h b pos).
  { unfold GetPiece. rewrite Eboard. reflexivity. }
  unfold square_contents. rewrite Eget.
  destruct (GetPiece h b pos) as [p|] eqn:Hget; [|reflexivity].
  cbn [fmap option_fmap option_map]. f_equal.
  unfold piece_at. destruct (lookup_lt_is_Some_2 (pieces h) p (Hp pos p Hget)) as [x Hx].
  rewrite Hx, (prefix_lookup_Some _ _ _ _ Hx Hpp). reflexivity.
Qed.

(** ** Concrete positions *)

Lemma wf_gameb_correct (h : heap) (g : ptr) : wf_gameb h g = true -> wf_game h g.
Proof.
  unfold wf_gameb, wf_game. rewrite !andb_true_iff.
  intros [[[Hg Hb] Hlen] Hall].
  apply Nat.ltb_lt in Hg, Hb. apply Nat.eqb_eq in Hlen.
  repeat split; try assumption.
  intros pos p Hp. apply GetPiece_lookup in Hp as [_ Hp].
  rewrite forallb_forall in Hall.
  specialize (Hall (Some p)). apply Nat.ltb_lt, Hall.
  apply list_elem_of_In, list_elem_of_lookup. eexists. exact Hp.
Qed.

Lemma wf_game_start : wf_game start_heap start_game.
Proof. apply wf_gameb_correct. vm_compute. reflexivity. Qed.

Lemma FromAlgebraic_String_roundtrip_e4 :
  in_board_range 4 /\ in_board_range 4
  /\ FromAlgebraic (Position_String (NewPosition 4 4)) = (NewPosition 4 4, None).
Proof.
  assert (H : in_board_range 4) by (unfold in_board_range; lia).
  split; [exact H | split; [exact H|]].
  exact (FromAlgebraic_String_roundtrip 4 4 H H).
Defined.

Lemma MakeMove_classifies_e2e4 :
  wf_game start_heap start_game
  /\ snd (MakeMove start_heap start_game "e2" "e4") = None
  /\ classified (fst (MakeMove start_heap start_game "e2" "e4")) start_game.
Proof.
  assert (Hok : snd (MakeMove start_heap start_game "e2" "e4") = None)
    by (vm_compute; reflexivity).
  split; [exact wf_game_start | split; [exact Hok|]].
  exact (proj2 (MakeMove_classifies start_heap start_game "e2" "e4" wf_game_start Hok)).
Defined.

Lemma GetBestMove_keeps_game_start :
  wf_game start_heap start_game
  /\ exists result ai' h',
       GetBestMove insertion_sort (NewAI White 1) start_heap start_game
         = Some (result, ai', h')
       /\ heap_extends start_heap h'
       /\ game_at h' start_game = game_at start_heap start_game
       /\ forall pos,
            square_contents h' (Board (game_at h' start_game)) pos
            = square_contents start_heap (Board (game_at start_heap start_game)) pos.
Proof.
  split; [exact wf_game_start|].
  exact (GetBestMove_keeps_game insertion_sort (NewAI White 1) start_heap start_game
           wf_game_start).
Defined.

Lemma isValidPawnMove_iff_e2e4 :
  let e2e4 := NewMove (NewPosition 6 4) (NewPosition 4 4) in
  let b := Board (game_at start_heap start_game) in
  IsValid (From e2e4) = true /\ in_int64 (Row (To e2e4)) /\ in_int64 (Col (To e2e4))
  /\ (isValidPawnMove start_heap b e2e4 12%nat = true
      <-> pawn_rule start_heap b e2e4 (Color_ (piece_at start_heap 12%nat))).
Proof.
  intros e2e4 b.
  assert (Hv : IsValid (From e2e4) = true) by reflexivity.
  assert (Hr : in_int64 (Row (To e2e4))) by (unfold in_int64; simpl; lia).
  assert (Hc : in_int64 (Col (To e2e4))) by (unfold in_int64; simpl; lia).
  split; [exact Hv | split; [exact Hr | split; [exact Hc|]]].
  exact (isValidPawnMove_iff start_heap b e2e4 12%nat Hv Hr Hc).
Defined.

(** In the smothered position White is in check and has no pseudo-legal
    move, and a fresh engine's table does not answer. *)
Lemma minimax_no_moves_smothered :
  let h := fst smothered in
  let game := snd smothered in
  let ai := NewAI White 3 in
  probe_table ai (hashPosition h game) 2 neg_infinity infinity = inr (neg_infinity, infinity)
  /\ 0 < 2
  /\ State (game_at h game) = Playing
  /\ getAllPossibleMoves h game = []
  /\ isInCheck h game (CurrentPlayer (game_at h game)) = true
  /\ minimax insertion_sort 3 ai h game 2 true neg_infinity infinity 1
     = Some ((-1000.0 + float64_of_int 1)%float, ai, h).
Proof.
  intros h game ai.
  assert (Hprobe : probe_table ai (hashPosition h game) 2 neg_infinity infinity
                   = inr (neg_infinity, infinity)) by reflexivity.
  assert (Hdepth : 0 < 2) by lia.
  assert (Hstate : State (game_at h game) = Playing) by reflexivity.
  assert (Hmoves : getAllPossibleMoves h game = []) by (vm_compute; reflexivity).
  assert (Hcheck : isInCheck h game (CurrentPlayer (game_at h game)) = true)
    by (vm_compute; reflexivity).
  split; [exact Hprobe | split; [exact Hdepth | split; [exact Hstate |
    split; [exact Hmoves | split; [exact Hcheck|]]]]].
  pose proof (proj1 (minimax_no_moves insertion_sort 2 ai h game 2 true
                       neg_infinity infinity 1 (neg_infinity, infinity)
                       Hprobe Hdepth Hstate Hmoves)) as Hres.
  rewrite Hcheck in Hres. exact Hres.
Defined.

(** A table entry deep enough and exact answers the call before any move
    is looked at. *)
Lemma minimax_table_hit (sort_Slice : forall A : Type, (A -> A -> bool) -> list A -> list A)
    (fuel : nat) (ai : AI) (h : heap) (game : ptr) (depth : Z) (isMaximizing : bool)
    (alpha beta : float) (ply : Z) (score : float) :
  probe_table ai (hashPosition h game) depth alpha beta = inl score ->
  minimax sort_Slice (S fuel) ai h game depth isMaximizing alpha beta ply
  = Some (score, ai, h).
Proof. intros Hprobe. cbn [minimax]. rewrite Hprobe. reflexivity. Qed.

(** The pawn rule, at the level of [IsValidMove]: a move of a pawn is
    valid for a player exactly when the pawn is that player's and the
    move is one of the three pawn moves. *)
Lemma IsValidMove_pawn_iff (h : heap) (b : ptr) (move : Move) (player : Color) (piece : ptr) :
  GetPiece h b (From move) = Some piece ->
  Type_ (piece_at h piece) = Pawn ->
  in_int64 (Row (To move)) -> in_int64 (Col (To move)) ->
  (IsValidMove h b move player = true
   <-> Color_ (piece_at h piece) = player /\ pawn_rule h b move player).
Proof.
  intros Hp Hty Hr Hc.
  pose proof (proj1 (GetPiece_lookup h b _ _ Hp)) as Hv.
  pose proof (isValidPawnMove_rule h b move piece Hv Hr Hc) as Hpawn.
  unfold IsValidMove. rewrite Hp, Hty.
  destruct (bool_decide_reflect (Color_ (piece_at h piece) = player)) as [Ec|Ec]; cbn [negb].
  - rewrite Ec in *. 
    destruct (GetPiece h b (To move)) as [q|] eqn:Hq.
    + destruct (bool_decide_reflect (Color_ (piece_at h q) = player)) as [Eq|Eq].
      * split; [discriminate|]. intros [_ Hrule]. exfalso.
        unfold pawn_rule, empty_square, holds_opponent_of in Hrule. rewrite Hq in Hrule.
        destruct Hrule as [(_ & _ & ?) | [(_ & _ & _ & _ & ?) | (_ & _ & (q' & [= <-] & ?))]];
          congruence.
      * rewrite Hpawn. tauto.
    + rewrite Hpawn. tauto.
  - split; [discriminate | tauto].
Qed.

(** ** The path loop ends *)

Lemma isPathClear_loop_steps (h : heap) (b : ptr) (rs cs : Z) (to : Position) (fuel : nat) :
  forall (k : nat) (r c : Z),
  (k <= fuel)%nat ->
  Row to - r = Z.of_nat k * rs -> Col to - c = Z.of_nat k * cs ->
  is_Some (isPathClear_loop fuel h b rs cs r c to).
Proof.
  induction fuel as [|fuel IH]; intros k r c Hk Hr Hc.
  - assert (k = 0%nat) as -> by lia. cbn [Z.of_nat] in Hr, Hc.
    assert (r = Row to) as -> by lia. assert (c = Col to) as -> by lia.
    cbn [isPathClear_loop]. rewrite !Z.eqb_refl. eexists; reflexivity.
  - cbn [isPathClear_loop].
    destruct (Z.eqb_spec r (Row to)) as [Er|Er], (Z.eqb_spec c (Col to)) as [Ec|Ec];
      cbn [negb orb]; try (eexists; reflexivity);
      (destruct (GetPiece h b (NewPosition r c)); [eexists; reflexivity|]);
      (destruct k as [|k]; [simpl in *; lia|]);
      apply (IH k); lia.
Qed.

(** On a common row, column or diagonal the loop of [isPathClear] reaches
    [to] within the iterations the model grants it. *)
Lemma isPathClear_loop_aligned (h : heap) (b : ptr) (from to : Position) :
  aligned from to ->
  is_Some (isPathClear_loop (path_fuel from to) h b
             (path_step (Row from) (Row to)) (path_step (Col from) (Col to))
             (Row from + path_step (Row from) (Row to))
             (Col from + path_step (Col from) (Col to)) to).
Proof.
  intros Hal. unfold aligned in Hal.
  set (n := path_fuel from to).
  assert (Hn : Z.of_nat n = Z.max (Z.abs (Row to - Row from)) (Z.abs (Col to - Col from))).
  { unfold n, path_fuel. lia. }
  clearbody n. unfold path_step.
  destruct (Z.gtb_spec (Row to) (Row from)), (Z.ltb_spec (Row to) (Row from)),
           (Z.gtb_spec (Col to) (Col from)), (Z.ltb_spec (Col to) (Col from));
    try lia; apply (isPathClear_loop_steps h b _ _ to n (Nat.pred n)); lia.
Qed.

(** Both callers of [isPathClear] pass aligned squares: the rook test
    always, the bishop test for squares of the board. *)
Lemma isValidRookMove_aligned (move : Move) :
  negb (Row (From move) =? Row (To move)) && negb (Col (From move) =? Col (To move)) = false ->
  aligned (From move) (To move).
Proof.
  unfold aligned. intros H. apply andb_false_iff in H as [H|H];
    apply negb_false_iff, Z.eqb_eq in H; auto.
Qed.

Lemma isValidBishopMove_aligned (move : Move) :
  IsValid (From move) = true -> IsValid (To move) = true ->
  negb (abs_int (sub64 (Row (To move)) (Row (From move)))
        =? abs_int (sub64 (Col (To move)) (Col (From move)))) = false ->
  aligned (From move) (To move).
Proof.
  intros Hf Ht H. apply negb_false_iff, Z.eqb_eq in H.
  apply IsValid_spec in Hf as [Hfr Hfc]. apply IsValid_spec in Ht as [Htr Htc].
  unfold in_board_range in *. unfold aligned, abs_int, sub64 in *.
  rewrite !wrap64_small in H by (unfold in_int64; lia). auto.
Qed.

(** ** What a clone holds *)

(** [copyGame] starts from [NewBoard] and copies the occupied squares
    only: a square that is empty in the source keeps the piece of the
    starting position.  After 1. e2-e4 the source has e2 empty, and the
    clone holds a white pawn on e2 as well as on e4. *)
Lemma copyGame_keeps_starting_pieces :
  let h := fst (MakeMove start_heap start_game "e2" "e4") in
  let clone := copyGame h start_game in
  let e2 := NewPosition 6 4 in
  let e4 := NewPosition 4 4 in
  square_contents h (Board (game_at h start_game)) e2 = None
  /\ square_contents (fst clone) (Board (game_at (fst clone) (snd clone))) e2
     = Some (mkPiece Pawn White false)
  /\ square_contents (fst clone) (Board (game_at (fst clone) (snd clone))) e4
     = Some (mkPiece Pawn White false).
Proof. vm_compute. repeat split. Qed.

(** ** The codec, the other way round *)

(** The decimal text of a digit value 1..8 is the digit's character. *)
Lemma fmt_d_digit (b : ascii) :
  49 <= Z.of_N (N_of_ascii b) <= 56 ->
  fmt_d (Z.of_N (N_of_ascii b) - 48) = String b EmptyString.
Proof.
  intros H. rewrite <- (ascii_N_embedding b) at 2.
  revert H. generalize (N_of_ascii b). intros n H.
  assert (n = 49 \/ n = 50 \/ n = 51 \/ n = 52 \/ n = 53 \/ n = 54 \/ n = 55 \/ n = 56)%N
    as D by lia.
  repeat (destruct D as [->|D]; [reflexivity|]). subst n. reflexivity.
Qed.

(** Decoding, then encoding. *)
Lemma FromAlgebraic_inverse (s : string) (p : Position) :
  FromAlgebraic s = (p, None) -> IsValid p = true /\ Position_String p = s.
Proof.
  unfold FromAlgebraic.
  destruct (negb (String.length s =? 2)%nat) eqn:Hlen; [discriminate|].
  apply negb_false_iff, Nat.eqb_eq in Hlen.
  destruct s as [|a [|b [|? ?]]]; try discriminate. clear Hlen.
  cbn [byte_at String.get].
  set (x := Z.of_N (N_of_ascii a)). set (y := Z.of_N (N_of_ascii b)).
  destruct (negb (IsValid _)) eqn:Hv; [discriminate|].
  intros [= <-]. apply negb_false_iff in Hv. split; [exact Hv|].
  pose proof Hv as Hv'. apply IsValid_spec in Hv' as [Hr Hc].
  unfold in_board_range in Hr, Hc. cbn [Row Col] in Hr, Hc.
  assert (Hx : 0 <= x < 256).
  { unfold x. pose proof (N_ascii_bounded a). lia. }
  assert (Hy : 0 <= y < 256).
  { unfold y. pose proof (N_ascii_bounded b). lia. }
  destruct (sub8_cases x 97 Hx ltac:(lia)) as [[Hxa Ex]|[Hxa Ex]];
    destruct (sub8_cases y 48 Hy ltac:(lia)) as [[Hya Ey]|[Hya Ey]];
    rewrite Ex, Ey in *; try lia.
  unfold Position_String. rewrite Hv. cbn [negb Row Col].
  replace (97 + (x - 97)) with x by lia.
  replace (8 - (8 - (y - 48))) with (y - 48) by lia.
  unfold x at 1. rewrite N2Z.id, ascii_N_embedding.
  unfold y. rewrite fmt_d_digit by (fold y; lia). reflexivity.
Qed.

(** X1: a text that [FromAlgebraic] accepts names a square of the board,
    and [Position.String] of that square is the text again. *)
Theorem FromAlgebraic_then_String (s : string) (p : Position) :
  FromAlgebraic s = (p, None) -> IsValid p = true /\ Position_String p = s.
Proof. apply FromAlgebraic_inverse. Qed.

Lemma FromAlgebraic_then_String_h8 :
  FromAlgebraic "h8" = (NewPosition 0 7, None)
  /\ IsValid (NewPosition 0 7) = true /\ Position_String (NewPosition 0 7) = "h8".
Proof.
  assert (H : FromAlgebraic "h8" = (NewPosition 0 7, None)) by reflexivity.
  split; [exact H|]. exact (FromAlgebraic_then_String "h8" (NewPosition 0 7) H).
Defined.

(** Encoding, then decoding, on each of the 64 squares. *)
Lemma String_parses_table :
  forallb (fun p => bool_decide (FromAlgebraic (Position_String p) = (p, None))) all_positions
  = true.
Proof. vm_compute. reflexivity. Qed.

(** X2: [Position.String] of a position parses back exactly when the
    position is on the board; a position off the board prints as
    ["invalid"], which [FromAlgebraic] rejects for its length. *)
Theorem Position_String_parses_iff (p : Position) :
  (snd (FromAlgebraic (Position_String p)) = None <-> IsValid p = true)
  /\ (IsValid p = true -> FromAlgebraic (Position_String p) = (p, None))
  /\ (IsValid p = false ->
      Position_String p = "invalid"
      /\ FromAlgebraic (Position_String p)
         = (Position_zero, Some "invalid notation: invalid")).
Proof.
  assert (Hok : IsValid p = true -> FromAlgebraic (Position_String p) = (p, None)).
  { intros Hv. apply elem_of_all_positions in Hv.
    pose proof String_parses_table as T. rewrite forallb_forall in T.
    apply list_elem_of_In in Hv. apply T in Hv. by apply bool_decide_eq_true in Hv. }
  assert (Hbad : IsValid p = false ->
      Position_String p = "invalid"
      /\ FromAlgebraic (Position_String p)
         = (Position_zero, Some "invalid notation: invalid")).
  { intros Hv. unfold Position_String. rewrite Hv. split; reflexivity. }
  split; [|split; assumption].
  split.
  - intros H. destruct (IsValid p) eqn:Hv; [reflexivity|].
    destruct (Hbad eq_refl) as [_ E]. rewrite E in H. discriminate.
  - intros Hv. rewrite (Hok Hv). reflexivity.
Qed.

(** ** The board: reading after writing *)

(** Read over write, at the square written, at another square and on
    another board. *)
Lemma GetPiece_SetPiece_same (h : heap) (b : ptr) (pos : Position) (v : option ptr) :
  wf_board h b -> IsValid pos = true -> GetPiece (SetPiece h b pos v) b pos = v.
Proof.
  intros [Hb Hlen] Hv. unfold GetPiece. rewrite Hv. cbn [negb].
  rewrite board_at_SetPiece, Hv.
  rewrite list_lookup_insert_eq by (rewrite Hlen; by apply square_index_lt).
  reflexivity.
Qed.

Lemma GetPiece_SetPiece_other (h : heap) (b : ptr) (pos pos' : Position) (v : option ptr) :
  pos' <> pos -> GetPiece (SetPiece h b pos v) b pos' = GetPiece h b pos'.
Proof.
  intros Hne. unfold GetPiece. destruct (IsValid pos') eqn:Hv'; [|reflexivity]. cbn [negb].
  rewrite board_at_SetPiece. destruct (IsValid pos) eqn:Hv; [|reflexivity].
  rewrite list_lookup_insert_ne; [reflexivity|].
  intros E. apply Hne. symmetry. by apply square_index_inj.
Qed.

Lemma GetPiece_SetPiece_board (h : heap) (b b' : ptr) (pos pos' : Position) (v : option ptr) :
  b <> b' -> GetPiece (SetPiece h b pos v) b' pos' = GetPiece h b' pos'.
Proof. intros Hne. unfold GetPiece. by rewrite board_at_SetPiece_ne. Qed.

(** X3: on a board of the heap, [GetPiece] after [SetPiece] reads the
    value written at the square written and the old value at any other
    square or board; [SetPiece] off the board writes nothing, and
    [GetPiece] off the board reads nil. *)
Theorem GetPiece_after_SetPiece (h : heap) (b : ptr) (pos : Position) (v : option ptr) :
  wf_board h b ->
  (IsValid pos = true -> GetPiece (SetPiece h b pos v) b pos = v)
  /\ (forall pos', pos' <> pos -> GetPiece (SetPiece h b pos v) b pos' = GetPiece h b pos')
  /\ (forall b' pos', b <> b' -> GetPiece (SetPiece h b pos v) b' pos' = GetPiece h b' pos')
  /\ (IsValid pos = false -> SetPiece h b pos v = h /\ GetPiece h b pos = None)
  /\ pieces (SetPiece h b pos v) = pieces h
  /\ games (SetPiece h b pos v) = games h.
Proof.
  intros Hwf. split; [|split; [|split; [|split; [|split]]]].
  - intros Hv. by apply GetPiece_SetPiece_same.
  - intros pos' Hne. by apply GetPiece_SetPiece_other.
  - intros b' pos' Hne. by apply GetPiece_SetPiece_board.
  - intros Hv. unfold SetPiece, GetPiece. rewrite Hv. split; reflexivity.
  - apply pieces_SetPiece.
  - apply games_SetPiece.
Qed.

(** ** The board: relocation *)

(** The heap a relocation that is not refused leaves. *)
Lemma MovePiece_true (h : heap) (b : ptr) (from to : Position) (p : ptr) :
  IsValid from = true -> IsValid to = true -> GetPiece h b from = Some p ->
  MovePiece h b from to
  = (store_piece (SetPiece (SetPiece h b to (Some p)) b from None) p
       (mark_moved (piece_at h p)), true).
Proof.
  intros Hf Ht Hp. unfold MovePiece. rewrite Hf, Ht, Hp. cbn [negb orb].
  rewrite !piece_at_SetPiece. reflexivity.
Qed.

Lemma GetPiece_store_piece (h : heap) (p : ptr) (x : Piece) (b : ptr) (pos : Position) :
  GetPiece (store_piece h p x) b pos = GetPiece h b pos.
Proof. reflexivity. Qed.

(** X4: [MovePiece] answers false exactly when an end of the move is off
    the board or the from-square is empty, and then it has written
    nothing. *)
Theorem MovePiece_false_iff (h : heap) (b : ptr) (from to : Position) :
  (snd (MovePiece h b from to) = false
   <-> IsValid from = false \/ IsValid to = false \/ GetPiece h b from = None)
  /\ (snd (MovePiece h b from to) = false -> fst (MovePiece h b from to) = h).
Proof.
  split; [|apply MovePiece_refused].
  unfold MovePiece.
  destruct (IsValid from) eqn:Hf; cbn [negb orb]; [|tauto].
  destruct (IsValid to) eqn:Ht; cbn [negb orb]; [|tauto].
  destruct (GetPiece h b from) as [p|]; cbn [snd]; [|tauto].
  split; [discriminate|]. intros [H|[H|H]]; discriminate.
Qed.

(** What a relocation between two distinct squares does. *)
Lemma MovePiece_moves (h : heap) (b : ptr) (from to : Position) (p : ptr) :
  wf_board h b -> (p < length (pieces h))%nat ->
  IsValid from = true -> IsValid to = true -> from <> to ->
  GetPiece h b from = Some p ->
  let h' := fst (MovePiece h b from to) in
  snd (MovePiece h b from to) = true
  /\ GetPiece h' b to = Some p
  /\ GetPiece h' b from = None
  /\ (forall pos, pos <> from -> pos <> to -> GetPiece h' b pos = GetPiece h b pos)
  /\ piece_at h' p = mkPiece (Type_ (piece_at h p)) (Color_ (piece_at h p)) true
  /\ (forall q, q <> p -> piece_at h' q = piece_at h q)
  /\ games h' = games h.
Proof.
  intros Hwf Hp Hf Ht Hne Hfrom h'. unfold h'.
  rewrite (MovePiece_true h b from to p Hf Ht Hfrom). cbn [fst snd].
  assert (Hwf1 : wf_board (SetPiece h b to (Some p)) b).
  { destruct Hwf as [Hb Hl]. split.
    - by rewrite length_boards_SetPiece.
    - rewrite board_at_SetPiece, Ht. by rewrite length_insert. }
  split; [reflexivity|]. rewrite !GetPiece_store_piece.
  split; [|split; [|split; [|split; [|split]]]].
  - rewrite GetPiece_SetPiece_other by congruence.
    by apply GetPiece_SetPiece_same.
  - by apply GetPiece_SetPiece_same.
  - intros pos Hpf Hpt. rewrite GetPiece_store_piece.
    rewrite !GetPiece_SetPiece_other by assumption. reflexivity.
  - unfold piece_at at 1, store_piece. cbn [pieces].
    rewrite !pieces_SetPiece, list_lookup_insert_eq by exact Hp. reflexivity.
  - intros q Hq. unfold piece_at at 1, store_piece. cbn [pieces].
    rewrite !pieces_SetPiece, list_lookup_insert_ne by congruence. reflexivity.
  - unfold store_piece. cbn [games]. by rewrite !games_SetPiece.
Qed.

(** X5: a relocation between two distinct squares of the board puts the
    piece of the from-square on the to-square, whatever stood there,
    empties the from-square, leaves every other square as it was, and
    sets the has-moved flag of the piece and of no other piece. *)
Theorem MovePiece_relocates (h : heap) (b : ptr) (from to : Position) (p : ptr) :
  wf_board h b -> (p < length (pieces h))%nat ->
  IsValid from = true -> IsValid to = true -> from <> to ->
  GetPiece h b from = Some p ->
  let h' := fst (MovePiece h b from to) in
  snd (MovePiece h b from to) = true
  /\ GetPiece h' b to = Some p
  /\ GetPiece h' b from = None
  /\ (forall pos, pos <> from -> pos <> to -> GetPiece h' b pos = GetPiece h b pos)
  /\ piece_at h' p = mkPiece (Type_ (piece_at h p)) (Color_ (piece_at h p)) true
  /\ (forall q, q <> p -> piece_at h' q = piece_at h q)
  /\ games h' = games h.
Proof. apply MovePiece_moves. Qed.

(** X6: a relocation of a piece onto its own square answers true and
    leaves the square empty: the piece is written to the square and the
    square is then cleared. *)
Theorem MovePiece_onto_itself (h : heap) (b : ptr) (pos : Position) (p : ptr) :
  wf_board h b -> IsValid pos = true -> GetPiece h b pos = Some p ->
  snd (MovePiece h b pos pos) = true
  /\ GetPiece (fst (MovePiece h b pos pos)) b pos = None
  /\ forall pos', pos' <> pos ->
       GetPiece (fst (MovePiece h b pos pos)) b pos' = GetPiece h b pos'.
Proof.
  intros Hwf Hv Hp. rewrite (MovePiece_true h b pos pos p Hv Hv Hp). cbn [fst snd].
  assert (Hwf1 : wf_board (SetPiece h b pos (Some p)) b).
  { destruct Hwf as [Hb Hl]. split.
    - by rewrite length_boards_SetPiece.
    - rewrite board_at_SetPiece, Hv. by rewrite length_insert. }
  split; [reflexivity|]. split.
  - rewrite GetPiece_store_piece. by apply GetPiece_SetPiece_same.
  - intros pos' Hne. rewrite GetPiece_store_piece.
    rewrite !GetPiece_SetPiece_other by assumption. reflexivity.
Qed.

(** ** Sliding, jumping and stepping *)

Lemma path_step_sgn (a b : Z) : path_step a b = Z.sgn (b - a).
Proof. unfold path_step. destruct (Z.gtb_spec b a); [lia|]. destruct (Z.ltb_spec b a); lia. Qed.

(** The loop of [isPathClear] with [k] squares to go: it ends, and
    answers whether the [k] squares from the current one on are empty. *)
Lemma isPathClear_loop_spec (h : heap) (b : ptr) (rs cs : Z) (to : Position) :
  (rs <> 0 \/ cs <> 0) ->
  forall (k fuel : nat) (r c : Z),
  (k <= fuel)%nat ->
  Row to - r = Z.of_nat k * rs -> Col to - c = Z.of_nat k * cs ->
  exists res, isPathClear_loop fuel h b rs cs r c to = Some res
    /\ (res = true <->
        forall j, 0 <= j < Z.of_nat k ->
                  GetPiece h b (NewPosition (r + j * rs) (c + j * cs)) = None).
Proof.
  intros Hstep. induction k as [|k IH]; intros fuel r c Hk Hr Hc.
  - exists true. split; [|split; [intros _ j Hj; lia|reflexivity]].
    destruct fuel; cbn [isPathClear_loop];
      replace (r =? Row to) with true by (symmetry; apply Z.eqb_eq; lia);
      replace (c =? Col to) with true by (symmetry; apply Z.eqb_eq; lia); reflexivity.
  - destruct fuel as [|fuel]; [lia|]. cbn [isPathClear_loop].
    assert (Hcond : negb (r =? Row to) || negb (c =? Col to) = true).
    { apply orb_true_iff. destruct Hstep as [Hs|Hs]; [left|right];
        apply negb_true_iff, Z.eqb_neq; nia. }
    rewrite Hcond.
    destruct (GetPiece h b (NewPosition r c)) as [q|] eqn:Hq.
    + exists false. split; [reflexivity|]. split; [discriminate|].
      intros H. specialize (H 0 ltac:(lia)).
      replace (r + 0 * rs) with r in H by lia. replace (c + 0 * cs) with c in H by lia.
      congruence.
    + destruct (IH fuel (r + rs) (c + cs) ltac:(lia) ltac:(lia) ltac:(lia))
        as (res & Hres & Hiff).
      exists res. split; [exact Hres|]. rewrite Hiff. split.
      * intros H j Hj. destruct (decide (j = 0)) as [->|Hj0].
        -- replace (r + 0 * rs) with r by lia. replace (c + 0 * cs) with c by lia. exact Hq.
        -- specialize (H (j - 1) ltac:(lia)).
           replace (r + rs + (j - 1) * rs) with (r + j * rs) in H by lia.
           replace (c + cs + (j - 1) * cs) with (c + j * cs) in H by lia. exact H.
      * intros H j Hj. specialize (H (j + 1) ltac:(lia)).
        replace (r + (j + 1) * rs) with (r + rs + j * rs) in H by lia.
        replace (c + (j + 1) * cs) with (c + cs + j * cs) in H by lia. exact H.
Qed.

(** [isPathClear] on a line: the squares strictly between are empty. *)
Lemma isPathClear_path_empty (h : heap) (b : ptr) (from to : Position) :
  aligned from to ->
  (isPathClear h b from to = true <-> path_empty h b from to).
Proof.
  intros Hal. unfold isPathClear, path_empty, on_path, distance, path_fuel.
  rewrite !path_step_sgn.
  set (dr := Row to - Row from). set (dc := Col to - Col from).
  set (n := Z.max (Z.abs dr) (Z.abs dc)).
  assert (Hdr : dr = n * Z.sgn dr) by (unfold aligned in Hal; lia).
  assert (Hdc : dc = n * Z.sgn dc) by (unfold aligned in Hal; lia).
  destruct (decide (n = 0)) as [Hn|Hn].
  - rewrite Hn. change (Z.to_nat 0) with O.
    replace (Z.sgn dr) with 0 by lia. replace (Z.sgn dc) with 0 by lia.
    cbn [isPathClear_loop]. rewrite !Z.add_0_r.
    replace (Row from =? Row to) with true by (symmetry; apply Z.eqb_eq; lia).
    replace (Col from =? Col to) with true by (symmetry; apply Z.eqb_eq; lia).
    cbn [negb orb default]. split; [intros _ pos (k & Hk & _); lia|reflexivity].
  - assert (Hstep : Z.sgn dr <> 0 \/ Z.sgn dc <> 0) by lia.
    destruct (isPathClear_loop_spec h b (Z.sgn dr) (Z.sgn dc) to Hstep
                (Z.to_nat (n - 1)) (Z.to_nat n)
                (Row from + Z.sgn dr) (Col from + Z.sgn dc)) as (res & Hres & Hiff).
    + lia.
    + rewrite Z2Nat.id by lia. fold dr. nia.
    + rewrite Z2Nat.id by lia. fold dc. nia.
    + rewrite Hres. cbn [default]. rewrite Hiff. rewrite Z2Nat.id by lia. split.
      * intros H pos (k & Hk & Er & Ec). specialize (H (k - 1) ltac:(lia)).
        destruct pos as [pr pc]. cbn [Row Col] in Er, Ec. subst pr pc.
        replace (Row from + Z.sgn dr + (k - 1) * Z.sgn dr)
          with (Row from + k * Z.sgn dr) in H by lia.
        replace (Col from + Z.sgn dc + (k - 1) * Z.sgn dc)
          with (Col from + k * Z.sgn dc) in H by lia. exact H.
      * intros H j Hj. apply H. exists (j + 1). cbn [Row Col]. lia.
Qed.

(** Between rows or columns of the board the 64-bit subtraction is exact. *)
Lemma board_diff (a b : Z) :
  in_board_range a -> in_board_range b -> sub64 a b = a - b.
Proof.
  unfold in_board_range, sub64. intros Ha Hb. apply wrap64_small. unfold in_int64. lia.
Qed.

Lemma rook_line_aligned (from to : Position) : rook_line from to -> aligned from to.
Proof. unfold rook_line, aligned. tauto. Qed.

Lemma bishop_line_aligned (from to : Position) : bishop_line from to -> aligned from to.
Proof. unfold bishop_line, aligned. tauto. Qed.

(** The rules of the pieces, function by function. *)
Lemma isValidRookMove_rule (h : heap) (b : ptr) (move : Move) :
  isValidRookMove h b move = true
  <-> rook_line (From move) (To move) /\ path_empty h b (From move) (To move).
Proof.
  unfold isValidRookMove.
  destruct (negb (Row (From move) =? Row (To move))
            && negb (Col (From move) =? Col (To move))) eqn:E.
  - apply andb_true_iff in E as [Er Ec].
    apply negb_true_iff, Z.eqb_neq in Er. apply negb_true_iff, Z.eqb_neq in Ec.
    split; [discriminate|]. intros [[H|H] _]; contradiction.
  - assert (Hl : rook_line (From move) (To move)).
    { apply andb_false_iff in E as [E|E]; apply negb_false_iff, Z.eqb_eq in E;
        [left|right]; exact E. }
    rewrite (isPathClear_path_empty h b _ _ (rook_line_aligned _ _ Hl)). tauto.
Qed.

Lemma isValidBishopMove_rule (h : heap) (b : ptr) (move : Move) :
  IsValid (From move) = true -> IsValid (To move) = true ->
  (isValidBishopMove h b move = true
   <-> bishop_line (From move) (To move) /\ path_empty h b (From move) (To move)).
Proof.
  intros Hf Ht. apply IsValid_spec in Hf as [Hfr Hfc]. apply IsValid_spec in Ht as [Htr Htc].
  unfold isValidBishopMove, abs_int. rewrite !board_diff by assumption.
  destruct (Z.eqb_spec (Z.abs (Row (To move) - Row (From move)))
                       (Z.abs (Col (To move) - Col (From move)))) as [E|E]; cbn [negb].
  - rewrite (isPathClear_path_empty h b _ _ (bishop_line_aligned _ _ E)).
    unfold bishop_line. tauto.
  - split; [discriminate|]. intros [H _]. contradiction.
Qed.

Lemma isValidQueenMove_rule (h : heap) (b : ptr) (move : Move) :
  IsValid (From move) = true -> IsValid (To move) = true ->
  (isValidQueenMove h b move = true
   <-> (rook_line (From move) (To move) \/ bishop_line (From move) (To move))
       /\ path_empty h b (From move) (To move)).
Proof.
  intros Hf Ht. unfold isValidQueenMove. rewrite orb_true_iff.
  rewrite isValidRookMove_rule, (isValidBishopMove_rule h b move Hf Ht). tauto.
Qed.

Lemma isValidKnightMove_rule (move : Move) :
  IsValid (From move) = true -> IsValid (To move) = true ->
  (isValidKnightMove move = true <-> knight_jump (From move) (To move)).
Proof.
  intros Hf Ht. apply IsValid_spec in Hf as [Hfr Hfc]. apply IsValid_spec in Ht as [Htr Htc].
  unfold isValidKnightMove, knight_jump, abs_int. rewrite !board_diff by assumption.
  rewrite orb_true_iff, !andb_true_iff, !Z.eqb_eq. reflexivity.
Qed.

Lemma isValidKingMove_rule (move : Move) :
  IsValid (From move) = true -> IsValid (To move) = true ->
  (isValidKingMove move = true <-> king_step (From move) (To move)).
Proof.
  intros Hf Ht. apply IsValid_spec in Hf as [Hfr Hfc]. apply IsValid_spec in Ht as [Htr Htc].
  unfold isValidKingMove, king_step, abs_int. rewrite !board_diff by assumption.
  rewrite andb_true_iff, !Z.leb_le. reflexivity.
Qed.

(** [IsValidMove]: owner, target and the rule of the kind. *)
Lemma IsValidMove_rule (h : heap) (b : ptr) (move : Move) (player : Color) :
  IsValid (To move) = true ->
  (IsValidMove h b move player = true
   <-> exists piece,
         GetPiece h b (From move) = Some piece
         /\ Color_ (piece_at h piece) = player
         /\ ~ holds_own h b (To move) player
         /\ piece_rule h b (Type_ (piece_at h piece)) player move).
Proof.
  intros Ht. unfold IsValidMove.
  destruct (GetPiece h b (From move)) as [piece|] eqn:Hp.
  2:{ split; [discriminate|]. intros (piece & H & _). discriminate. }
  pose proof (proj1 (GetPiece_lookup h b _ _ Hp)) as Hf.
  destruct (bool_decide_reflect (Color_ (piece_at h piece) = player)) as [Ec|Ec]; cbn [negb].
  2:{ split; [discriminate|]. intros (q & [= <-] & H & _). contradiction. }
  assert (Hown : match GetPiece h b (To move) with
                 | Some destPiece =>
                     bool_decide (Color_ (piece_at h destPiece) = Color_ (piece_at h piece))
                 | None => false
                 end = true <-> holds_own h b (To move) player).
  { unfold holds_own. destruct (GetPiece h b (To move)) as [q|].
    - rewrite bool_decide_eq_true, Ec. split.
      + intros E. exists q. split; [reflexivity|exact E].
      + intros (q' & [= <-] & E). exact E.
    - split; [discriminate|]. intros (q' & H & _). discriminate. }
  destruct (match GetPiece h b (To move) with
            | Some destPiece => _ | None => false end) eqn:Eown.
  { split; [discriminate|]. intros (q & _ & _ & Hno & _). exfalso. apply Hno, Hown. reflexivity. }
  assert (Hno : ~ holds_own h b (To move) player).
  { intros H. apply Hown in H. discriminate. }
  assert (Hrule : match Type_ (piece_at h piece) with
                  | Pawn => isValidPawnMove h b move piece
                  | Rook => isValidRookMove h b move
                  | Knight => isValidKnightMove move
                  | Bishop => isValidBishopMove h b move
                  | Queen => isValidQueenMove h b move
                  | King => isValidKingMove move
                  end = true
                  <-> piece_rule h b (Type_ (piece_at h piece)) player move).
  { unfold piece_rule. destruct (Type_ (piece_at h piece)).
    - by apply isValidKingMove_rule.
    - by apply isValidQueenMove_rule.
    - apply isValidRookMove_rule.
    - by apply isValidBishopMove_rule.
    - by apply isValidKnightMove_rule.
    - rewrite <- Ec. apply isValidPawnMove_rule; [exact Hf| |].
      + apply IsValid_spec in Ht as [H _]. unfold in_board_range, in_int64 in *. lia.
      + apply IsValid_spec in Ht as [_ H]. unfold in_board_range, in_int64 in *. lia. }
  rewrite Hrule. split.
  - intros H. exists piece. auto.
  - intros (q & [= <-] & _ & _ & H). exact H.
Qed.

(** X7: between two squares on a common row, column or diagonal,
    [isPathClear] is true exactly when every square strictly between
    them is empty; the two end squares are not looked at. *)
Theorem isPathClear_iff (h : heap) (b : ptr) (from to : Position) :
  aligned from to ->
  (isPathClear h b from to = true <-> path_empty h b from to).
Proof. apply isPathClear_path_empty. Qed.

(** X8: a rook move is valid exactly when the two squares share a row or
    a column and every square strictly between them is empty. *)
Theorem isValidRookMove_iff (h : heap) (b : ptr) (move : Move) :
  isValidRookMove h b move = true
  <-> rook_line (From move) (To move) /\ path_empty h b (From move) (To move).
Proof. apply isValidRookMove_rule. Qed.

(** X9: between squares of the board, a bishop move is valid exactly
    when the two squares lie on a common diagonal and every square
    strictly between them is empty. *)
Theorem isValidBishopMove_iff (h : heap) (b : ptr) (move : Move) :
  IsValid (From move) = true -> IsValid (To move) = true ->
  (isValidBishopMove h b move = true
   <-> bishop_line (From move) (To move) /\ path_empty h b (From move) (To move)).
Proof. apply isValidBishopMove_rule. Qed.

(** X10: between squares of the board, a queen move is valid exactly
    when the two squares share a row, a column or a diagonal and every
    square strictly between them is empty. *)
Theorem isValidQueenMove_iff (h : heap) (b : ptr) (move : Move) :
  IsValid (From move) = true -> IsValid (To move) = true ->
  (isValidQueenMove h b move = true
   <-> (rook_line (From move) (To move) \/ bishop_line (From move) (To move))
       /\ path_empty h b (From move) (To move)).
Proof. apply isValidQueenMove_rule. Qed.

(** X11: between squares of the board, a knight move is valid exactly
    for the jumps of two squares one way and one square the other, and a
    king move exactly for a target at most one row and one column away;
    neither looks at the board. *)
Theorem isValidKnightMove_isValidKingMove_iff (move : Move) :
  IsValid (From move) = true -> IsValid (To move) = true ->
  (isValidKnightMove move = true <-> knight_jump (From move) (To move))
  /\ (isValidKingMove move = true <-> king_step (From move) (To move)).
Proof.
  intros Hf Ht. split; [by apply isValidKnightMove_rule|by apply isValidKingMove_rule].
Qed.

(** X12: for a target on the board, [IsValidMove] is true exactly when
    the from-square holds a piece of the player, the to-square holds no
    piece of the player, and the move follows the rule of the kind of
    the piece.  Whether the move leaves the player's own king attacked
    is not looked at. *)
Theorem IsValidMove_iff (h : heap) (b : ptr) (move : Move) (player : Color) :
  IsValid (To move) = true ->
  (IsValidMove h b move player = true
   <-> exists piece,
         GetPiece h b (From move) = Some piece
         /\ Color_ (piece_at h piece) = player
         /\ ~ holds_own h b (To move) player
         /\ piece_rule h b (Type_ (piece_at h piece)) player move).
Proof. apply IsValidMove_rule. Qed.

Lemma NoDup_all_positions : NoDup all_positions.
Proof. apply (bool_decide_eq_true_1 (NoDup all_positions)). vm_compute. reflexivity. Qed.

(** X13: [GetValidMoves] of a square lists, each once, the moves from
    that square to a square of the board that [IsValidMove] accepts for
    the colour of the piece standing there; for an empty square, or one
    off the board, it lists nothing. *)
Theorem GetValidMoves_iff (h : heap) (b : ptr) (pos : Position) :
  (forall move,
     move ∈ GetValidMoves h b pos
     <-> exists piece,
           GetPiece h b pos = Some piece /\ From move = pos /\ IsValid (To move) = true
           /\ IsValidMove h b move (Color_ (piece_at h piece)) = true)
  /\ NoDup (GetValidMoves h b pos)
  /\ (GetPiece h b pos = None -> GetValidMoves h b pos = []).
Proof.
  split; [|split].
  - intros move. apply elem_of_GetValidMoves.
  - unfold GetValidMoves. destruct (GetPiece h b pos); [|constructor].
    apply NoDup_filter, NoDup_fmap_2; [|apply NoDup_all_positions].
    intros x y [= E]. exact E.
  - intros H. unfold GetValidMoves. rewrite H. reflexivity.
Qed.

(** ** Check, and the moves that escape it *)

Lemma find_Some_first {A : Type} (f : A -> bool) (l : list A) (x : A) :
  List.find f l = Some x ->
  exists l1 l2, l = (l1 ++ x :: l2)%list /\ f x = true /\ Forall (fun y => f y = false) l1.
Proof.
  induction l as [|a l IH]; [discriminate|]. cbn [List.find].
  destruct (f a) eqn:Ha.
  - intros [= <-]. exists [], l. repeat split; [exact Ha|constructor].
  - intros H. destruct (IH H) as (l1 & l2 & -> & Hx & Hl1).
    exists (a :: l1), l2. repeat split; [exact Hx|]. constructor; assumption.
Qed.

Lemma find_None_all {A : Type} (f : A -> bool) (l : list A) :
  List.find f l = None <-> Forall (fun y => f y = false) l.
Proof.
  induction l as [|a l IH]; cbn [List.find].
  - split; [constructor|reflexivity].
  - destruct (f a) eqn:Ha.
    + split; [discriminate|]. intros H. apply Forall_cons in H as [H _]. congruence.
    + rewrite IH. split; [intros H; constructor; assumption|].
      intros H. by apply Forall_cons in H as [_ H].
Qed.

(** The test [findKing] and [isInCheck] scan the squares with. *)
Lemma is_king_true (h : heap) (b : ptr) (color : Color) (pos : Position) :
  match GetPiece h b pos with
  | Some piece =>
      bool_decide (Type_ (piece_at h piece) = King)
      && bool_decide (Color_ (piece_at h piece) = color)
  | None => false
  end = true
  <-> exists piece, GetPiece h b pos = Some piece
        /\ Type_ (piece_at h piece) = King /\ Color_ (piece_at h piece) = color.
Proof.
  destruct (GetPiece h b pos) as [piece|].
  - rewrite andb_true_iff, !bool_decide_eq_true. split.
    + intros [Ht Hc]. exists piece. auto.
    + intros (q & [= <-] & Ht & Hc). auto.
  - split; [discriminate|]. intros (q & H & _). discriminate.
Qed.

(** [findKing] returns the first king in the order of its loops. *)
Lemma findKing_rule (h : heap) (game : ptr) (color : Color) :
  let b := Board (game_at h game) in
  let king_on pos :=
    exists piece, GetPiece h b pos = Some piece
      /\ Type_ (piece_at h piece) = King /\ Color_ (piece_at h piece) = color in
  (forall pos, findKing h game color = Some pos ->
     IsValid pos = true /\ king_on pos
     /\ forall pos', king_on pos' ->
          Row pos < Row pos' \/ (Row pos = Row pos' /\ Col pos <= Col pos'))
  /\ (findKing h game color = None <-> forall pos, ~ king_on pos).
Proof.
  intros b king_on. unfold findKing. fold b. split.
  - intros pos Hfind. pose proof Hfind as Hin. apply find_some in Hin as [Hin Hk].
    apply list_elem_of_In, elem_of_all_positions in Hin.
    apply is_king_true in Hk. split; [exact Hin|]. split; [exact Hk|].
    intros pos' Hk'. apply is_king_true in Hk'.
    assert (Hv' : IsValid pos' = true).
    { destruct (is_king_true h b color pos') as [H _]. destruct (H Hk') as (q & Hq & _).
      apply (GetPiece_lookup h b pos' q Hq). }
    apply find_Some_first in Hfind as (l1 & l2 & Hl & _ & Hl1).
    assert (Hnot : pos' ∉ l1).
    { intros Hin'. rewrite Forall_forall in Hl1. apply Hl1 in Hin'. congruence. }
    clear Hl1 Hk Hk'. apply IsValid_spec in Hin as [Hr Hc].
    apply IsValid_spec in Hv' as [Hr' Hc'].
    unfold in_board_range in *.
    destruct (decide (Row pos < Row pos' \/ (Row pos = Row pos' /\ Col pos <= Col pos')))
      as [Hd|Hd]; [exact Hd|exfalso].
    assert (Hlt : (square_index pos' < square_index pos)%nat).
    { unfold square_index. lia. }
    assert (Hidx : all_positions !! square_index pos' = Some pos').
    { destruct pos' as [r c]. cbn [Row Col] in *. unfold square_index. cbn [Row Col].
      assert (r ∈ seqZ 0 8) as Hr2 by (apply elem_of_seqZ; lia).
      assert (c ∈ seqZ 0 8) as Hc2 by (apply elem_of_seqZ; lia).
      revert Hr2 Hc2. vm_compute seqZ. intros Hr2 Hc2.
      repeat (apply elem_of_cons in Hr2 as [->|Hr2]);
        try (by apply elem_of_nil in Hr2);
        repeat (apply elem_of_cons in Hc2 as [->|Hc2]);
        try (by apply elem_of_nil in Hc2); reflexivity. }
    assert (Hidx2 : all_positions !! square_index pos = Some pos).
    { clear Hidx Hlt Hd Hnot. destruct pos as [r c]. cbn [Row Col] in *.
      unfold square_index. cbn [Row Col].
      assert (r ∈ seqZ 0 8) as Hr2 by (apply elem_of_seqZ; lia).
      assert (c ∈ seqZ 0 8) as Hc2 by (apply elem_of_seqZ; lia).
      revert Hr2 Hc2. vm_compute seqZ. intros Hr2 Hc2.
      repeat (apply elem_of_cons in Hr2 as [->|Hr2]);
        try (by apply elem_of_nil in Hr2);
        repeat (apply elem_of_cons in Hc2 as [->|Hc2]);
        try (by apply elem_of_nil in Hc2); reflexivity. }
    pose proof NoDup_all_positions as Hnd. rewrite Hl in Hidx, Hidx2, Hnd.
    assert (Hlen : length l1 = square_index pos).
    { apply NoDup_app in Hnd as (_ & Hdis & Hnd2).
      destruct (decide (square_index pos < length l1)%nat) as [Hlt1|Hge1].
      - rewrite lookup_app_l in Hidx2 by exact Hlt1.
        apply list_elem_of_lookup_2 in Hidx2. exfalso. apply (Hdis pos Hidx2). left.
      - destruct (decide (square_index pos = length l1)) as [E|Hne]; [by symmetry|].
        rewrite lookup_app_r in Hidx2 by lia.
        destruct (square_index pos - length l1)%nat as [|k] eqn:Ek; [lia|].
        cbn in Hidx2. apply list_elem_of_lookup_2 in Hidx2.
        apply NoDup_cons in Hnd2 as [Hnd2 _]. contradiction. }
    rewrite lookup_app_l in Hidx by lia.
    apply list_elem_of_lookup_2 in Hidx. contradiction.
  - rewrite find_None_all, Forall_forall. split.
    + intros H pos Hk. pose proof Hk as (q & Hq & _).
      apply GetPiece_lookup in Hq as [Hv _]. apply elem_of_all_positions in Hv.
      apply H in Hv. apply is_king_true in Hk. congruence.
    + intros H pos _. destruct (match GetPiece h b pos with Some _ => _ | None => _ end) eqn:E;
        [|reflexivity].
      apply is_king_true in E. exfalso. exact (H pos E).
Qed.

(** [Game.isInCheck] looks for the king as [AI.findKing] does. *)
Lemma isInCheck_findKing (h : heap) (g : ptr) (player : Color) :
  isInCheck h g player
  = match findKing h g player with
    | None => false
    | Some kingPos =>
        existsb
          (fun pos =>
             match GetPiece h (Board (game_at h g)) pos with
             | Some piece =>
                 bool_decide (Color_ (piece_at h piece) = other_color player)
                 && IsValidMove h (Board (game_at h g)) (NewMove pos kingPos)
                      (other_color player)
             | None => false
             end)
          all_positions
    end.
Proof.
  unfold isInCheck, findKing. destruct (List.find _ all_positions); [|reflexivity].
  destruct player; reflexivity.
Qed.

Lemma isInCheck_rule (h : heap) (g : ptr) (player : Color) :
  isInCheck h g player = true
  <-> exists kingPos attacker,
        findKing h g player = Some kingPos
        /\ IsValidMove h (Board (game_at h g)) (NewMove attacker kingPos)
             (other_color player) = true.
Proof.
  rewrite isInCheck_findKing. destruct (findKing h g player) as [kingPos|].
  - rewrite existsb_exists. split.
    + intros (pos & _ & H). exists kingPos, pos. split; [reflexivity|].
      destruct (GetPiece h (Board (game_at h g)) pos); [|discriminate].
      by apply andb_true_iff in H as [_ H].
    + intros (k & pos & [= <-] & Hv). exists pos.
      pose proof Hv as Hv'. unfold IsValidMove in Hv'. cbn [From] in Hv'.
      destruct (GetPiece h (Board (game_at h g)) pos) as [piece|] eqn:Hp; [|discriminate].
      destruct (bool_decide_reflect (Color_ (piece_at h piece) = other_color player))
        as [Ec|Ec]; [|discriminate].
      split.
      * apply list_elem_of_In, elem_of_all_positions. apply (GetPiece_lookup h _ pos piece Hp).
      * cbn [andb]. exact Hv.
  - split; [discriminate|]. intros (k & a & H & _). discriminate.
Qed.

(** X14: [findKing] returns the first square, row by row from row 0,
    that holds a king of the colour, and nil exactly when no square of
    the board holds one. *)
Theorem findKing_iff (h : heap) (game : ptr) (color : Color) :
  let b := Board (game_at h game) in
  let king_on pos :=
    exists piece, GetPiece h b pos = Some piece
      /\ Type_ (piece_at h piece) = King /\ Color_ (piece_at h piece) = color in
  (forall pos, findKing h game color = Some pos ->
     IsValid pos = true /\ king_on pos
     /\ forall pos', king_on pos' ->
          Row pos < Row pos' \/ (Row pos = Row pos' /\ Col pos <= Col pos'))
  /\ (findKing h game color = None <-> forall pos, ~ king_on pos).
Proof. apply findKing_rule. Qed.

(** X15: a player is in check exactly when some piece of the other side
    has a valid move onto the square of the player's king, the king
    being the one [findKing] returns; a player without a king on the
    board is never in check. *)
Theorem isInCheck_iff (h : heap) (g : ptr) (player : Color) :
  (isInCheck h g player = true
   <-> exists kingPos attacker,
         findKing h g player = Some kingPos
         /\ IsValidMove h (Board (game_at h g)) (NewMove attacker kingPos)
              (other_color player) = true)
  /\ (findKing h g player = None -> isInCheck h g player = false).
Proof.
  split; [apply isInCheck_rule|].
  intros H. rewrite isInCheck_findKing, H. reflexivity.
Qed.

(** X16: on a board of the heap, [hasValidMoves] answers true exactly
    when the player has a legal move: a move between squares of the
    board that [IsValidMove] accepts for the player and after whose
    relocation the player is not in check. *)
Theorem hasValidMoves_iff (h : heap) (g : ptr) (player : Color) :
  wf_board h (Board (game_at h g)) ->
  (snd (hasValidMoves h g player) = true <-> has_legal_move h g player).
Proof. intros Hwf. apply (hasValidMoves_spec h g player Hwf). Qed.

(** X17: [hasValidMoves] puts back what it tries: after the call every
    square of every board holds the piece it held, every game is as it
    was, and every piece has its kind and colour. *)
Theorem hasValidMoves_restores_squares (h : heap) (g : ptr) (player : Color) :
  wf_board h (Board (game_at h g)) ->
  let h' := fst (hasValidMoves h g player) in
  boards h' = boards h /\ games h' = games h
  /\ (forall b pos, GetPiece h' b pos = GetPiece h b pos)
  /\ (forall p, Type_ (piece_at h' p) = Type_ (piece_at h p)
                /\ Color_ (piece_at h' p) = Color_ (piece_at h p)).
Proof. apply hasValidMoves_keeps_squares. Qed.

(** ** What a move changes *)

(** [updateGameState] writes the state label and nothing of the position. *)
Lemma updateGameState_squares (h : heap) (g : ptr) :
  (g < length (games h))%nat -> wf_board h (Board (game_at h g)) ->
  let h' := updateGameState h g in
  (forall b pos, GetPiece h' b pos = GetPiece h b pos)
  /\ (forall p, Type_ (piece_at h' p) = Type_ (piece_at h p)
                /\ Color_ (piece_at h' p) = Color_ (piece_at h p))
  /\ forall g', g' <> g -> game_at h' g' = game_at h g'.
Proof.
  intros Hg Hwf h'.
  set (player := CurrentPlayer (game_at h g)).
  destruct (hasValidMoves_keeps_squares h g player Hwf) as (Hb & Hgs & Hsq & Hp).
  assert (E : exists s, h' = store_game (fst (hasValidMoves h g player)) g
                                (set_State (game_at (fst (hasValidMoves h g player)) g) s)).
  { unfold h', updateGameState. fold player.
    destruct (hasValidMoves h g player) as [h4 has]. cbn [fst].
    destruct (isInCheck h g player); destruct has; cbn [negb]; eexists; reflexivity. }
  destruct E as (s & ->). split; [|split].
  - intros b pos. rewrite <- Hsq. reflexivity.
  - intros p. rewrite <- !(proj1 (Hp p)), <- !(proj2 (Hp p)). split; reflexivity.
  - intros g' Hne. unfold game_at, store_game. cbn [games].
    rewrite list_lookup_insert_ne by congruence. rewrite Hgs. reflexivity.
Qed.

(** Everything a move that [MakeMove] applies does to the game. *)
Lemma MakeMove_effect (h : heap) (g : ptr) (from to : string) :
  wf_game h g -> snd (MakeMove h g from to) = None ->
  exists fromPos toPos piece,
    FromAlgebraic from = (fromPos, None) /\ FromAlgebraic to = (toPos, None)
    /\ fromPos <> toPos
    /\ GetPiece h (Board (game_at h g)) fromPos = Some piece
    /\ Color_ (piece_at h piece) = CurrentPlayer (game_at h g)
    /\ let b := Board (game_at h g) in
       let h' := fst (MakeMove h g from to) in
       Board (game_at h' g) = b
       /\ CurrentPlayer (game_at h' g) = other_color (CurrentPlayer (game_at h g))
       /\ MoveHistory (game_at h' g) = (MoveHistory (game_at h g) ++ [NewMove fromPos toPos])%list
       /\ GetPiece h' b toPos = Some piece
       /\ GetPiece h' b fromPos = None
       /\ (forall pos, pos <> fromPos -> pos <> toPos -> GetPiece h' b pos = GetPiece h b pos)
       /\ (forall p, Type_ (piece_at h' p) = Type_ (piece_at h p)
                     /\ Color_ (piece_at h' p) = Color_ (piece_at h p))
       /\ classified h' g.
Proof.
  intros Hwf Hok. pose proof Hwf as (_ & _ & _ & Halloc).
  apply wf_game_wf_board in Hwf as [Hg Hb].
  destruct (MakeMove_success h g from to Hok)
    as (move & h3 & Efrom & Eto & Hvalid & Efinal & [Eh3 | Hng]); [|contradiction].
  destruct move as [fromPos toPos]. cbn [From To] in *.
  destruct (FromAlgebraic_inverse _ _ Eto) as [Hvt _].
  destruct (proj1 (IsValidMove_rule h _ (NewMove fromPos toPos) _ Hvt) Hvalid)
    as (piece & Hp & Hc & _). cbn [From To] in Hp.
  assert (Hne : fromPos <> toPos).
  { intros <-. rewrite IsValidMove_same_square in Hvalid. discriminate. }
  pose proof (proj1 (GetPiece_lookup h _ _ _ Hp)) as Hvf.
  exists fromPos, toPos, piece. do 5 (split; [assumption|]).
  cbv zeta in Eh3 |- *. rewrite Efinal. clear Efinal Hok.
  set (b := Board (game_at h g)) in *.
  set (h1 := fst (MovePiece h b fromPos toPos)) in *.
  destruct (MovePiece_moves h b fromPos toPos piece Hb (Halloc _ _ Hp) Hvf Hvt Hne Hp)
    as (_ & Hto & Hfrom & Hothers & Hpiece & Hrest & Eg).
  fold h1 in Hto, Hfrom, Hothers, Hpiece, Hrest, Eg.
  assert (Ex : game_at h1 g = game_at h g) by (unfold game_at; rewrite Eg; reflexivity).
  rewrite Ex in Eh3.
  assert (Hg3 : (g < length (games h3))%nat).
  { rewrite Eh3. cbn [store_game games]. rewrite !length_insert, Eg. exact Hg. }
  assert (Egame : game_at h3 g
                  = mkGame (Board (game_at h g))
                      (if decide (CurrentPlayer (game_at h g) = White) then Black else White)
                      (State (game_at h g))
                      (MoveHistory (game_at h g) ++ [NewMove fromPos toPos])).
  { rewrite Eh3. apply game_at_store_game. cbn [store_game games].
    rewrite length_insert, Eg. exact Hg. }
  assert (Hb3 : wf_board h3 (Board (game_at h3 g))).
  { rewrite Egame. cbn [Board]. rewrite Eh3.
    apply wf_board_store_game, wf_board_store_game, wf_board_MovePiece, Hb. }
  assert (Hsq3 : forall b' pos, GetPiece h3 b' pos = GetPiece h1 b' pos).
  { intros b' pos. rewrite Eh3. reflexivity. }
  assert (Hp3 : forall p, piece_at h3 p = piece_at h1 p).
  { intros p. rewrite Eh3. reflexivity. }
  destruct (updateGameState_classified h3 g Hg3 Hb3) as (Hcl & Ep & Eh & Ebd).
  destruct (updateGameState_squares h3 g Hg3 Hb3) as (Hsq & Hty & _).
  split; [rewrite Ebd, Egame; reflexivity|].
  split; [rewrite Ep, Egame; cbn [CurrentPlayer];
          destruct (CurrentPlayer (game_at h g)); reflexivity|].
  split; [rewrite Eh, Egame; reflexivity|].
  split; [rewrite Hsq, Hsq3; exact Hto|].
  split; [rewrite Hsq, Hsq3; exact Hfrom|].
  split; [intros pos H1 H2; rewrite Hsq, Hsq3; by apply Hothers|].
  split; [|exact Hcl].
  intros p. rewrite (proj1 (Hty p)), (proj2 (Hty p)), Hp3.
  destruct (decide (p = piece)) as [->|Hq].
  - rewrite Hpiece. split; reflexivity.
  - rewrite (Hrest p Hq). split; reflexivity.
Qed.

(** X18: a move that [MakeMove] applies relocates the piece of the
    from-square, a piece of the side to move, onto the to-square, leaves
    every other square and the kind and colour of every piece as they
    were, appends the move to the history and passes the turn to the
    other side. *)
Theorem MakeMove_applies_move (h : heap) (g : ptr) (from to : string) :
  wf_game h g -> snd (MakeMove h g from to) = None ->
  exists fromPos toPos piece,
    FromAlgebraic from = (fromPos, None) /\ FromAlgebraic to = (toPos, None)
    /\ fromPos <> toPos
    /\ GetPiece h (Board (game_at h g)) fromPos = Some piece
    /\ Color_ (piece_at h piece) = CurrentPlayer (game_at h g)
    /\ let b := Board (game_at h g) in
       let h' := fst (MakeMove h g from to) in
       Board (game_at h' g) = b
       /\ CurrentPlayer (game_at h' g) = other_color (CurrentPlayer (game_at h g))
       /\ MoveHistory (game_at h' g) = (MoveHistory (game_at h g) ++ [NewMove fromPos toPos])%list
       /\ GetPiece h' b toPos = Some piece
       /\ GetPiece h' b fromPos = None
       /\ (forall pos, pos <> fromPos -> pos <> toPos -> GetPiece h' b pos = GetPiece h b pos)
       /\ (forall p, Type_ (piece_at h' p) = Type_ (piece_at h p)
                     /\ Color_ (piece_at h' p) = Color_ (piece_at h p)).
Proof.
  intros Hwf Hok.
  destruct (MakeMove_effect h g from to Hwf Hok)
    as (fromPos & toPos & piece & H1 & H2 & H3 & H4 & H5 & H6).
  exists fromPos, toPos, piece. do 5 (split; [assumption|]).
  cbv zeta in H6 |- *. destruct H6 as (Ha & Hb & Hc & Hd & He & Hf & Hg & _).
  do 6 (split; [assumption|]). exact Hg.
Qed.

(** X19: after a move that [MakeMove] applies, [IsGameOver] is true
    exactly when the side now to move has no legal move, and the state
    is never Draw. *)
Theorem MakeMove_game_over_iff (h : heap) (g : ptr) (from to : string) :
  wf_game h g -> snd (MakeMove h g from to) = None ->
  let h' := fst (MakeMove h g from to) in
  (IsGameOver h' g = true <-> ~ has_legal_move h' g (CurrentPlayer (game_at h' g)))
  /\ State (game_at h' g) <> Draw.
Proof.
  intros Hwf Hok h'.
  destruct (MakeMove_effect h g from to Hwf Hok) as (fromPos & toPos & piece & H).
  destruct H as (_ & _ & _ & _ & _ & H).
  cbv zeta in H. destruct H as (_ & _ & _ & _ & _ & _ & _ & Hcl). fold h' in Hcl.
  unfold classified in Hcl. unfold IsGameOver.
  destruct (State (game_at h' g)); cbn [bool_decide decide_rel orb]; try contradiction;
    (split; [|discriminate]); destruct Hcl as [_ Hl];
    rewrite ?orb_true_iff, ?bool_decide_eq_true; split; try tauto.
  all: try (intros [[E|E]|E]; discriminate).
  all: try (intros _; left; left; reflexivity).
  all: try (intros _; left; right; reflexivity).
Qed.
(** ** The starting position *)

Lemma store_board_alloc (h : heap) (sq sq' : list (option ptr)) :
  store_board (fst (alloc_board h sq)) (length (boards h)) sq'
  = mkHeap (pieces h) (boards h ++ [sq']) (games h).
Proof.
  unfold store_board, alloc_board. cbn [fst pieces boards games]. f_equal.
  rewrite insert_app_r_alt by lia. rewrite Nat.sub_diag. reflexivity.
Qed.

(** The heap [NewBoard] leaves: 32 new pieces and one new board. *)
Lemma NewBoard_explicit (h : heap) :
  NewBoard h
  = (mkHeap (pieces h ++ initial_pieces)
            (boards h ++ [initial_squares (length (pieces h))]) (games h),
     length (boards h)).
Proof.
  unfold NewBoard. cbn [alloc_board]. f_equal.
  unfold setupInitialPosition, back_rank.
  cbn [place_row replicate place NewPiece alloc_piece pieces boards games fst snd].
  unfold store_board. cbn [pieces boards games]. f_equal.
  - rewrite <- !app_assoc. reflexivity.
  - rewrite insert_app_r_alt by lia. rewrite Nat.sub_diag. cbn [insert list_insert].
    f_equal. rewrite !length_app. cbn [length].
    repeat match goal with
           | |- context [Z.to_nat ?z] =>
               let v := eval vm_compute in (Z.to_nat z) in change (Z.to_nat z) with v
           end.
    unfold initial_squares. cbn [seq fmap list_fmap app replicate insert list_insert].

    repeat (f_equal; try lia).
Qed.

Lemma lookup_app_plus {A : Type} (l1 l2 : list A) (k : nat) :
  ((l1 ++ l2)%list !! (length l1 + k)%nat) = l2 !! k.
Proof. rewrite lookup_app_r by lia. f_equal. lia. Qed.

Lemma NewGame_explicit (h : heap) :
  NewGame h
  = (mkHeap (pieces h ++ initial_pieces)
            (boards h ++ [initial_squares (length (pieces h))])
            (games h ++ [mkGame (length (boards h)) White Playing []]),
     length (games h)).
Proof. unfold NewGame. rewrite NewBoard_explicit. reflexivity. Qed.

Lemma initial_squares_shift (n : nat) :
  initial_squares n = (fun cell : option nat => Nat.add n <$> cell) <$> initial_squares 0.
Proof. reflexivity. Qed.

Lemma starting_table :
  Forall (fun pos =>
            match initial_squares 0 !! square_index pos with
            | Some (Some k) => Some (default (mkPiece King White false) (initial_pieces !! k))
            | _ => None
            end = starting_piece pos)
         all_positions.
Proof. vm_compute. repeat constructor. Qed.

(** The squares and pieces of a board set up by [setupInitialPosition],
    wherever it lies in a heap. *)
Lemma initial_squares_contents (h : heap) (b : ptr) (old : list Piece) (pos : Position) :
  pieces h = (old ++ initial_pieces)%list ->
  board_at h b = initial_squares (length old) ->
  IsValid pos = true ->
  square_contents h b pos = starting_piece pos.
Proof.
  intros Hp Hb Hv. pose proof starting_table as T. rewrite Forall_forall in T.
  rewrite <- (T pos) by (by apply elem_of_all_positions).
  unfold square_contents, GetPiece. rewrite Hv, Hb, initial_squares_shift. cbn [negb].
  rewrite list_lookup_fmap.
  destruct (initial_squares 0 !! square_index pos) as [[k|]|]; cbn; try reflexivity.
  unfold piece_at. rewrite Hp, lookup_app_plus. reflexivity.
Qed.

Lemma omap_NoDup_lookup {A : Type} (l : list (option A)) (i j : nat) (x : A) :
  NoDup (omap id l) -> l !! i = Some (Some x) -> l !! j = Some (Some x) -> i = j.
Proof.
  revert i j. induction l as [|c l IH]; intros i j Hnd Hi Hj; [discriminate|].
  assert (Hin : forall k, l !! k = Some (Some x) -> x ∈ omap id l).
  { intros k Hk. apply list_elem_of_omap. exists (Some x). split; [|reflexivity].
    by apply list_elem_of_lookup_2 in Hk. }
  destruct i as [|i], j as [|j]; cbn in Hi, Hj.
  - reflexivity.
  - injection Hi as ->. cbn in Hnd. apply NoDup_cons in Hnd as [Hnot _].
    exfalso. apply Hnot. by apply (Hin j).
  - injection Hj as ->. cbn in Hnd. apply NoDup_cons in Hnd as [Hnot _].
    exfalso. apply Hnot. by apply (Hin i).
  - f_equal. apply IH; [|assumption|assumption].
    destruct c; cbn in Hnd; [by apply NoDup_cons in Hnd as [_ Hnd]|exact Hnd].
Qed.

Lemma initial_squares_NoDup : NoDup (omap id (initial_squares 0)).
Proof. apply (bool_decide_eq_true_1 (NoDup (omap id (initial_squares 0)))). vm_compute. reflexivity. Qed.

Lemma initial_squares_bound :
  Forall (fun cell => match cell with Some k => (k < 32)%nat | None => True end)
         (initial_squares 0).
Proof. unfold initial_squares. cbn. repeat constructor; lia. Qed.

Lemma initial_squares_lookup (n i p : nat) :
  initial_squares n !! i = Some (Some p) ->
  exists k, p = (n + k)%nat /\ (k < 32)%nat /\ initial_squares 0 !! i = Some (Some k).
Proof.
  rewrite initial_squares_shift, list_lookup_fmap.
  destruct (initial_squares 0 !! i) as [[k|]|] eqn:E; cbn; try discriminate.
  intros [= <-]. exists k. split; [reflexivity|]. split; [|reflexivity].
  pose proof initial_squares_bound as B. rewrite Forall_forall in B.
  apply (B (Some k)). by apply list_elem_of_lookup_2 in E.
Qed.

(** A board laid out as [setupInitialPosition] leaves it: no piece
    stands on two squares, and every piece on it is one of the 32. *)
Lemma initial_squares_board (h : heap) (b : ptr) (old : list Piece) :
  pieces h = (old ++ initial_pieces)%list ->
  board_at h b = initial_squares (length old) ->
  (forall pos pos' p, GetPiece h b pos = Some p -> GetPiece h b pos' = Some p -> pos = pos')
  /\ (forall pos p, GetPiece h b pos = Some p ->
        (length old <= p)%nat /\ (p < length (pieces h))%nat).
Proof.
  intros Hp Hb. split.
  - intros pos pos' p H1 H2.
    apply GetPiece_lookup in H1 as [Hv1 H1]. apply GetPiece_lookup in H2 as [Hv2 H2].
    rewrite Hb in H1, H2.
    apply initial_squares_lookup in H1 as (k1 & -> & _ & H1).
    apply initial_squares_lookup in H2 as (k2 & E & _ & H2).
    assert (k2 = k1) as -> by lia.
    apply square_index_inj; [assumption|assumption|].
    exact (omap_NoDup_lookup _ _ _ _ initial_squares_NoDup H1 H2).
  - intros pos p H1. apply GetPiece_lookup in H1 as [_ H1]. rewrite Hb in H1.
    apply initial_squares_lookup in H1 as (k & -> & Hk & _).
    rewrite Hp, length_app. change (length initial_pieces) with 32%nat. lia.
Qed.

Lemma board_at_last (h : heap) (sq : list (option ptr)) (ps : list Piece) (gs : list Game) :
  board_at (mkHeap ps (boards h ++ [sq]) gs) (length (boards h)) = sq.
Proof.
  unfold board_at. cbn [boards].
  rewrite <- (Nat.add_0_r (length (boards h))), lookup_app_plus. reflexivity.
Qed.

Lemma NewGame_start (h : heap) :
  let h' := fst (NewGame h) in
  let g := snd (NewGame h) in
  let b := Board (game_at h' g) in
  CurrentPlayer (game_at h' g) = White
  /\ State (game_at h' g) = Playing
  /\ MoveHistory (game_at h' g) = []
  /\ (forall pos, IsValid pos = true -> square_contents h' b pos = starting_piece pos)
  /\ (forall pos pos' p, GetPiece h' b pos = Some p -> GetPiece h' b pos' = Some p -> pos = pos')
  /\ wf_game h' g
  /\ heap_extends h h'.
Proof.
  rewrite NewGame_explicit. cbn [fst snd].
  set (h' := mkHeap _ _ _).
  assert (Eg : game_at h' (length (games h)) = mkGame (length (boards h)) White Playing []).
  { unfold game_at, h'. cbn [games].
    rewrite <- (Nat.add_0_r (length (games h))), lookup_app_plus. reflexivity. }
  rewrite Eg. cbn [CurrentPlayer State MoveHistory Board].
  assert (Eb : board_at h' (length (boards h)) = initial_squares (length (pieces h))).
  { apply board_at_last. }
  assert (Ep : pieces h' = (pieces h ++ initial_pieces)%list) by reflexivity.
  destruct (initial_squares_board h' _ _ Ep Eb) as [Hinj Halloc].
  do 3 (split; [reflexivity|]).
  split; [intros pos Hv; by apply (initial_squares_contents h' _ (pieces h))|].
  split; [exact Hinj|]. split.
  - unfold wf_game. rewrite Eg. cbn [Board]. unfold h' at 1 2. cbn [games boards].
    rewrite !length_app. cbn [length]. split; [lia|]. split; [lia|].
    split; [rewrite Eb; reflexivity|].
    intros pos p Hp. apply (Halloc pos p Hp).
  - unfold heap_extends, h'. cbn [pieces boards games].
    split; [|split]; apply prefix_app_r; reflexivity.
Qed.

(** X20: whatever the heap holds, [NewGame] returns a game of its own
    with White to move, state Playing and no history, on the starting
    position: Black's pieces on row 0 and pawns on row 1, White's pawns
    on row 6 and pieces on row 7, no piece marked as moved and none
    standing on two squares.  The cells the heap held are untouched. *)
Theorem NewGame_starting_position (h : heap) :
  let h' := fst (NewGame h) in
  let g := snd (NewGame h) in
  let b := Board (game_at h' g) in
  CurrentPlayer (game_at h' g) = White
  /\ State (game_at h' g) = Playing
  /\ MoveHistory (game_at h' g) = []
  /\ (forall pos, IsValid pos = true -> square_contents h' b pos = starting_piece pos)
  /\ (forall pos pos' p, GetPiece h' b pos = Some p -> GetPiece h' b pos' = Some p -> pos = pos')
  /\ wf_game h' g
  /\ heap_extends h h'.
Proof. apply NewGame_start. Qed.
(** ** What a clone holds, square by square *)

Lemma heap_extends_reads (h h' : heap) (g : ptr) :
  wf_game h g -> heap_extends h h' ->
  game_at h' g = game_at h g
  /\ (forall pos, GetPiece h' (Board (game_at h g)) pos = GetPiece h (Board (game_at h g)) pos)
  /\ (forall p, (p < length (pieces h))%nat -> piece_at h' p = piece_at h p).
Proof.
  intros (Hg & Hb & Hlen & Hp) (Hpp & Hpb & Hpg). split; [|split].
  - unfold game_at. destruct (lookup_lt_is_Some_2 (games h) g Hg) as [x Hx].
    rewrite Hx, (prefix_lookup_Some _ _ _ _ Hx Hpg). reflexivity.
  - intros pos. unfold GetPiece, board_at.
    destruct (lookup_lt_is_Some_2 (boards h) _ Hb) as [x Hx].
    rewrite Hx, (prefix_lookup_Some _ _ _ _ Hx Hpb). reflexivity.
  - intros p Hlt. unfold piece_at. destruct (lookup_lt_is_Some_2 (pieces h) p Hlt) as [x Hx].
    rewrite Hx, (prefix_lookup_Some _ _ _ _ Hx Hpp). reflexivity.
Qed.

(** One step of the board copy, and the whole loop over squares that
    are pairwise distinct. *)
Lemma copy_square_contents (h : heap) (game newBoard : ptr) (hi : heap) (s : Position) :
  wf_game h game -> heap_extends h hi ->
  (length (boards h) <= newBoard)%nat -> wf_board hi newBoard ->
  pieces_allocated hi newBoard ->
  IsValid s = true ->
  let hi' := copy_square game newBoard hi s in
  heap_extends h hi' /\ wf_board hi' newBoard /\ pieces_allocated hi' newBoard
  /\ games hi' = games hi
  /\ (forall pos, square_contents hi' newBoard pos =
        if decide (pos = s) then
          match square_contents h (Board (game_at h game)) s with
          | Some x => Some (copied_piece x)
          | None => square_contents hi newBoard s
          end
        else square_contents hi newBoard pos).
Proof.
  intros Hwf Hext Hfresh Hwb Halloc Hv hi'.
  destruct (heap_extends_reads h hi game Hwf Hext) as (Eg & Esq & Ep).
  unfold hi', copy_square. rewrite Eg, Esq.
  unfold square_contents at 2.
  destruct (GetPiece h (Board (game_at h game)) s) as [piece|] eqn:Hsrc.
  2:{ do 4 (split; [assumption || reflexivity|]).
      intros pos. destruct (decide (pos = s)) as [->|]; reflexivity. }
  assert (Hpa : (piece < length (pieces h))%nat).
  { destruct Hwf as (_ & _ & _ & Hp). exact (Hp s piece Hsrc). }
  rewrite (Ep piece Hpa). cbn [fmap option_fmap option_map alloc_piece].
  set (c := mkPiece (Type_ (piece_at h piece)) (Color_ (piece_at h piece)) false).
  set (ha := mkHeap (pieces hi ++ [c]) (boards hi) (games hi)).
  assert (Hwa : wf_board ha newBoard) by exact Hwb.
  assert (Hwb' : wf_board (SetPiece ha newBoard s (Some (length (pieces hi)))) newBoard).
  { destruct Hwa as [Hb Hl]. split.
    - by rewrite length_boards_SetPiece.
    - rewrite board_at_SetPiece, Hv. by rewrite length_insert. }
  split; [|split; [exact Hwb'|split; [|split]]].
  - unfold SetPiece. rewrite Hv. apply heap_extends_store_board; [|exact Hfresh].
    apply (heap_extends_alloc_piece h hi c Hext).
  - intros pos p. rewrite pieces_SetPiece. unfold ha. cbn [pieces].
    rewrite length_app. cbn [length].
    destruct (decide (pos = s)) as [->|Hne].
    + rewrite (GetPiece_SetPiece_same ha newBoard s _ Hwa Hv). intros [= <-]. lia.
    + rewrite (GetPiece_SetPiece_other ha newBoard s pos _ Hne). intros Hp.
      pose proof (Halloc pos p Hp). lia.
  - rewrite games_SetPiece. reflexivity.
  - intros pos. unfold square_contents. destruct (decide (pos = s)) as [->|Hne].
    + rewrite (GetPiece_SetPiece_same ha newBoard s _ Hwa Hv).
      cbn [fmap option_fmap option_map]. f_equal.
      unfold piece_at. rewrite pieces_SetPiece. unfold ha. cbn [pieces].
      rewrite <- (Nat.add_0_r (length (pieces hi))), lookup_app_plus. reflexivity.
    + rewrite (GetPiece_SetPiece_other ha newBoard s pos _ Hne).
      change (GetPiece ha newBoard pos) with (GetPiece hi newBoard pos).
      destruct (GetPiece hi newBoard pos) as [p|] eqn:Hp; [|reflexivity].
      cbn [fmap option_fmap option_map]. f_equal.
      unfold piece_at. rewrite pieces_SetPiece. unfold ha. cbn [pieces].
      rewrite lookup_app_l by exact (Halloc pos p Hp). reflexivity.
Qed.

Lemma copy_squares_contents (h : heap) (game newBoard : ptr) (squares : list Position) :
  wf_game h game -> (length (boards h) <= newBoard)%nat ->
  NoDup squares -> Forall (fun s => IsValid s = true) squares ->
  forall hi, heap_extends h hi -> wf_board hi newBoard -> pieces_allocated hi newBoard ->
  let hi' := foldl (copy_square game newBoard) hi squares in
  heap_extends h hi' /\ wf_board hi' newBoard /\ pieces_allocated hi' newBoard
  /\ games hi' = games hi
  /\ (forall pos, square_contents hi' newBoard pos =
        if decide (pos ∈ squares) then
          match square_contents h (Board (game_at h game)) pos with
          | Some x => Some (copied_piece x)
          | None => square_contents hi newBoard pos
          end
        else square_contents hi newBoard pos).
Proof.
  intros Hwf Hfresh Hnd Hval. induction squares as [|s rest IH]; intros hi Hext Hwb Halloc.
  - cbn [foldl]. do 4 (split; [assumption || reflexivity|]).
    intros pos. destruct (decide (pos ∈ [])) as [Hin|]; [|reflexivity].
    by apply elem_of_nil in Hin.
  - apply NoDup_cons in Hnd as [Hs Hnd]. apply Forall_cons in Hval as [Hv Hval].
    cbn [foldl].
    destruct (copy_square_contents h game newBoard hi s Hwf Hext Hfresh Hwb Halloc Hv)
      as (Hext1 & Hwb1 & Halloc1 & Eg1 & Hsq1).
    destruct (IH Hnd Hval _ Hext1 Hwb1 Halloc1) as (Hext2 & Hwb2 & Halloc2 & Eg2 & Hsq2).
    do 3 (split; [assumption|]). split; [by rewrite Eg2|].
    intros pos. rewrite Hsq2, Hsq1.
    destruct (decide (pos = s)) as [->|Hne].
    + destruct (decide (s ∈ rest)) as [|_]; [contradiction|].
      destruct (decide (s ∈ s :: rest)) as [_|Hn]; [reflexivity|].
      exfalso. apply Hn. left.
    + destruct (decide (pos ∈ rest)) as [Hin|Hnin].
      * destruct (decide (pos ∈ s :: rest)) as [_|Hn]; [reflexivity|].
        exfalso. apply Hn. by right.
      * destruct (decide (pos ∈ s :: rest)) as [Hin|_]; [|reflexivity].
        apply elem_of_cons in Hin as [->|Hin]; contradiction.
Qed.

(** The clone, field by field and square by square. *)
Lemma copyGame_clone (h : heap) (game : ptr) :
  wf_game h game ->
  let h' := fst (copyGame h game) in
  let g' := snd (copyGame h game) in
  CurrentPlayer (game_at h' g') = CurrentPlayer (game_at h game)
  /\ State (game_at h' g') = State (game_at h game)
  /\ MoveHistory (game_at h' g') = MoveHistory (game_at h game)
  /\ (forall pos, IsValid pos = true ->
        square_contents h' (Board (game_at h' g')) pos
        = match square_contents h (Board (game_at h game)) pos with
          | Some x => Some (copied_piece x)
          | None => starting_piece pos
          end)
  /\ heap_extends h h'
  /\ wf_game h' g'
  /\ (length (games h) <= g')%nat
  /\ (length (boards h) <= Board (game_at h' g'))%nat.
Proof.
  intros Hwf. unfold copyGame. rewrite NewBoard_explicit. cbn [alloc_game pieces boards games].
  pose proof NoDup_all_positions as Hnd.
  assert (Hval : Forall (fun s => IsValid s = true) all_positions).
  { apply Forall_forall. intros s. apply elem_of_all_positions. }
  assert (Hall : forall pos, IsValid pos = true -> pos ∈ all_positions).
  { intros pos. apply elem_of_all_positions. }
  revert Hnd Hval Hall. generalize all_positions. intros squares Hnd Hval Hall.
  set (x := game_at h game).
  set (newBoard := length (boards h)).
  set (newGame := length (games h)).
  set (h2 := mkHeap (pieces h ++ initial_pieces)
               (boards h ++ [initial_squares (length (pieces h))])
               (games h ++ [mkGame newBoard (CurrentPlayer x) (State x)
                              (replicate (length (MoveHistory x)) Move_zero)])).
  assert (Ep2 : pieces h2 = (pieces h ++ initial_pieces)%list) by reflexivity.
  assert (Eb2 : board_at h2 newBoard = initial_squares (length (pieces h))).
  { apply board_at_last. }
  destruct (initial_squares_board h2 _ _ Ep2 Eb2) as [_ Halloc2].
  assert (Hext2 : heap_extends h h2).
  { unfold heap_extends, h2. cbn [pieces boards games].
    split; [|split]; apply prefix_app_r; reflexivity. }
  assert (Hwb2 : wf_board h2 newBoard).
  { split; [|rewrite Eb2; reflexivity].
    unfold h2, newBoard. cbn [boards]. rewrite length_app. cbn [length]. lia. }
  assert (Ha2 : pieces_allocated h2 newBoard).
  { intros pos p Hp. apply (Halloc2 pos p Hp). }
  destruct (copy_squares_contents h game newBoard squares Hwf (Nat.le_refl _) Hnd Hval
              h2 Hext2 Hwb2 Ha2) as (Hext3 & Hwb3 & Ha3 & Eg3 & Hsq3).
  set (h3 := foldl (copy_square game newBoard) h2 squares) in *.
  cbn [fst snd].
  assert (Ey : game_at h3 newGame
               = mkGame newBoard (CurrentPlayer x) (State x)
                   (replicate (length (MoveHistory x)) Move_zero)).
  { unfold game_at. rewrite Eg3. unfold h2, newGame. cbn [games].
    rewrite <- (Nat.add_0_r (length (games h))), lookup_app_plus. reflexivity. }
  destruct (heap_extends_reads h h3 game Hwf Hext3) as (Egame & _ & _).
  rewrite Ey, Egame. cbn [Board CurrentPlayer State MoveHistory]. fold x.
  rewrite length_replicate, firstn_all.
  set (final := mkGame newBoard (CurrentPlayer x) (State x) (MoveHistory x)).
  assert (Hlen3 : (newGame < length (games h3))%nat).
  { rewrite Eg3. unfold h2, newGame. cbn [games]. rewrite length_app. cbn [length]. lia. }
  rewrite (game_at_store_game h3 newGame final Hlen3). cbn [Board CurrentPlayer State MoveHistory].
  do 3 (split; [reflexivity|]).
  split; [|split; [|split; [|split]]].
  - intros pos Hv.
    replace (square_contents (store_game h3 newGame final) (Board final) pos)
      with (square_contents h3 newBoard pos) by reflexivity.
    fold x in Hsq3.
    rewrite Hsq3. destruct (decide (pos ∈ squares)) as [_|Hn]; [|exfalso; auto].
    rewrite (initial_squares_contents h2 newBoard (pieces h) pos Ep2 Eb2 Hv). reflexivity.
  - apply heap_extends_store_game; [exact Hext3|]. unfold newGame. lia.
  - unfold wf_game. rewrite (game_at_store_game h3 newGame final Hlen3). cbn [Board].
    split; [cbn [store_game games]; rewrite length_insert; exact Hlen3|].
    split; [exact (proj1 Hwb3)|]. split; [exact (proj2 Hwb3)|].
    exact Ha3.
  - exact (Nat.le_refl _).
  - exact (Nat.le_refl _).
Qed.

(** X21: the clone [copyGame] makes of a game has the side to move, the
    state and the history of the source; a square occupied in the source
    holds a new piece of the same kind and colour, not marked as moved;
    a square empty in the source holds what [NewBoard] put there, the
    piece of the starting position, since only occupied squares are
    copied.  The clone lies in cells of its own and the source is
    untouched. *)
Theorem copyGame_contents (h : heap) (game : ptr) :
  wf_game h game ->
  let h' := fst (copyGame h game) in
  let g' := snd (copyGame h game) in
  CurrentPlayer (game_at h' g') = CurrentPlayer (game_at h game)
  /\ State (game_at h' g') = State (game_at h game)
  /\ MoveHistory (game_at h' g') = MoveHistory (game_at h game)
  /\ (forall pos, IsValid pos = true ->
        square_contents h' (Board (game_at h' g')) pos
        = match square_contents h (Board (game_at h game)) pos with
          | Some x => Some (copied_piece x)
          | None => starting_piece pos
          end)
  /\ heap_extends h h'
  /\ wf_game h' g'
  /\ (length (games h) <= g')%nat
  /\ (length (boards h) <= Board (game_at h' g'))%nat.
Proof. apply copyGame_clone. Qed.
(** ** The moves the search looks at *)

Lemma IsValidMove_owner (h : heap) (b : ptr) (move : Move) (player : Color) :
  IsValidMove h b move player = true ->
  exists piece, GetPiece h b (From move) = Some piece /\ Color_ (piece_at h piece) = player.
Proof.
  unfold IsValidMove. destruct (GetPiece h b (From move)) as [piece|]; [|discriminate].
  destruct (bool_decide_reflect (Color_ (piece_at h piece) = player)) as [Ec|Ec];
    [|discriminate].
  intros _. exists piece. auto.
Qed.

(** The list holds the pseudo-legal moves of the colour. *)
Lemma getAllPossibleMovesForColor_rule (h : heap) (game : ptr) (color : Color) (move : Move) :
  move ∈ getAllPossibleMovesForColor h game color <-> pseudo_legal h game color move.
Proof.
  unfold getAllPossibleMovesForColor, pseudo_legal.
  set (b := Board (game_at h game)). rewrite list_elem_of_bind. split.
  - intros (from & Hin & Hfrom).
    destruct (GetPiece h b from) as [piece|] eqn:Hp; [|by apply elem_of_nil in Hin].
    destruct (bool_decide_reflect (Color_ (piece_at h piece) = color)) as [Ec|Ec];
      [|by apply elem_of_nil in Hin].
    apply elem_of_GetValidMoves in Hin as (p & Hp' & Ef & Ht & Hv).
    rewrite Hp in Hp'. injection Hp' as <-. rewrite Ec in Hv. rewrite Ef.
    split; [by apply elem_of_all_positions|]. split; assumption.
  - intros (Hf & Ht & Hv). exists (From move).
    split; [|by apply elem_of_all_positions].
    destruct (IsValidMove_owner h b move color Hv) as (piece & Hp & Ec).
    rewrite Hp, (bool_decide_eq_true_2 _ Ec).
    apply elem_of_GetValidMoves. exists piece. rewrite Ec. auto.
Qed.

(** X22: [getAllPossibleMovesForColor] lists exactly the moves between
    squares of the board that [IsValidMove] accepts for the colour.  When
    the side to move has none, [hasValidMoves] answers false for it; the
    list does not leave out the moves after which the side is in
    check. *)
Theorem getAllPossibleMovesForColor_iff (h : heap) (game : ptr) (color : Color) :
  (forall move,
     move ∈ getAllPossibleMovesForColor h game color
     <-> IsValid (From move) = true /\ IsValid (To move) = true
         /\ IsValidMove h (Board (game_at h game)) move color = true)
  /\ (wf_board h (Board (game_at h game)) ->
      getAllPossibleMovesForColor h game color = [] ->
      snd (hasValidMoves h game color) = false).
Proof.
  split; [intros move; apply getAllPossibleMovesForColor_rule|].
  intros Hwf Hnil. destruct (snd (hasValidMoves h game color)) eqn:E; [|reflexivity].
  apply (hasValidMoves_spec h game color Hwf) in E as (move & Hps & _).
  apply getAllPossibleMovesForColor_rule in Hps. rewrite Hnil in Hps.
  by apply elem_of_nil in Hps.
Qed.

(** ** The position hash *)

Lemma foldl_pointwise {A B : Type} (f f' : A -> B -> A) (l : list B) (a : A) :
  (forall a x, x ∈ l -> f a x = f' a x) -> foldl f a l = foldl f' a l.
Proof.
  revert a. induction l as [|x l IH]; intros a H; [reflexivity|]. cbn [foldl].
  rewrite (H a x) by left. apply IH. intros a' y Hy. apply H. by right.
Qed.

(** X23: the white king does not enter the hash: with a white king on a
    square or with the square empty, [hashPosition] is the same, the
    king's term being [0 * (8 * row + col + 1)]. *)
Theorem hashPosition_ignores_white_king (h : heap) (game : ptr) (pos : Position) (k : ptr) :
  wf_board h (Board (game_at h game)) ->
  Type_ (piece_at h k) = King -> Color_ (piece_at h k) = White ->
  let b := Board (game_at h game) in
  hashPosition (SetPiece h b pos (Some k)) game = hashPosition (SetPiece h b pos None) game.
Proof.
  intros Hwf Hty Hc b. unfold hashPosition. rewrite !game_at_SetPiece. fold b.
  f_equal. apply foldl_pointwise. intros hash pos' _.
  destruct (decide (pos' = pos)) as [->|Hne].
  - destruct (IsValid pos) eqn:Hv.
    + rewrite !GetPiece_SetPiece_same by assumption.
      rewrite piece_at_SetPiece, Hty, Hc. cbn [PieceType_int Color_int].
      change (u64 (0 + u64 (0 * 10))) with 0. rewrite Z.mul_0_l.
      change (u64 0) with 0. apply Z.lxor_0_r.
    + unfold SetPiece. rewrite Hv. reflexivity.
  - rewrite !GetPiece_SetPiece_other by assumption.
    destruct (GetPiece h b pos'); [|reflexivity]. rewrite !piece_at_SetPiece. reflexivity.
Qed.

(** ** The search: ordering, leaves and the root *)

Lemma orderMoves_Permutation
    (sort_Slice : forall A : Type, (A -> A -> bool) -> list A -> list A)
    (ai : AI) (h : heap) (moves : list Move) (game : ptr) (ply : Z) (l : list Move) :
  permutes sort_Slice ->
  orderMoves sort_Slice ai h moves game ply = Some l -> l ≡ₚ moves.
Proof.
  intros Hperm.
  assert (E : forall l0 : list Move,
            ((fun move => (move, order_score ai h game ply move)) <$> l0).*1 = l0).
  { induction l0 as [|x l0 IH]; [reflexivity|]. cbn [fmap list_fmap fst]. f_equal. exact IH. }
  unfold orderMoves. destruct moves as [|m moves]; [by intros [= <-]|].
  destruct (ply <? 0); [discriminate|]. intros [= <-].
  transitivity (((fun move => (move, order_score ai h game ply move)) <$> (m :: moves)).*1).
  - apply fmap_Permutation, Hperm.
  - by rewrite E.
Qed.

(** X24: when [sort.Slice] permutes, [orderMoves] returns the moves it
    was given, each as often, for a ply that is not negative; a negative
    ply with a move to score indexes the killer table out of range. *)
Theorem orderMoves_permutation
    (sort_Slice : forall A : Type, (A -> A -> bool) -> list A -> list A)
    (ai : AI) (h : heap) (moves : list Move) (game : ptr) (ply : Z) :
  permutes sort_Slice ->
  (0 <= ply ->
   exists l, orderMoves sort_Slice ai h moves game ply = Some l /\ l ≡ₚ moves)
  /\ (ply < 0 -> moves <> [] -> orderMoves sort_Slice ai h moves game ply = None).
Proof.
  intros Hperm. split.
  - intros Hply. destruct (orderMoves_total sort_Slice ai h moves game ply Hply) as [l Hl].
    exists l. split; [exact Hl|]. by apply (orderMoves_Permutation sort_Slice ai h moves game ply).
  - intros Hply Hne. unfold orderMoves. destruct moves; [contradiction|].
    destruct (Z.ltb_spec ply 0); [reflexivity|lia].
Qed.

(** Insertion sort permutes. *)
Lemma insert_sorted_Permutation {A : Type} (less : A -> A -> bool) (x : A) (l : list A) :
  insert_sorted less x l ≡ₚ x :: l.
Proof.
  induction l as [|y l IH]; cbn [insert_sorted]; [reflexivity|].
  destruct (less x y); [reflexivity|]. rewrite IH. apply Permutation_swap.
Qed.

Lemma insertion_sort_permutes : permutes insertion_sort.
Proof.
  intros A less l. unfold insertion_sort. induction l as [|x l IH]; cbn [foldr]; [reflexivity|].
  rewrite insert_sorted_Permutation, IH. reflexivity.
Qed.

(** X25: a leaf of the search, at depth 0 or in a game whose state is
    not Playing (Check as well as Checkmate and Stalemate), is scored by
    [evaluatePosition] and stored as an exact entry; a later call on any
    position with the same hash, for a depth no greater, returns that
    score from the table without looking at the position. *)
Theorem minimax_leaf_cached
    (sort_Slice : forall A : Type, (A -> A -> bool) -> list A -> list A)
    (fuel : nat) (ai : AI) (h : heap) (game : ptr) (depth : Z) (isMaximizing : bool)
    (alpha beta : float) (ply : Z) (window : float * float) :
  probe_table ai (hashPosition h game) depth alpha beta = inr window ->
  depth = 0 \/ State (game_at h game) <> Playing ->
  let score := evaluatePosition ai h game in
  exists ai',
    minimax sort_Slice (S fuel) ai h game depth isMaximizing alpha beta ply
      = Some (score, ai', h)
    /\ transpositionTable ai' !! hashPosition h game = Some (mkEntry depth score 0)
    /\ forall fuel' h2 game2 depth' isMaximizing' alpha' beta' ply',
         hashPosition h2 game2 = hashPosition h game -> depth' <= depth ->
         minimax sort_Slice (S fuel') ai' h2 game2 depth' isMaximizing' alpha' beta' ply'
         = Some (score, ai', h2).
Proof.
  intros Hprobe Hleaf score.
  eexists. cbn [minimax]. rewrite Hprobe. destruct window as [a b].
  assert (Hc : (depth =? 0) || negb (bool_decide (State (game_at h game) = Playing)) = true).
  { apply orb_true_iff. destruct Hleaf as [->|Hs]; [left; reflexivity|right].
    apply negb_true_iff, bool_decide_eq_false_2, Hs. }
  rewrite Hc. split; [reflexivity|]. cbn [transpositionTable set_table].
  split; [apply lookup_insert_eq|].
  intros fuel' h2 game2 depth' isMaximizing' alpha' beta' ply' Hh Hd.
  cbn [minimax]. unfold probe_table at 1. cbn [transpositionTable set_table].
  rewrite Hh, lookup_insert_eq. cbn [e_depth e_flag e_score].
  destruct (Z.geb_spec depth depth'); [|lia]. reflexivity.
Qed.

(** The best move of the root loops is the one they started with or one
    of the moves they went through. *)
Lemma GetBestMove_moves_candidate
    (sort_Slice : forall A : Type, (A -> A -> bool) -> list A -> list A)
    (currentDepth : Z) (game : ptr) :
  forall moves ai h tempBestMove tempBestScore best score ai' h',
  GetBestMove_moves sort_Slice currentDepth game moves ai h tempBestMove tempBestScore
    = Some ((best, score), ai', h') ->
  best = tempBestMove \/ best ∈ moves.
Proof.
  induction moves as [|move rest IH]; intros ai h tm ts best score ai' h'; cbn [GetBestMove_moves].
  - intros [= <- _ _ _]. by left.
  - destruct (copyGame h game) as [h1 gameCopy].
    destruct (MakeMove h1 gameCopy _ _) as [h2 [e|]].
    + intros H. destruct (IH _ _ _ _ _ _ _ _ H) as [->|Hin]; [by left|right; by right].
    + destruct (minimax sort_Slice _ ai h2 gameCopy _ _ _ _ _) as [[[s ai2] h3]|];
        [|discriminate].
      destruct (PrimFloat.ltb ts s); intros H;
        destruct (IH _ _ _ _ _ _ _ _ H) as [->|Hin];
        try (by left); try (right; by right). right. left.
Qed.

Lemma GetBestMove_depths_candidate
    (sort_Slice : forall A : Type, (A -> A -> bool) -> list A -> list A)
    (allMoves : list Move) (game : ptr) :
  permutes sort_Slice ->
  forall depths ai h bestMove bestScore best score ai' h',
  GetBestMove_depths sort_Slice allMoves game depths ai h bestMove bestScore
    = Some ((best, score), ai', h') ->
  best = bestMove \/ best = Move_zero \/ best ∈ allMoves.
Proof.
  intros Hperm. induction depths as [|d rest IH]; intros ai h bm bs best score ai' h';
    cbn [GetBestMove_depths].
  - intros [= <- _ _ _]. by left.
  - destruct (orderMoves sort_Slice ai h allMoves game 0) as [ordered|] eqn:Ho; [|discriminate].
    pose proof (orderMoves_Permutation sort_Slice ai h allMoves game 0 ordered Hperm Ho) as Hp.
    destruct (GetBestMove_moves sort_Slice d game ordered ai h Move_zero neg_infinity)
      as [[[[tm ts] ai1] h1]|] eqn:Hm; [|discriminate].
    apply GetBestMove_moves_candidate in Hm.
    destruct (PrimFloat.ltb bs ts); intros H;
      destruct (IH _ _ _ _ _ _ _ _ H) as [->|[->|Hin]]; auto.
    destruct Hm as [->|Hin]; [auto|]. right. right. by rewrite <- Hp.
Qed.

(** X26: [GetBestMove] answers false, with two zero positions and
    without touching the engine or the heap, when it is not the engine's
    turn or the side to move has no move [IsValidMove] accepts.  With
    such a move and a search depth of zero or less it answers true with
    the zero positions, a8 to a8: the deepening loop does not run and
    the best move is still the zero value. *)
Theorem GetBestMove_without_search
    (sort_Slice : forall A : Type, (A -> A -> bool) -> list A -> list A)
    (ai : AI) (h : heap) (game : ptr) :
  (CurrentPlayer (game_at h game) <> ai_color ai \/ getAllPossibleMoves h game = [] ->
   GetBestMove sort_Slice ai h game = Some ((Position_zero, Position_zero, false), ai, h))
  /\ (CurrentPlayer (game_at h game) = ai_color ai ->
      getAllPossibleMoves h game <> [] -> ai_depth ai <= 0 ->
      GetBestMove sort_Slice ai h game
      = Some ((Position_zero, Position_zero, true), set_killers ai killerMoves_zero, h)).
Proof.
  unfold GetBestMove. split.
  - intros [Hc|Hn].
    + by rewrite (bool_decide_eq_false_2 _ Hc).
    + destruct (negb _); [reflexivity|]. by rewrite Hn.
  - intros Hc Hn Hd. rewrite (bool_decide_eq_true_2 _ Hc). cbn [negb].
    destruct (getAllPossibleMoves h game); [contradiction|].
    cbn [ai_depth set_killers]. rewrite (seqZ_nil 1 _ Hd). reflexivity.
Qed.

(** X27: when [sort.Slice] permutes, a move [GetBestMove] returns with
    true is a move between squares of the board that [IsValidMove]
    accepts for the engine's colour, the side to move, or it is the zero
    move, which is what is returned when no candidate scored above
    negative infinity; returned with false, the positions are zero. *)
Theorem GetBestMove_returns_candidate
    (sort_Slice : forall A : Type, (A -> A -> bool) -> list A -> list A)
    (ai : AI) (h : heap) (game : ptr) (from to : Position) (ok : bool) (ai' : AI) (h' : heap) :
  permutes sort_Slice ->
  GetBestMove sort_Slice ai h game = Some ((from, to, ok), ai', h') ->
  if ok then
    CurrentPlayer (game_at h game) = ai_color ai
    /\ (NewMove from to = Move_zero
        \/ pseudo_legal h game (ai_color ai) (NewMove from to))
  else from = Position_zero /\ to = Position_zero /\ ai' = ai /\ h' = h.
Proof.
  intros Hperm. unfold GetBestMove.
  destruct (bool_decide_reflect (CurrentPlayer (game_at h game) = ai_color ai)) as [Hc|Hc];
    cbn [negb].
  2:{ intros [= <- <- <- <- <-]. auto. }
  destruct (getAllPossibleMoves h game) as [|m ms] eqn:Hall.
  { intros [= <- <- <- <- <-]. auto. }
  destruct (GetBestMove_depths _ _ _ _ _ _ _ _) as [[[[best score] ai1] h1]|] eqn:Hd;
    [|discriminate].
  intros [= <- <- <- <- <-]. split; [exact Hc|].
  apply (GetBestMove_depths_candidate _ _ _ Hperm) in Hd.
  assert (Hb : best = Move_zero \/ best ∈ m :: ms) by (destruct Hd as [->|[->|H]]; auto).
  destruct best as [f t]. cbn [From To].
  destruct Hb as [Hz|Hin]; [by left|right].
  rewrite <- Hall in Hin. unfold getAllPossibleMoves in Hin.
  rewrite Hc in Hin. by apply getAllPossibleMovesForColor_rule in Hin.
Qed.
(** ** The properties above, at the starting position *)

Lemma wf_board_start : wf_board start_heap (Board (game_at start_heap start_game)).
Proof. apply wf_game_wf_board, wf_game_start. Qed.

Lemma GetPiece_after_SetPiece_e4 :
  let b := Board (game_at start_heap start_game) in
  let e4 := NewPosition 4 4 in
  wf_board start_heap b
  /\ GetPiece (SetPiece start_heap b e4 (Some 12%nat)) b e4 = Some 12%nat.
Proof.
  split; [exact wf_board_start|].
  apply (GetPiece_after_SetPiece start_heap _ (NewPosition 4 4) (Some 12%nat) wf_board_start).
  reflexivity.
Defined.

Lemma MovePiece_relocates_e2e4 :
  let b := Board (game_at start_heap start_game) in
  let e2 := NewPosition 6 4 in
  let e4 := NewPosition 4 4 in
  wf_board start_heap b /\ (12 < length (pieces start_heap))%nat
  /\ IsValid e2 = true /\ IsValid e4 = true /\ e2 <> e4
  /\ GetPiece start_heap b e2 = Some 12%nat
  /\ GetPiece (fst (MovePiece start_heap b e2 e4)) b e4 = Some 12%nat.
Proof.
  assert (H1 : (12 < length (pieces start_heap))%nat) by (vm_compute; lia).
  assert (H2 : NewPosition 6 4 <> NewPosition 4 4) by discriminate.
  assert (H3 : GetPiece start_heap (Board (game_at start_heap start_game)) (NewPosition 6 4)
               = Some 12%nat) by reflexivity.
  do 6 (split; [assumption || reflexivity || exact wf_board_start|]).
  exact (proj1 (proj2 (MovePiece_relocates start_heap _ (NewPosition 6 4) (NewPosition 4 4)
                         12%nat wf_board_start H1 eq_refl eq_refl H2 H3))).
Defined.

Lemma MovePiece_onto_itself_e2 :
  let b := Board (game_at start_heap start_game) in
  let e2 := NewPosition 6 4 in
  wf_board start_heap b /\ IsValid e2 = true /\ GetPiece start_heap b e2 = Some 12%nat
  /\ snd (MovePiece start_heap b e2 e2) = true
  /\ GetPiece (fst (MovePiece start_heap b e2 e2)) b e2 = None.
Proof.
  assert (H3 : GetPiece start_heap (Board (game_at start_heap start_game)) (NewPosition 6 4)
               = Some 12%nat) by reflexivity.
  do 3 (split; [assumption || reflexivity || exact wf_board_start|]).
  destruct (MovePiece_onto_itself start_heap _ (NewPosition 6 4) 12%nat
              wf_board_start eq_refl H3) as (Ha & Hb & _).
  split; assumption.
Defined.

Lemma isPathClear_iff_a1a8 :
  let b := Board (game_at start_heap start_game) in
  let a1 := NewPosition 7 0 in
  let a8 := NewPosition 0 0 in
  aligned a1 a8
  /\ isPathClear start_heap b a1 a8 = false
  /\ ~ path_empty start_heap b a1 a8.
Proof.
  assert (Ha : aligned (NewPosition 7 0) (NewPosition 0 0)) by (right; left; reflexivity).
  split; [exact Ha|]. split; [vm_compute; reflexivity|].
  intros H.
  apply (isPathClear_iff start_heap (Board (game_at start_heap start_game)) _ _ Ha) in H.
  vm_compute in H. discriminate.
Defined.

Lemma isValidBishopMove_iff_c1e3 :
  let b := Board (game_at start_heap start_game) in
  let c1e3 := NewMove (NewPosition 7 2) (NewPosition 5 4) in
  IsValid (From c1e3) = true /\ IsValid (To c1e3) = true
  /\ isValidBishopMove start_heap b c1e3 = false
  /\ ~ (bishop_line (From c1e3) (To c1e3) /\ path_empty start_heap b (From c1e3) (To c1e3)).
Proof.
  do 3 (split; [vm_compute; reflexivity|]). intros H.
  apply (isValidBishopMove_iff start_heap (Board (game_at start_heap start_game))
           (NewMove (NewPosition 7 2) (NewPosition 5 4)) eq_refl eq_refl) in H.
  vm_compute in H. discriminate.
Defined.

Lemma isValidQueenMove_iff_d1d3 :
  let b := Board (game_at start_heap start_game) in
  let d1d3 := NewMove (NewPosition 7 3) (NewPosition 5 3) in
  IsValid (From d1d3) = true /\ IsValid (To d1d3) = true
  /\ isValidQueenMove start_heap b d1d3 = false
  /\ ~ ((rook_line (From d1d3) (To d1d3) \/ bishop_line (From d1d3) (To d1d3))
        /\ path_empty start_heap b (From d1d3) (To d1d3)).
Proof.
  do 3 (split; [vm_compute; reflexivity|]). intros H.
  apply (isValidQueenMove_iff start_heap (Board (game_at start_heap start_game))
           (NewMove (NewPosition 7 3) (NewPosition 5 3)) eq_refl eq_refl) in H.
  vm_compute in H. discriminate.
Defined.

Lemma isValidKnightMove_isValidKingMove_iff_b1c3 :
  let b1c3 := NewMove (NewPosition 7 1) (NewPosition 5 2) in
  IsValid (From b1c3) = true /\ IsValid (To b1c3) = true
  /\ knight_jump (From b1c3) (To b1c3) /\ ~ king_step (From b1c3) (To b1c3).
Proof.
  pose proof (isValidKnightMove_isValidKingMove_iff
                (NewMove (NewPosition 7 1) (NewPosition 5 2)) eq_refl eq_refl) as [Hn Hk].
  do 2 (split; [reflexivity|]). split.
  - apply Hn. vm_compute. reflexivity.
  - intros H. apply Hk in H. vm_compute in H. discriminate.
Defined.

Lemma IsValidMove_iff_b1c3 :
  let b := Board (game_at start_heap start_game) in
  let b1c3 := NewMove (NewPosition 7 1) (NewPosition 5 2) in
  IsValid (To b1c3) = true
  /\ exists piece,
       GetPiece start_heap b (From b1c3) = Some piece
       /\ Color_ (piece_at start_heap piece) = White
       /\ ~ holds_own start_heap b (To b1c3) White
       /\ piece_rule start_heap b (Type_ (piece_at start_heap piece)) White b1c3.
Proof.
  split; [reflexivity|].
  apply (IsValidMove_iff start_heap (Board (game_at start_heap start_game))
           (NewMove (NewPosition 7 1) (NewPosition 5 2)) White eq_refl).
  vm_compute. reflexivity.
Defined.

Lemma hasValidMoves_iff_start :
  wf_board start_heap (Board (game_at start_heap start_game))
  /\ has_legal_move start_heap start_game White.
Proof.
  split; [exact wf_board_start|].
  apply (hasValidMoves_iff start_heap start_game White wf_board_start).
  vm_compute. reflexivity.
Defined.

Lemma hasValidMoves_restores_squares_start :
  wf_board start_heap (Board (game_at start_heap start_game))
  /\ boards (fst (hasValidMoves start_heap start_game White)) = boards start_heap.
Proof.
  split; [exact wf_board_start|].
  exact (proj1 (hasValidMoves_restores_squares start_heap start_game White wf_board_start)).
Defined.

Lemma MakeMove_applies_move_e2e4 :
  wf_game start_heap start_game
  /\ snd (MakeMove start_heap start_game "e2" "e4") = None
  /\ exists fromPos toPos piece,
       FromAlgebraic "e2" = (fromPos, None) /\ FromAlgebraic "e4" = (toPos, None)
       /\ GetPiece (fst (MakeMove start_heap start_game "e2" "e4"))
            (Board (game_at start_heap start_game)) toPos = Some piece.
Proof.
  assert (Hok : snd (MakeMove start_heap start_game "e2" "e4") = None)
    by (vm_compute; reflexivity).
  split; [exact wf_game_start|]. split; [exact Hok|].
  destruct (MakeMove_applies_move start_heap start_game "e2" "e4" wf_game_start Hok)
    as (fromPos & toPos & piece & H1 & H2 & _ & _ & _ & H).
  cbv zeta in H. destruct H as (_ & _ & _ & H & _).
  exists fromPos, toPos, piece. auto.
Defined.

Lemma MakeMove_game_over_iff_e2e4 :
  wf_game start_heap start_game
  /\ snd (MakeMove start_heap start_game "e2" "e4") = None
  /\ State (game_at (fst (MakeMove start_heap start_game "e2" "e4")) start_game) <> Draw.
Proof.
  assert (Hok : snd (MakeMove start_heap start_game "e2" "e4") = None)
    by (vm_compute; reflexivity).
  split; [exact wf_game_start|]. split; [exact Hok|].
  exact (proj2 (MakeMove_game_over_iff start_heap start_game "e2" "e4" wf_game_start Hok)).
Defined.

Lemma copyGame_contents_start :
  wf_game start_heap start_game
  /\ heap_extends start_heap (fst (copyGame start_heap start_game)).
Proof.
  split; [exact wf_game_start|].
  destruct (copyGame_contents start_heap start_game wf_game_start)
    as (_ & _ & _ & _ & H & _).
  exact H.
Defined.

Lemma hashPosition_ignores_white_king_e1 :
  let b := Board (game_at start_heap start_game) in
  let e1 := NewPosition 7 4 in
  wf_board start_heap b
  /\ Type_ (piece_at start_heap 4%nat) = King /\ Color_ (piece_at start_heap 4%nat) = White
  /\ hashPosition (SetPiece start_heap b e1 (Some 4%nat)) start_game
     = hashPosition (SetPiece start_heap b e1 None) start_game.
Proof.
  split; [exact wf_board_start|]. do 2 (split; [reflexivity|]).
  exact (hashPosition_ignores_white_king start_heap start_game (NewPosition 7 4) 4%nat
           wf_board_start eq_refl eq_refl).
Defined.

Lemma orderMoves_permutation_start :
  permutes insertion_sort
  /\ exists l,
       orderMoves insertion_sort (NewAI White 1) start_heap
         (getAllPossibleMoves start_heap start_game) start_game 0 = Some l
       /\ l ≡ₚ getAllPossibleMoves start_heap start_game.
Proof.
  split; [exact insertion_sort_permutes|].
  apply (orderMoves_permutation insertion_sort (NewAI White 1) start_heap
           (getAllPossibleMoves start_heap start_game) start_game 0 insertion_sort_permutes).
  lia.
Defined.

Lemma minimax_leaf_cached_start :
  let ai := NewAI White 1 in
  probe_table ai (hashPosition start_heap start_game) 0 neg_infinity infinity
    = inr (neg_infinity, infinity)
  /\ (0 = 0 \/ State (game_at start_heap start_game) <> Playing)
  /\ exists ai',
       minimax insertion_sort 1 ai start_heap start_game 0 true neg_infinity infinity 0
       = Some (evaluatePosition ai start_heap start_game, ai', start_heap).
Proof.
  assert (Hp : probe_table (NewAI White 1) (hashPosition start_heap start_game) 0
                 neg_infinity infinity = inr (neg_infinity, infinity))
    by (vm_compute; reflexivity).
  assert (Hl : 0 = 0 \/ State (game_at start_heap start_game) <> Playing) by (left; reflexivity).
  split; [exact Hp|]. split; [exact Hl|].
  destruct (minimax_leaf_cached insertion_sort 0 (NewAI White 1) start_heap start_game 0 true
              neg_infinity infinity 0 (neg_infinity, infinity) Hp Hl) as (ai' & H & _).
  exists ai'. exact H.
Defined.

Lemma GetBestMove_returns_candidate_start :
  permutes insertion_sort
  /\ exists from to ok ai' h',
       GetBestMove insertion_sort (NewAI White 1) start_heap start_game
       = Some ((from, to, ok), ai', h')
       /\ if ok then
            CurrentPlayer (game_at start_heap start_game) = White
            /\ (NewMove from to = Move_zero
                \/ pseudo_legal start_heap start_game White (NewMove from to))
          else from = Position_zero /\ to = Position_zero
               /\ ai' = NewAI White 1 /\ h' = start_heap.
Proof.
  split; [exact insertion_sort_permutes|].
  destruct (GetBestMove insertion_sort (NewAI White 1) start_heap start_game)
    as [[[[[from to] ok] ai'] h']|] eqn:E.
  - exists from, to, ok, ai', h'. split; [reflexivity|].
    exact (GetBestMove_returns_candidate insertion_sort (NewAI White 1) start_heap start_game
             from to ok ai' h' insertion_sort_permutes E).
  - destruct (GetBestMove_total insertion_sort (NewAI White 1) start_heap start_game) as [r Hr].
    rewrite E in Hr. discriminate.
Defined.

(** ** Targets off the board *)

Lemma near_diff (a b : Z) :
  in_board_range b -> -8 <= a <= 15 -> sub64 a b = a - b.
Proof.
  unfold in_board_range, sub64. intros Hb Ha. apply wrap64_small. unfold in_int64. lia.
Qed.

(** X28: [IsValidMove] does not ask for the target to be on the board:
    for a king of the player, the move to a position off the board one
    step away is valid, and so is, for a knight, the move to one a jump
    away; the position off the board reads as empty.  [MovePiece]
    refuses such a move and [GetValidMoves] does not list it. *)
Theorem IsValidMove_off_board (h : heap) (b : ptr) (from to : Position) (piece : ptr)
    (player : Color) :
  GetPiece h b from = Some piece ->
  Color_ (piece_at h piece) = player ->
  IsValid to = false ->
  (Type_ (piece_at h piece) = King /\ king_step from to)
  \/ (Type_ (piece_at h piece) = Knight /\ knight_jump from to) ->
  IsValidMove h b (NewMove from to) player = true
  /\ snd (MovePiece h b from to) = false
  /\ NewMove from to ∉ GetValidMoves h b from.
Proof.
  intros Hp Hc Hv Hshape.
  pose proof (proj1 (GetPiece_lookup h b _ _ Hp)) as Hf.
  apply IsValid_spec in Hf as [Hfr Hfc]. unfold in_board_range in Hfr, Hfc.
  split; [|split].
  - unfold IsValidMove. cbn [From To]. rewrite Hp, (bool_decide_eq_true_2 _ Hc). cbn [negb].
    assert (Hto : GetPiece h b to = None) by (unfold GetPiece; rewrite Hv; reflexivity).
    rewrite Hto.
    destruct Hshape as [[Ht Hs]|[Ht Hs]]; rewrite Ht.
    + unfold isValidKingMove, abs_int. cbn [From To]. unfold king_step in Hs.
      rewrite !near_diff by (unfold in_board_range; lia).
      apply andb_true_iff. rewrite !Z.leb_le. exact Hs.
    + unfold isValidKnightMove, abs_int. cbn [From To]. unfold knight_jump in Hs.
      rewrite !near_diff by (unfold in_board_range; lia).
      rewrite orb_true_iff, !andb_true_iff, !Z.eqb_eq. exact Hs.
  - unfold MovePiece. rewrite Hv. cbn [negb]. rewrite orb_true_r. reflexivity.
  - intros Hin. apply elem_of_GetValidMoves in Hin as (p & _ & _ & Ht & _).
    cbn [To] in Ht. congruence.
Qed.

(** ** The state label depends on the position only *)

Lemma updateGameState_same_position (h : heap) (g : ptr) :
  wf_board h (Board (game_at h g)) -> same_position h (updateGameState h g).
Proof.
  intros Hwf. set (player := CurrentPlayer (game_at h g)).
  destruct (hasValidMoves_spec h g player Hwf) as [Hm _].
  assert (E : exists s, updateGameState h g
                = store_game (fst (hasValidMoves h g player)) g
                    (set_State (game_at (fst (hasValidMoves h g player)) g) s)).
  { unfold updateGameState. fold player.
    destruct (hasValidMoves h g player) as [h4 has]. cbn [fst].
    destruct (isInCheck h g player); destruct has; cbn [negb]; eexists; reflexivity. }
  destruct E as (s & ->).
  apply (same_position_trans h (fst (hasValidMoves h g player)));
    [apply only_marks_same_position, Hm|].
  apply same_position_store_game. reflexivity.
Qed.

Lemma classified_State (h h' : heap) (g : ptr) :
  same_position h h' ->
  CurrentPlayer (game_at h' g) = CurrentPlayer (game_at h g) ->
  classified h g -> classified h' g ->
  State (game_at h' g) = State (game_at h g).
Proof.
  intros Hsp Hc H1 H2. unfold classified in H1, H2. rewrite Hc in H2.
  rewrite <- (same_position_isInCheck h h' g _ Hsp) in H2.
  pose proof (same_position_has_legal_move h h' g (CurrentPlayer (game_at h g)) Hsp) as Hl.
  destruct (State (game_at h g)), (State (game_at h' g)); try reflexivity;
    try contradiction; destruct H1 as [A1 B1], H2 as [A2 B2];
    first [ rewrite A1 in A2; discriminate
          | exfalso; apply B2, (proj1 Hl), B1
          | exfalso; apply B1, (proj2 Hl), B2 ].
Qed.

(** X29: [updateGameState] reads the position and the side to move
    only: run a second time it leaves the state label it has just set,
    whatever has-moved flags the first run left behind. *)
Theorem updateGameState_idempotent (h : heap) (g : ptr) :
  (g < length (games h))%nat -> wf_board h (Board (game_at h g)) ->
  let h1 := updateGameState h g in
  let h2 := updateGameState h1 g in
  game_at h2 g = game_at h1 g
  /\ forall b pos, GetPiece h2 b pos = GetPiece h b pos.
Proof.
  intros Hg Hwf h1 h2.
  destruct (updateGameState_classified h g Hg Hwf) as (Hc1 & Ep1 & Eh1 & Eb1).
  fold h1 in Hc1, Ep1, Eh1, Eb1.
  pose proof (updateGameState_same_position h g Hwf) as Hsp1. fold h1 in Hsp1.
  assert (Hg1 : (g < length (games h1))%nat).
  { destruct Hsp1 as (_ & _ & E). apply (f_equal length) in E.
    rewrite !length_fmap in E. lia. }
  assert (Hwf1 : wf_board h1 (Board (game_at h1 g))).
  { rewrite Eb1. destruct Hsp1 as (E & _). destruct Hwf as [Ha Hb].
    split; [by rewrite <- E|]. unfold board_at. by rewrite <- E. }
  destruct (updateGameState_classified h1 g Hg1 Hwf1) as (Hc2 & Ep2 & Eh2 & Eb2).
  fold h2 in Hc2, Ep2, Eh2, Eb2.
  pose proof (updateGameState_same_position h1 g Hwf1) as Hsp2. fold h2 in Hsp2.
  pose proof (classified_State h1 h2 g Hsp2 Ep2 Hc1 Hc2) as Es.
  split.
  - destruct (game_at h2 g), (game_at h1 g). cbn in *. congruence.
  - intros b pos. rewrite <- (same_position_GetPiece h1 h2 b pos Hsp2).
    symmetry. apply (same_position_GetPiece h h1 b pos Hsp1).
Qed.

Lemma IsValidMove_off_board_e1 :
  let b := Board (game_at start_heap start_game) in
  let e1 := NewPosition 7 4 in
  let below := NewPosition 8 4 in
  GetPiece start_heap b e1 = Some 4%nat
  /\ Color_ (piece_at start_heap 4%nat) = White
  /\ IsValid below = false
  /\ king_step e1 below
  /\ IsValidMove start_heap b (NewMove e1 below) White = true.
Proof.
  assert (Hk : king_step (NewPosition 7 4) (NewPosition 8 4)) by (unfold king_step; cbn; lia).
  do 3 (split; [vm_compute; reflexivity|]). split; [exact Hk|].
  exact (proj1 (IsValidMove_off_board start_heap (Board (game_at start_heap start_game))
                  (NewPosition 7 4) (NewPosition 8 4) 4%nat White
                  eq_refl eq_refl eq_refl (or_introl (conj eq_refl Hk)))).
Defined.

Lemma updateGameState_idempotent_start :
  (start_game < length (games start_heap))%nat
  /\ wf_board start_heap (Board (game_at start_heap start_game))
  /\ game_at (updateGameState (updateGameState start_heap start_game) start_game) start_game
     = game_at (updateGameState start_heap start_game) start_game.
Proof.
  assert (Hg : (start_game < length (games start_heap))%nat) by (vm_compute; lia).
  split; [exact Hg|]. split; [exact wf_board_start|].
  exact (proj1 (updateGameState_idempotent start_heap start_game Hg wf_board_start)).
Defined.

(** ** The printed board *)












